(** * The extended-table plugin ([#| ... |#]) of the transform pipeline

    A shallow embedding of [src/transform/plugins/table/index.ts]: the
    sentinel detectors, the two inline span skippers, the line-aware cursor,
    the table region scanner, the tree builder, the span resolver and the
    tree compactor, with the properties the specification states about them.

    Conventions.
    - A source string is the list of its UTF-16 code units ([list Z]).
    - A JavaScript number that can be [NaN] (or an [undefined] that is only
      ever used in arithmetic and comparisons) is an [option Z]; [None] is
      [NaN].  Every comparison with [NaN] is false, arithmetic on [NaN] is
      [NaN], and a string index argument that is [NaN] is read as [0].
    - The host's per-line arrays ([bMarks], [eMarks], [tShift]) are finite
      maps from line numbers to offsets: reading a missing line gives
      [undefined], writing never fails. *)

From stdpp Require Import base numbers option list gmap strings pretty sorting.
From Stdlib Require Import Ascii.

Local Open Scope Z_scope.

(** ** JavaScript numbers and strings *)

Abbreviation num := (option Z).

Definition toInteger (n : num) : Z := default 0 n.

Definition nadd (n : num) (k : Z) : num := (λ z, z + k) <$> n.

Definition nlt (a b : num) : bool :=
  match a, b with Some x, Some y => x <? y | _, _ => false end.

Definition nle (a b : num) : bool :=
  match a, b with Some x, Some y => x <=? y | _, _ => false end.

Definition ngt (a b : num) : bool := nlt b a.

(** [a + b] where either side may be [undefined]. *)
Definition nplus (a b : num) : num :=
  match a, b with Some x, Some y => Some (x + y) | _, _ => None end.

Definition len (src : list Z) : Z := Z.of_nat (length src).

(** [src.charCodeAt(pos)] for an integer [pos]: [NaN] out of range. *)
Definition charCodeAt (src : list Z) (pos : Z) : num :=
  if pos <? 0 then None else src !! Z.to_nat pos.

(** [code === c] for a [charCodeAt] result. *)
Definition codeIs (code : num) (c : Z) : bool :=
  match code with Some x => x =? c | None => false end.

(** [src.slice(pos)]: a negative start counts from the end. *)
Definition slice_from (src : list Z) (pos : Z) : list Z :=
  if pos <? 0 then drop (Z.to_nat (Z.max (len src + pos) 0)) src
  else drop (Z.to_nat pos) src.

(** [src.indexOf(c, from)] for a one-character needle; [-1] when absent. *)
Fixpoint indexOf_from (c : Z) (l : list Z) (i : Z) : Z :=
  match l with
  | [] => -1
  | x :: l' => if x =? c then i else indexOf_from c l' (i + 1)
  end.

Definition indexOf (src : list Z) (c : Z) (from : Z) : Z :=
  let k := Z.max from 0 in
  indexOf_from c (drop (Z.to_nat k) src) k.

(** Code units of a literal, for the examples. *)
Fixpoint codes (s : string) : list Z :=
  match s with
  | EmptyString => []
  | String a s' => Z.of_nat (nat_of_ascii a) :: codes s'
  end.

(** The lines of a document joined by line feeds. *)
Fixpoint joinLines (ls : list string) : list Z :=
  match ls with
  | [] => []
  | [l] => codes l
  | l :: ls' => codes l ++ 10 :: joinLines ls'
  end.

(** ** Sentinel detectors *)

Definition pipeChar : Z := 0x7c.
Definition apostropheChar : Z := 0x60.
Definition hashChar : Z := 0x23.
Definition backSlashChar : Z := 0x5c.
Definition curlyBraceOpen : Z := 123.
Definition curlyBraceClose : Z := 125.
Definition dollarChar : Z := 36.

(** The [for] loop of [checkCharsOrder], from index [i] on. *)
Fixpoint checkCharsLoop (currentOrder currentSrc : list Z) (i : nat) : bool :=
  match currentOrder with
  | [] => true
  | orderSymbol :: rest =>
      match currentSrc !! i with
      | Some rowSymbol =>
          if rowSymbol =? orderSymbol then checkCharsLoop rest currentSrc (S i)
          else false
      | None => false
      end
  end.

Definition checkCharsOrder (order : list Z) (src : list Z) (pos : num) : bool :=
  let currentSrc := slice_from src (toInteger pos) in
  checkCharsLoop order currentSrc 0.

Definition liquidVariableStartOrder := [curlyBraceOpen; curlyBraceOpen].
Definition isLiquidVariableStart (src : list Z) (pos : num) : bool :=
  checkCharsOrder liquidVariableStartOrder src pos.

Definition liquidVariableEndOrder := [curlyBraceClose; curlyBraceClose].
Definition isLiquidVariableEnd (src : list Z) (pos : num) : bool :=
  checkCharsOrder liquidVariableEndOrder src pos.

Definition codeBlockOrder := [apostropheChar; apostropheChar; apostropheChar].
Definition isCodeBlockOrder (src : list Z) (pos : num) : bool :=
  checkCharsOrder codeBlockOrder src pos.

Definition mathBlockOrder := [dollarChar; dollarChar].
Definition isMathBlockOrder (src : list Z) (pos : num) : bool :=
  checkCharsOrder mathBlockOrder src pos.

Definition openTableOrder := [hashChar; pipeChar].
Definition isOpenTableOrder (src : list Z) (pos : num) : bool :=
  checkCharsOrder openTableOrder src pos.

(** The [while] loop of [isEscaped]: walks left over backslashes and
    returns the position where it stops.  The walk cannot take more than
    [start] iterations, because [charCodeAt] is [NaN] at [-1]. *)
Fixpoint isEscapedLoop (fuel : nat) (src : list Z) (pos : Z) : Z :=
  match fuel with
  | O => pos
  | S fuel' =>
      if codeIs (charCodeAt src pos) backSlashChar
      then isEscapedLoop fuel' src (pos - 1)
      else pos
  end.

Definition isEscapedAt (src : list Z) (pos : Z) : bool :=
  let start := pos in
  let pos := isEscapedLoop (Z.to_nat start) src (pos - 1) in
  Z.rem (start - pos) 2 =? 0.

(** With a [NaN] position the subtraction is [NaN] and [NaN % 2 === 0] is
    false.  (The loop then tests [src.charCodeAt(NaN)], the first character;
    every caller has just compared that character with a pipe, a backtick or
    a dollar sign, so the loop does not run.) *)
Definition isEscaped (src : list Z) (pos : num) : bool :=
  match pos with
  | Some p => isEscapedAt src p
  | None => false
  end.

Definition notEscaped (src : list Z) (pos : num) : bool := negb (isEscaped src pos).

Definition rowStartOrder := [pipeChar; pipeChar].
Definition isRowOrder (src : list Z) (pos : num) : bool :=
  checkCharsOrder rowStartOrder src pos && notEscaped src pos.

Definition cellStartOrder := [pipeChar].
Definition isCellOrder (src : list Z) (pos : num) : bool :=
  checkCharsOrder cellStartOrder src pos && notEscaped src pos
  && negb (isRowOrder src pos).

Definition closeTableOrder := [pipeChar; hashChar].
Definition isCloseTableOrder (src : list Z) (pos : num) : bool :=
  checkCharsOrder closeTableOrder src pos.

(** [n] backslashes immediately precede [pos]: the [n] characters before
    [pos] are backslashes and the one before them is not (or is missing). *)
Definition precededByBackslashes (src : list Z) (pos : Z) (n : Z) : Prop :=
  0 <= n
  ∧ (∀ i, 1 <= i <= n → charCodeAt src (pos - i) = Some backSlashChar)
  ∧ charCodeAt src (pos - n - 1) ≠ Some backSlashChar.

(** ** Span skippers *)

(** [src.slice(from, to)] for integer bounds. *)
Definition slice (src : list Z) (from to : Z) : list Z :=
  let norm k := if k <? 0 then Z.max (len src + k) 0 else Z.min k (len src) in
  take (Z.to_nat (norm to - norm from)) (drop (Z.to_nat (norm from)) src).

Record SkipInlineResult := { end_ : Z; steps : Z }.

(** "scan marker length":
    [while (pos < max && src.charCodeAt(pos) === apostropheChar) pos++].
    Every iteration reads a character of [src], so [length src] iterations
    are never exceeded. *)
Fixpoint scanMarker (fuel : nat) (src : list Z) (pos : Z) (max : num) : Z :=
  match fuel with
  | O => pos
  | S fuel' =>
      if nlt (Some pos) max && codeIs (charCodeAt src pos) apostropheChar
      then scanMarker fuel' src (pos + 1) max
      else pos
  end.

(** The closer search of [skipInlineCode]:
    [while ((matchStart = src.indexOf('`', matchEnd)) !== -1) ...].
    [matchEnd] grows in every iteration and stays within [src]. *)
Fixpoint findCloser (fuel : nat) (src : list Z) (start openerLength matchEnd : Z)
    (max : num) : option SkipInlineResult :=
  match fuel with
  | O => None
  | S fuel' =>
      let matchStart := indexOf src apostropheChar matchEnd in
      if matchStart =? -1 then None
      else
        let matchEnd := scanMarker (length src) src (matchStart + 1) max in
        let closerLength := matchEnd - matchStart in
        if closerLength =? openerLength
        then Some {| end_ := matchEnd; steps := matchEnd - start |}
        else findCloser fuel' src start openerLength matchEnd max
  end.

Definition skipInlineCodeAt (src : list Z) (pos : Z) (max : num)
    : option SkipInlineResult :=
  if negb (codeIs (charCodeAt src pos) apostropheChar) then None
  else if (0 <? pos) && isEscaped src (Some pos) then None
  else
    let start := pos in
    let pos := scanMarker (length src) src pos max in
    let marker := slice src start pos in
    let openerLength := len marker in
    findCloser (S (length src)) src start openerLength pos max.

(** At a [NaN] position nothing is skipped: [pos < max] is false, the marker
    is the empty slice, and no closing run has length [0]. *)
Definition skipInlineCode (src : list Z) (pos max : num) : option SkipInlineResult :=
  match pos with
  | Some p => skipInlineCodeAt src p max
  | None => None
  end.

(** [cond ? src.charCodeAt(pos + 1) : -1] *)
Definition nextCharWithin (src : list Z) (pos : Z) (max : num) : num :=
  if nle (Some (pos + 1)) max then charCodeAt src (pos + 1) else Some (-1).

(** The closer search of [skipInlineMath]:
    [while ((match = src.indexOf('$', match))) ...]; index [0] is falsy and
    leaves the loop, after which the function returns false. *)
Fixpoint findMathCloser (fuel : nat) (src : list Z) (start match_ : Z)
    (max : num) : option SkipInlineResult :=
  match fuel with
  | O => None
  | S fuel' =>
      let match_ := indexOf src dollarChar match_ in
      if match_ =? 0 then None
      else if (match_ =? -1) || ngt (Some match_) max then None
      else if isEscaped src (Some match_)
      then findMathCloser fuel' src start (match_ + 1) max
      else
        let prevChar := charCodeAt src (match_ - 1) in
        let nextChar := nextCharWithin src match_ max in
        if codeIs prevChar 0x20 || codeIs prevChar 0x09
           || (nle (Some 0x30) nextChar && nle nextChar (Some 0x39))
        then None
        else Some {| end_ := match_ + 1; steps := match_ + 1 - start |}
  end.

Definition skipInlineMathAt (src : list Z) (pos : Z) (max : num)
    : option SkipInlineResult :=
  if negb (codeIs (charCodeAt src pos) dollarChar) then None
  else if (0 <? pos) && negb (notEscaped src (Some pos)) then None
  else
    let nextChar := nextCharWithin src pos max in
    if codeIs nextChar 0x20 || codeIs nextChar 0x09 then None
    else if codeIs nextChar dollarChar
    then Some {| end_ := pos + 2; steps := 2 |}
    else
      let start := pos + 1 in
      findMathCloser (S (length src)) src start start max.

(** At a [NaN] position nothing is skipped either: the function goes on only
    when the first character is a dollar sign, and then [indexOf('$', NaN)]
    is [0], which ends the search loop. *)
Definition skipInlineMath (src : list Z) (pos max : num) : option SkipInlineResult :=
  match pos with
  | Some p => skipInlineMathAt src p max
  | None => None
  end.

(** ** The host state and its tokens *)

Record Token := {
  tok_type : string;
  tok_tag : string;
  tok_nesting : Z;
  tok_level : Z;
  tok_map : option (Z * Z);
  tok_attrs : list (string * string);
  tok_content : list Z;
  tok_markup : list Z;
  tok_hidden : bool;
  tok_markForDeletion : bool;
}.

Record StateBlock := {
  src : list Z;
  bMarks : gmap Z Z;
  eMarks : gmap Z Z;
  tShift : gmap Z Z;
  lineMax : Z;
  stateLine : Z;
  level : Z;
  tokens : list Token;
}.

(** ** Cursor *)

Record Stats := { line : Z; pos : num }.

Record StateIterator := { _pos : num; _line : Z; _lineEnds : num }.

Definition newStateIterator (state : StateBlock) (pos : num) (line : Z)
    : StateIterator :=
  {| _pos := pos; _line := line; _lineEnds := eMarks state !! line |}.

Definition stats (it : StateIterator) : Stats :=
  {| line := _line it; pos := _pos it |}.

(** [state.src[pos]], [None] when undefined. *)
Definition symbol (state : StateBlock) (it : StateIterator) : option Z :=
  p ← _pos it; charCodeAt (src state) p.

(** One round of the [for] loop of [next]. *)
Definition nextStep (state : StateBlock) (it : StateIterator) : StateIterator :=
  let p := nadd (_pos it) 1 in
  if ngt p (_lineEnds it) then
    let l := _line it + 1 in
    {| _pos := nplus (bMarks state !! l) (tShift state !! l);
       _line := l;
       _lineEnds := eMarks state !! l |}
  else {| _pos := p; _line := _line it; _lineEnds := _lineEnds it |}.

Definition next (state : StateBlock) (steps : Z) (it : StateIterator)
    : StateIterator :=
  Nat.iter (Z.to_nat steps) (nextStep state) it.

(** ** Table region scanner *)

Record YfmTablePluginOptions := {
  table_ignoreSplittersInBlockCode : option bool;
  table_ignoreSplittersInBlockMath : option bool;
  table_ignoreSplittersInInlineCode : option bool;
  table_ignoreSplittersInInlineMath : option bool;
}.

(** Truthiness of an optional flag, and of a number-or-null. *)
Definition truthyFlag (o : option bool) : bool := default false o.
Definition truthy (n : num) : bool :=
  match n with Some z => negb (z =? 0) | None => false end.

Definition CellSpan : Type := Stats * Stats.
Definition Row : Type := Z * Z * list CellSpan.

Record RowPositions := {
  rp_rows : list Row;
  rp_endOfTable : num;
  rp_pos : num;
}.

(** The local variables of [getTableRowPositions]. *)
Record Scan := {
  iter : StateIterator;
  endOfTable : num;
  tableLevel : Z;
  currentRow : list CellSpan;
  colStart : option Stats;
  rowStart : num;
  rows : list Row;
  isInsideCode : bool;
  isInsideMath : bool;
  isInsideLiquidVariable : bool;
  rowMap : gmap Z bool;
}.

Definition setIter (it : StateIterator) (s : Scan) : Scan :=
  {| iter := it; endOfTable := endOfTable s; tableLevel := tableLevel s;
     currentRow := currentRow s; colStart := colStart s; rowStart := rowStart s;
     rows := rows s; isInsideCode := isInsideCode s; isInsideMath := isInsideMath s;
     isInsideLiquidVariable := isInsideLiquidVariable s; rowMap := rowMap s |}.

Definition setEndOfTable (e : num) (s : Scan) : Scan :=
  {| iter := iter s; endOfTable := e; tableLevel := tableLevel s;
     currentRow := currentRow s; colStart := colStart s; rowStart := rowStart s;
     rows := rows s; isInsideCode := isInsideCode s; isInsideMath := isInsideMath s;
     isInsideLiquidVariable := isInsideLiquidVariable s; rowMap := rowMap s |}.

Definition setTableLevel (l : Z) (s : Scan) : Scan :=
  {| iter := iter s; endOfTable := endOfTable s; tableLevel := l;
     currentRow := currentRow s; colStart := colStart s; rowStart := rowStart s;
     rows := rows s; isInsideCode := isInsideCode s; isInsideMath := isInsideMath s;
     isInsideLiquidVariable := isInsideLiquidVariable s; rowMap := rowMap s |}.

Definition setCells (cr : list CellSpan) (cs : option Stats) (rs : num)
    (rws : list Row) (s : Scan) : Scan :=
  {| iter := iter s; endOfTable := endOfTable s; tableLevel := tableLevel s;
     currentRow := cr; colStart := cs; rowStart := rs;
     rows := rws; isInsideCode := isInsideCode s; isInsideMath := isInsideMath s;
     isInsideLiquidVariable := isInsideLiquidVariable s; rowMap := rowMap s |}.

Definition setModes (code math liquid : bool) (s : Scan) : Scan :=
  {| iter := iter s; endOfTable := endOfTable s; tableLevel := tableLevel s;
     currentRow := currentRow s; colStart := colStart s; rowStart := rowStart s;
     rows := rows s; isInsideCode := code; isInsideMath := math;
     isInsideLiquidVariable := liquid; rowMap := rowMap s |}.

Definition setRowMap (m : gmap Z bool) (s : Scan) : Scan :=
  {| iter := iter s; endOfTable := endOfTable s; tableLevel := tableLevel s;
     currentRow := currentRow s; colStart := colStart s; rowStart := rowStart s;
     rows := rows s; isInsideCode := isInsideCode s; isInsideMath := isInsideMath s;
     isInsideLiquidVariable := isInsideLiquidVariable s; rowMap := m |}.

(** [iter.next(steps)] *)
Definition advance (state : StateBlock) (steps : Z) (s : Scan) : Scan :=
  setIter (next state steps (iter s)) s.

(** The closure [addRow]. *)
Definition addRow (s : Scan) : Scan :=
  let currentRow1 :=
    match colStart s with
    | Some c => currentRow s ++ [(c, stats (iter s))]
    | None => currentRow s
    end in
  let rows1 :=
    match rowStart s with
    | Some rowStart0 =>
        if negb (length currentRow1 =? 0)%nat && truthy (Some rowStart0)
        then rows s ++ [(rowStart0, _line (iter s), currentRow1)]
        else rows s
    | None => rows s
    end in
  setCells [] None None rows1 s.

(** A round of the scan loop, first part: the toggles of the fenced code
    block and of the fenced math block. *)
Definition fenceToggles (state : StateBlock) (opts : YfmTablePluginOptions)
    (s : Scan) : Scan :=
  let text := src state in
  let s :=
    if negb (bool_decide (table_ignoreSplittersInBlockCode opts = Some false))
       && negb (isInsideMath s) && isCodeBlockOrder text (_pos (iter s))
    then advance state (len codeBlockOrder)
           (setModes (negb (isInsideCode s)) (isInsideMath s)
              (isInsideLiquidVariable s) s)
    else s in
  if truthyFlag (table_ignoreSplittersInBlockMath opts)
     && negb (isInsideCode s) && isMathBlockOrder text (_pos (iter s))
  then advance state (len mathBlockOrder)
         (setModes (isInsideCode s) (negb (isInsideMath s))
            (isInsideLiquidVariable s) s)
  else s.

(** Second part: entering and leaving a template variable. *)
Definition liquidToggles (state : StateBlock) (s : Scan) : Scan :=
  let text := src state in
  let s :=
    if negb (isInsideLiquidVariable s) && isLiquidVariableStart text (_pos (iter s))
    then advance state (len liquidVariableStartOrder)
           (setModes (isInsideCode s) (isInsideMath s) true s)
    else s in
  if isInsideLiquidVariable s && isLiquidVariableEnd text (_pos (iter s))
  then advance state (len liquidVariableEndOrder)
         (setModes (isInsideCode s) (isInsideMath s) false s)
  else s.

(** The two optional inline skips, tried in order. *)
Definition inlineSkip (state : StateBlock) (opts : YfmTablePluginOptions)
    (s : Scan) : option SkipInlineResult :=
  match (if truthyFlag (table_ignoreSplittersInInlineCode opts)
         then skipInlineCode (src state) (_pos (iter s)) (_lineEnds (iter s))
         else None) with
  | Some result => Some result
  | None =>
      if truthyFlag (table_ignoreSplittersInInlineMath opts)
      then skipInlineMath (src state) (_pos (iter s)) (_lineEnds (iter s))
      else None
  end.

(** Last part: the table fences and the row and cell markers; the boolean
    is false when the round ends in [break]. *)
Definition scanMarkers (state : StateBlock) (s : Scan) : Scan * bool :=
  let text := src state in
  if isOpenTableOrder text (_pos (iter s))
  then (advance state (len openTableOrder) (setTableLevel (tableLevel s + 1) s), true)
  else if isCloseTableOrder text (_pos (iter s))
  then
    if tableLevel s =? 0
    then
      let s := advance state (len closeTableOrder) (addRow s) in
      (setEndOfTable (Some (_line (iter s) + 2)) s, false)
    else
      (advance state (len closeTableOrder) (setTableLevel (tableLevel s - 1) s), true)
  else if 0 <? tableLevel s then (advance state 1 s, true)
  else if isRowOrder text (_pos (iter s))
  then
    let insideRow := default false (rowMap s !! tableLevel s) in
    let s :=
      if insideRow
      then advance state (len rowStartOrder) (addRow s)
      else
        let s := advance state (len rowStartOrder) s in
        setCells (currentRow s) (Some (stats (iter s))) (Some (_line (iter s)))
          (rows s) s in
    (setRowMap (<[tableLevel s := negb insideRow]> (rowMap s)) s, true)
  else if isCellOrder text (_pos (iter s))
  then
    let currentRow1 :=
      match colStart s with
      | Some c => currentRow s ++ [(c, stats (iter s))]
      | None => currentRow s
      end in
    let s := advance state (len cellStartOrder) s in
    (setCells currentRow1 (Some (stats (iter s))) (rowStart s) (rows s) s, true)
  else (advance state 1 s, true).

(** One round of the scan loop, after the two exit tests at its top. *)
Definition scanBody (state : StateBlock) (opts : YfmTablePluginOptions)
    (s : Scan) : Scan * bool :=
  let s := fenceToggles state opts s in
  if isInsideCode s || isInsideMath s then (advance state 1 s, true)
  else
  let s := liquidToggles state s in
  if isInsideLiquidVariable s then (advance state 1 s, true)
  else
  match inlineSkip state opts s with
  | Some result => (advance state (steps result) s, true)
  | None => scanMarkers state s
  end.

(** The scan loop.  [None] only when [fuel] rounds were not enough. *)
Fixpoint scanLoop (fuel : nat) (state : StateBlock) (opts : YfmTablePluginOptions)
    (endPosition : num) (s : Scan) : option Scan :=
  match fuel with
  | O => None
  | S fuel' =>
      if negb (nle (_pos (iter s)) endPosition) then Some s
      else if bool_decide (symbol state (iter s) = None) then Some s
      else
        let '(s', continue) := scanBody state opts s in
        if continue then scanLoop fuel' state opts endPosition s' else Some s'
  end.

Definition scanStart (state : StateBlock) (startPosition : num) (startLine : Z)
    : Scan :=
  {| iter := newStateIterator state (nadd startPosition (len openTableOrder)) startLine;
     endOfTable := None; tableLevel := 0; currentRow := []; colStart := None;
     rowStart := None; rows := []; isInsideCode := false; isInsideMath := false;
     isInsideLiquidVariable := false; rowMap := ∅ |}.

(** A number of rounds the loop never exceeds: the cursor either moves one
    character right within [endPosition], or moves to the next line of the
    line table. *)
Definition scanFuel (state : StateBlock) (endPosition : num) : nat :=
  S (S (size (bMarks state)) * Z.to_nat (toInteger endPosition + 2)).

Definition getTableRowPositions (state : StateBlock) (startPosition endPosition : num)
    (startLine : Z) (opts : YfmTablePluginOptions) : option RowPositions :=
  s ← scanLoop (scanFuel state endPosition) state opts endPosition
        (scanStart state startPosition startLine);
  Some {| rp_rows := rows s; rp_endOfTable := endOfTable s; rp_pos := _pos (iter s) |}.

(** ** A host state for the examples

    The line index the host builds for a document (one that does not end in
    a line feed): per line the start offset, the end offset (the line feed,
    or the end of the text) and the count of leading blanks, followed by the
    host's closing entry at the end of the text. *)
Fixpoint lineIndex (text : list Z) (start : Z) (p : Z) (indent : Z) (inIndent : bool)
    (l : Z) (st : gmap Z Z * gmap Z Z * gmap Z Z) : Z * (gmap Z Z * gmap Z Z * gmap Z Z) :=
  let '(b, e, t) := st in
  match text with
  | [] => (l + 1, (<[l := start]> b, <[l := p]> e, <[l := indent]> t))
  | c :: text' =>
      if c =? 10
      then lineIndex text' (p + 1) (p + 1) 0 true (l + 1)
             (<[l := start]> b, <[l := p]> e, <[l := indent]> t)
      else if inIndent && ((c =? 0x20) || (c =? 0x09))
      then lineIndex text' start (p + 1) (indent + 1) true l st
      else lineIndex text' start (p + 1) indent false l st
  end.

Definition hostState (text : list Z) : StateBlock :=
  let '(n, (b, e, t)) := lineIndex text 0 0 0 true 0 (∅, ∅, ∅) in
  {| src := text;
     bMarks := <[n := len text]> b;
     eMarks := <[n := len text]> e;
     tShift := <[n := 0]> t;
     lineMax := n; stateLine := 0; level := 0; tokens := [] |}.

Definition defaultOpts : YfmTablePluginOptions :=
  {| table_ignoreSplittersInBlockCode := None;
     table_ignoreSplittersInBlockMath := None;
     table_ignoreSplittersInInlineCode := None;
     table_ignoreSplittersInInlineMath := None |}.

(** ** Outcomes of the block rule

    [TypeError]: the JavaScript code reads a property of [undefined] and
    throws.  [Unfinished]: the scan loop was cut off by its fuel, which
    [getTableRowPositions_total] shows never happens. *)

Inductive Res (A : Type) : Type :=
  | Ret (a : A)
  | TypeError
  | Unfinished.
Arguments Ret {A} a.
Arguments TypeError {A}.
Arguments Unfinished {A}.

Definition bindRes {A B : Type} (r : Res A) (k : A → Res B) : Res B :=
  match r with
  | Ret a => k a
  | TypeError => TypeError
  | Unfinished => Unfinished
  end.

Notation "x ←r e ; k" := (bindRes e (λ x, k))
  (at level 100, e at next level, k at level 200, right associativity).

(** The outcome is a result or an exception. *)
Definition finished {A : Type} (r : Res A) : Prop :=
  match r with Unfinished => False | _ => True end.

(** Reading [a[i]] before using it as an object. *)
Definition orThrow {A : Type} (o : option A) : Res A :=
  match o with Some a => Ret a | None => TypeError end.

(** ** Host operations on the state and its tokens

    The JavaScript code holds references to token objects that also sit in
    [state.tokens]; here a reference is the token's index in [state.tokens],
    which stays valid because tokens are only appended until the compactor
    runs. *)

Definition setTokens (ts : list Token) (state : StateBlock) : StateBlock :=
  {| src := src state; bMarks := bMarks state; eMarks := eMarks state;
     tShift := tShift state; lineMax := lineMax state;
     stateLine := stateLine state; level := level state; tokens := ts |}.

Definition setLevel (l : Z) (state : StateBlock) : StateBlock :=
  {| src := src state; bMarks := bMarks state; eMarks := eMarks state;
     tShift := tShift state; lineMax := lineMax state;
     stateLine := stateLine state; level := l; tokens := tokens state |}.

Definition setLineMax (l : Z) (state : StateBlock) : StateBlock :=
  {| src := src state; bMarks := bMarks state; eMarks := eMarks state;
     tShift := tShift state; lineMax := l;
     stateLine := stateLine state; level := level state; tokens := tokens state |}.

Definition setStateLine (l : Z) (state : StateBlock) : StateBlock :=
  {| src := src state; bMarks := bMarks state; eMarks := eMarks state;
     tShift := tShift state; lineMax := lineMax state;
     stateLine := l; level := level state; tokens := tokens state |}.

(** [state.tShift[l] = v], [state.bMarks[l] = v], [state.eMarks[l] = v];
    storing [undefined] or [NaN] leaves the line without an offset. *)
Definition setTShift (l : Z) (v : num) (state : StateBlock) : StateBlock :=
  {| src := src state; bMarks := bMarks state; eMarks := eMarks state;
     tShift := partial_alter (λ _, v) l (tShift state); lineMax := lineMax state;
     stateLine := stateLine state; level := level state; tokens := tokens state |}.

Definition setBMark (l : Z) (v : num) (state : StateBlock) : StateBlock :=
  {| src := src state; bMarks := partial_alter (λ _, v) l (bMarks state);
     eMarks := eMarks state; tShift := tShift state; lineMax := lineMax state;
     stateLine := stateLine state; level := level state; tokens := tokens state |}.

Definition setEMark (l : Z) (v : num) (state : StateBlock) : StateBlock :=
  {| src := src state; bMarks := bMarks state;
     eMarks := partial_alter (λ _, v) l (eMarks state);
     tShift := tShift state; lineMax := lineMax state;
     stateLine := stateLine state; level := level state; tokens := tokens state |}.

Definition newToken (type tag : string) (nesting : Z) (lvl : Z) : Token :=
  {| tok_type := type; tok_tag := tag; tok_nesting := nesting; tok_level := lvl;
     tok_map := None; tok_attrs := []; tok_content := []; tok_markup := [];
     tok_hidden := false; tok_markForDeletion := false |}.

(** The host's [state.push(type, tag, nesting)]; returns the new token's
    reference as well. *)
Definition push (state : StateBlock) (type tag : string) (nesting : Z)
    : StateBlock * nat :=
  let level1 := if nesting <? 0 then level state - 1 else level state in
  let token := newToken type tag nesting level1 in
  let level2 := if 0 <? nesting then level1 + 1 else level1 in
  (setTokens (tokens state ++ [token]) (setLevel level2 state),
   length (tokens state)).

Definition withMap (m : Z * Z) (t : Token) : Token :=
  {| tok_type := tok_type t; tok_tag := tok_tag t; tok_nesting := tok_nesting t;
     tok_level := tok_level t; tok_map := Some m; tok_attrs := tok_attrs t;
     tok_content := tok_content t; tok_markup := tok_markup t;
     tok_hidden := tok_hidden t; tok_markForDeletion := tok_markForDeletion t |}.

Definition withAttrs (a : list (string * string)) (t : Token) : Token :=
  {| tok_type := tok_type t; tok_tag := tok_tag t; tok_nesting := tok_nesting t;
     tok_level := tok_level t; tok_map := tok_map t; tok_attrs := a;
     tok_content := tok_content t; tok_markup := tok_markup t;
     tok_hidden := tok_hidden t; tok_markForDeletion := tok_markForDeletion t |}.

Definition withContent (c : list Z) (t : Token) : Token :=
  {| tok_type := tok_type t; tok_tag := tok_tag t; tok_nesting := tok_nesting t;
     tok_level := tok_level t; tok_map := tok_map t; tok_attrs := tok_attrs t;
     tok_content := c; tok_markup := tok_markup t;
     tok_hidden := tok_hidden t; tok_markForDeletion := tok_markForDeletion t |}.

Definition withHidden (h : bool) (t : Token) : Token :=
  {| tok_type := tok_type t; tok_tag := tok_tag t; tok_nesting := tok_nesting t;
     tok_level := tok_level t; tok_map := tok_map t; tok_attrs := tok_attrs t;
     tok_content := tok_content t; tok_markup := tok_markup t;
     tok_hidden := h; tok_markForDeletion := tok_markForDeletion t |}.

(** [token.meta = {markForDeletion: true}] *)
Definition withMark (t : Token) : Token :=
  {| tok_type := tok_type t; tok_tag := tok_tag t; tok_nesting := tok_nesting t;
     tok_level := tok_level t; tok_map := tok_map t; tok_attrs := tok_attrs t;
     tok_content := tok_content t; tok_markup := tok_markup t;
     tok_hidden := tok_hidden t; tok_markForDeletion := true |}.

(** The host's [token.attrSet(name, value)]: replace or append. *)
Fixpoint attrSetList (name value : string) (a : list (string * string))
    : list (string * string) :=
  match a with
  | [] => [(name, value)]
  | (n, v) :: a' =>
      if String.eqb n name then (n, value) :: a'
      else (n, v) :: attrSetList name value a'
  end.

Definition attrSet (name value : string) (t : Token) : Token :=
  withAttrs (attrSetList name value (tok_attrs t)) t.

(** The host's [token.attrJoin(name, value)]: join with a blank or append. *)
Fixpoint attrJoinList (name value : string) (a : list (string * string))
    : list (string * string) :=
  match a with
  | [] => [(name, value)]
  | (n, v) :: a' =>
      if String.eqb n name then (n, v +:+ " " +:+ value) :: a'
      else (n, v) :: attrJoinList name value a'
  end.

Definition attrJoin (name value : string) (t : Token) : Token :=
  withAttrs (attrJoinList name value (tok_attrs t)) t.

(** A write through a token reference. *)
Definition modToken (ref : nat) (f : Token → Token) (state : StateBlock)
    : StateBlock :=
  setTokens (alter f ref (tokens state)) state.

(** [values.join(' ')] *)
Fixpoint joinBlank (values : list string) : string :=
  match values with
  | [] => ""
  | [v] => v
  | v :: vs => v +:+ " " +:+ joinBlank vs
  end.

(** The characters [String.prototype.trim] strips. *)
Definition isTrimChar (c : Z) : bool :=
  bool_decide (c ∈ [9; 10; 11; 12; 13; 32; 160; 5760; 8232; 8233; 8239; 8287;
                    12288; 65279])
  || ((8192 <=? c) && (c <=? 8202)).

Fixpoint trimStart (s : list Z) : list Z :=
  match s with
  | c :: s' => if isTrimChar c then trimStart s' else s
  | [] => []
  end.

Definition trim (s : list Z) : list Z := reverse (trimStart (reverse (trimStart s))).

(** The host's [state.skipSpaces(pos)]. *)
Fixpoint skipSpacesLoop (fuel : nat) (text : list Z) (pos : Z) : Z :=
  match fuel with
  | O => pos
  | S fuel' =>
      if (pos <? len text)
         && (codeIs (charCodeAt text pos) 0x20 || codeIs (charCodeAt text pos) 0x09)
      then skipSpacesLoop fuel' text (pos + 1)
      else pos
  end.

Definition skipSpaces (state : StateBlock) (pos : num) : num :=
  (λ p, skipSpacesLoop (length (src state)) (src state) p) <$> pos.

(** ** Span resolver *)

Definition COLSPAN_SYMBOL : list Z := codes ">".
Definition ROWSPAN_SYMBOL : list Z := codes "^".

(** [contentMap[i][j]]; [None] is [undefined]. *)
Definition contentAt (contentMap : list (list (list Z))) (i j : nat)
    : option (list Z) :=
  row ← contentMap !! i; row !! j.

(** [tokenMap[i][j]], about to be used as an object. *)
Definition tokenAt (tokenMap : list (list nat)) (i j : nat) : Res nat :=
  orThrow (row ← tokenMap !! i; row !! j).

(** [content === symbol] *)
Definition isSymbol (content : option (list Z)) (symbol : list Z) : bool :=
  match content with Some c => bool_decide (c = symbol) | None => false end.

(** "traverse columns backwards": [for (let col = j - 1; col >= 0; col--)];
    the argument [col] is one above the next column examined. *)
Fixpoint colspanBack (contentMap : list (list (list Z))) (tokenMap : list (list nat))
    (i col : nat) (colspanFactor : Z) (tokens : list Token) : Res (list Token) :=
  match col with
  | O => Ret tokens
  | S col =>
      if isSymbol (contentAt contentMap i col) COLSPAN_SYMBOL then
        ref ←r tokenAt tokenMap i col;
        colspanBack contentMap tokenMap i col (colspanFactor + 1)
          (alter withMark ref tokens)
      else if isSymbol (contentAt contentMap i col) ROWSPAN_SYMBOL then Ret tokens
      else
        ref ←r tokenAt tokenMap i col;
        Ret (alter (attrSet "colspan" (pretty colspanFactor)) ref tokens)
  end.

(** "traverse rows upward": [for (let row = i - 1; row >= 0; row--)]. *)
Fixpoint rowspanUp (contentMap : list (list (list Z))) (tokenMap : list (list nat))
    (row j : nat) (rowSpanFactor : Z) (tokens : list Token) : Res (list Token) :=
  match row with
  | O => Ret tokens
  | S row =>
      if isSymbol (contentAt contentMap row j) ROWSPAN_SYMBOL then
        ref ←r tokenAt tokenMap row j;
        rowspanUp contentMap tokenMap row j (rowSpanFactor + 1)
          (alter withMark ref tokens)
      else if isSymbol (contentAt contentMap row j) COLSPAN_SYMBOL then Ret tokens
      else
        ref ←r tokenAt tokenMap row j;
        Ret (alter (attrSet "rowspan" (pretty rowSpanFactor)) ref tokens)
  end.

(** The body of the inner loop of [applySpans] at [(i, j)]. *)
Definition applySpansAt (contentMap : list (list (list Z)))
    (tokenMap : list (list nat)) (i j : nat) (tokens : list Token)
    : Res (list Token) :=
  if isSymbol (contentAt contentMap i j) COLSPAN_SYMBOL && (j =? 0)%nat
  then Ret tokens
  else
    tokens ←r
      (if isSymbol (contentAt contentMap i j) COLSPAN_SYMBOL then
         ref ←r tokenAt tokenMap i j;
         colspanBack contentMap tokenMap i j 2 (alter withMark ref tokens)
       else Ret tokens);
    if isSymbol (contentAt contentMap i j) ROWSPAN_SYMBOL then
      if (i =? 0)%nat then Ret tokens
      else
        ref ←r tokenAt tokenMap i j;
        rowspanUp contentMap tokenMap i j 2 (alter withMark ref tokens)
    else Ret tokens.

(** A [for] loop over the indices [ks] whose body may throw. *)
Fixpoint forRes {K A : Type} (ks : list K) (body : K → A → Res A) (a : A)
    : Res A :=
  match ks with
  | [] => Ret a
  | k :: ks' => a' ←r body k a; forRes ks' body a'
  end.

(** The coordinates [applySpans] visits, in order: all rows, and the
    columns of row [0]. *)
Definition visited (contentMap : list (list (list Z))) : list (nat * nat) :=
  i ← seq 0 (length contentMap);
  j ← seq 0 (length (default [] (contentMap !! 0%nat)));
  [(i, j)].

Definition applySpans (contentMap : list (list (list Z)))
    (tokenMap : list (list nat)) (tokens : list Token) : Res (list Token) :=
  forRes (seq 0 (length contentMap))
    (λ i, forRes (seq 0 (length (default [] (contentMap !! 0%nat))))
            (λ j, applySpansAt contentMap tokenMap i j))
    tokens.

(** ** Tree compactor *)

(** "find matching td_close with the same level", from index [j] on. *)
Fixpoint findTdClose (lvl : Z) (rest : list Token) (j : nat) : option nat :=
  match rest with
  | [] => None
  | t :: rest' =>
      if String.eqb (tok_type t) "yfm_td_close" && (tok_level t =? lvl)
      then Some j
      else findTdClose lvl rest' (S j)
  end.

(** The first loop of [clearTokens] from index [i] on, [rest] being the
    tokens from [i]; a splice is its start and, when found, its end. *)
Fixpoint collectSplices (rest : list Token) (i : nat)
    (splices : list (nat * option nat)) : list (nat * option nat) :=
  match rest with
  | [] => splices
  | t :: rest' =>
      let splices :=
        if tok_markForDeletion t
        then (i, findTdClose (tok_level t) rest' (S i)) :: splices
        else splices in
      collectSplices rest' (S i) splices
  end.

(** [tokens.splice(start, count)] *)
Definition splice (tokens : list Token) (start count : nat) : list Token :=
  take start tokens ++ drop (start + count) tokens.

(** The body of [splices.forEach]; [start && end] is false for index [0]
    and for a missing end. *)
Definition applySplice (tokens : list Token) (sp : nat * option nat)
    : list Token :=
  match sp with
  | (start, Some end_) =>
      if negb (start =? 0)%nat && negb (end_ =? 0)%nat
      then splice tokens start (end_ - start + 1)
      else tokens
  | (_, None) => tokens
  end.

Definition clearTokens (tableStart : nat) (tokens : list Token) : list Token :=
  foldl applySplice tokens (collectSplices (drop tableStart tokens) tableStart []).

(** ** Tree builder and the block rule

    The host's recursive block tokenizer, the attribute-string parser and
    the class extraction it feeds are external: the rule is stated for any
    of them. *)

Section Rule.

(** [state.md.block.tokenize(state, startLine, endLine)] *)
Variable tokenize : StateBlock → Z → Z → StateBlock.
(** [new AttrsParser().parse(text)], as its entries in order. *)
Variable parseAttrs : list Z → list (string * list string).
(** For a token content that ends in an attribute block carrying a class:
    the class, and the content with the class taken out of the block. *)
Variable extractClass : list Z → option (string * list Z).

Definition extractAttributes (state : StateBlock) (pos : num)
    : list (string * list string) :=
  let attrsStringStart := skipSpaces state pos in
  let attrsString := slice_from (src state) (toInteger attrsStringStart) in
  parseAttrs attrsString.

Definition extractAndApplyClassFromToken (contentToken tdOpenToken : nat)
    (state : StateBlock) : Res StateBlock :=
  ct ←r orThrow (tokens state !! contentToken);
  match extractClass (tok_content ct) with
  | None => Ret state
  | Some (attrsClass, content) =>
      Ret (modToken contentToken (withContent content)
             (modToken tdOpenToken (attrSet "class" attrsClass) state))
  end.

(** One round of the loop over [cols]: returns the state, the reference
    of the cell's open token and the cell's content. *)
Definition buildCell (state : StateBlock) (cell : CellSpan)
    : Res (StateBlock * nat * list Z) :=
  let '(begin, end_) := cell in
  let '(state, token) := push state "yfm_td_open" "td" 1 in
  let state := modToken token (withMap (line begin, line end_)) state in

  let oldTshift := tShift state !! line begin in
  let oldEMark := eMarks state !! line end_ in
  let oldBMark := bMarks state !! line begin in
  let oldLineMax := lineMax state in

  let state := setTShift (line begin) (Some 0) state in
  let state := setBMark (line begin) (pos begin) state in
  let state := setEMark (line end_) (pos end_) state in
  let state := setLineMax (line end_ + 1) state in

  let state := tokenize state (line begin) (line end_ + 1) in
  if (length (tokens state) <? 2)%nat then TypeError
  else
  let contentRef := (length (tokens state) - 2)%nat in
  contentToken ←r orThrow (tokens state !! contentRef);
  let content :=
    if (length (trim (tok_content contentToken)) =? 0)%nat
    then trim (tok_markup contentToken)
    else trim (tok_content contentToken) in

  let '(state, _) := push state "yfm_td_close" "td" (-1) in
  let state :=
    modToken (length (tokens state) - 1) (withMap (line end_, line end_ + 1))
      state in

  let state := setLineMax oldLineMax state in
  let state := setTShift (line begin) oldTshift state in
  let state := setBMark (line begin) oldBMark state in
  let state := setEMark (line end_) oldEMark state in

  state ←r extractAndApplyClassFromToken contentRef token state;
  Ret (state, token, content).

(** The loop over [cols] of one row; [cells] and [contents] are
    [cellsMap[i]] and [contentMap[i]]. *)
Fixpoint buildCells (state : StateBlock) (cols : list CellSpan)
    (cells : list nat) (contents : list (list Z))
    : Res (StateBlock * list nat * list (list Z)) :=
  match cols with
  | [] => Ret (state, cells, contents)
  | cell :: cols' =>
      r ←r buildCell state cell;
      let '(state, token, content) := r in
      buildCells state cols' (cells ++ [token]) (contents ++ [content])
  end.

(** The padding loop: [emptyCellsCount] empty cell pairs. *)
Fixpoint padCells (emptyCellsCount : nat) (state : StateBlock) : StateBlock :=
  match emptyCellsCount with
  | O => state
  | S k =>
      let '(state, _) := push state "yfm_td_open" "td" 1 in
      let '(state, _) := push state "yfm_td_close" "td" (-1) in
      padCells k state
  end.

(** The loop over [rows]. *)
Fixpoint buildRows (maxRowLength : Z) (state : StateBlock) (rws : list Row)
    (cellsMap : list (list nat)) (contentMap : list (list (list Z)))
    : Res (StateBlock * list (list nat) * list (list (list Z))) :=
  match rws with
  | [] => Ret (state, cellsMap, contentMap)
  | (rowLineStarts, rowLineEnds, cols) :: rws' =>
      let rowLength := Z.of_nat (length cols) in
      let '(state, token) := push state "yfm_tr_open" "tr" 1 in
      let state := modToken token (withMap (rowLineStarts, rowLineEnds)) state in
      r ←r buildCells state cols [] [];
      let '(state, cells, contents) := r in
      let state :=
        if rowLength <? maxRowLength
        then padCells (Z.to_nat (maxRowLength - rowLength)) state
        else state in
      let '(state, _) := push state "yfm_tr_close" "tr" (-1) in
      buildRows maxRowLength state rws' (cellsMap ++ [cells])
        (contentMap ++ [contents])
  end.

(** [Math.max(...rows.map(([, , cols]) => cols.length))]; without rows
    the value ([-Infinity]) is never looked at. *)
Definition maxRowLengthOf (rws : list Row) : Z :=
  foldr Z.max 0 ((λ r : Row, Z.of_nat (length r.2)) <$> rws).

(** The table's open token takes the parsed attributes: every key but
    [attr] joined with its values, then every bare flag under [attr]. *)
Definition applyAttrs (attrs : list (string * list string)) (t : Token) : Token :=
  let fullAttrs := filter (λ kv, kv.1 ≠ "attr") attrs in
  let singleKeyAttrs := default [] (snd <$> head (filter (λ kv, kv.1 = "attr") attrs)) in
  let t := foldl (λ t kv, attrJoin kv.1 (joinBlank kv.2) t) t fullAttrs in
  foldl (λ t attr, attrJoin attr "true" t) t singleKeyAttrs.

(** The block rule registered by [yfmTable]; the boolean is its result. *)
Definition yfmTable (opts : YfmTablePluginOptions) (state : StateBlock)
    (startLine endLine : Z) (silent : bool) : Res (StateBlock * bool) :=
  let startPosition := nplus (bMarks state !! startLine) (tShift state !! startLine) in
  let endPosition := eMarks state !! endLine in
  if nlt (nplus endPosition (Z.opp <$> startPosition)) (Some 2)
  then Ret (state, false)
  else if negb (isOpenTableOrder (src state) startPosition)
  then Ret (state, false)
  else if silent then Ret (state, true)
  else
  match getTableRowPositions state startPosition endPosition startLine opts with
  | None => Unfinished
  | Some {| rp_rows := rws; rp_endOfTable := endOfTable; rp_pos := pos |} =>
  let attrs := extractAttributes state pos in
  match (if truthy endOfTable then endOfTable else None) with
  | None =>
      let '(state, token) := push state "__yfm_lint" "" 0 in
      let state := modToken token (withHidden true) state in
      let state := modToken token (withMap (startLine, endLine)) state in
      let state := modToken token (attrSet "YFM004" "true") state in
      Ret (state, false)
  | Some endOfTable =>
      let oldParentLineMax := lineMax state in

      let state := setLineMax endOfTable state in
      let state := setStateLine startLine state in

      let tableStart := length (tokens state) in
      let '(state, token) := push state "yfm_table_open" "table" 1 in
      let state := modToken token (applyAttrs attrs) state in
      let state := modToken token (withMap (startLine, endOfTable)) state in

      let '(state, token) := push state "yfm_tbody_open" "tbody" 1 in
      let state := modToken token (withMap (startLine + 1, endOfTable - 1)) state in

      let maxRowLength := maxRowLengthOf rws in
      r ←r buildRows maxRowLength state rws [] [];
      let '(state, cellsMap, contentMap) := r in

      ts ←r applySpans contentMap cellsMap (tokens state);
      let state := setTokens (clearTokens tableStart ts) state in

      let '(state, _) := push state "yfm_tbody_close" "tbody" (-1) in
      let '(state, _) := push state "yfm_table_close" "table" (-1) in
      let state :=
        modToken (length (tokens state) - 1) (withMap (endOfTable, endOfTable + 1))
          state in

      let state := setLineMax oldParentLineMax state in
      let state := setStateLine endOfTable state in
      Ret (state, true)
  end
  end.

End Rule.

(** ** Notions of the specification *)

(** A closing dollar sign is accepted: within the line, not preceded by a
    blank and not followed by a digit. *)
Definition acceptedMathCloser (src : list Z) (max : num) (m : Z) : bool :=
  negb (ngt (Some m) max)
  && negb (codeIs (charCodeAt src (m - 1)) 0x20 || codeIs (charCodeAt src (m - 1)) 0x09)
  && negb (nle (Some 0x30) (nextCharWithin src m max)
           && nle (nextCharWithin src m max) (Some 0x39)).

(** A closing dollar sign as the specification words it: an unescaped
    dollar sign that is accepted. *)
Definition validMathCloser (src : list Z) (max : num) (m : Z) : bool :=
  codeIs (charCodeAt src m) dollarChar
  && negb (isEscaped src (Some m))
  && acceptedMathCloser src max m.

(** [m] is the first unescaped dollar sign at or after [from]. *)
Definition firstUnescapedDollar (src : list Z) (from m : Z) : Prop :=
  from <= m
  ∧ charCodeAt src m = Some dollarChar
  ∧ isEscaped src (Some m) = false
  ∧ ∀ k, from <= k < m → charCodeAt src k = Some dollarChar →
         isEscaped src (Some k) = true.

(** The measure that bounds the scan loop: the lines of the line table
    still ahead of the cursor, each worth a full run up to [endPosition],
    plus the room left on the current run. *)
Definition linesAfter (state : StateBlock) (l : Z) : nat :=
  size (filter (λ k, l < k) (dom (bMarks state))).

Definition roomLeft (E : Z) (p : num) : nat :=
  match p with
  | Some p => Z.to_nat (Z.min (E + 1) (E + 1 - p))
  | None => 0
  end.

Definition scanMeasure (state : StateBlock) (E : Z) (it : StateIterator) : nat :=
  linesAfter state (_line it) * Z.to_nat (E + 2) + roomLeft E (_pos it).

(** What the outer scan records about rows and cells. *)
Definition rowData (s : Scan)
    : list Row * list CellSpan * option Stats * num * gmap Z bool :=
  (rows s, currentRow s, colStart s, rowStart s, rowMap s).

(** [nestedRun state opts s s']: [s'] is reached from [s] by rounds of the
    scan loop that all start inside a nested table. *)
Inductive nestedRun (state : StateBlock) (opts : YfmTablePluginOptions)
    : Scan → Scan → Prop :=
  | nestedRun_refl (s : Scan) : nestedRun state opts s s
  | nestedRun_step (s s' s'' : Scan) (b : bool) :
      0 < tableLevel s →
      scanBody state opts s = (s', b) →
      nestedRun state opts s' s'' →
      nestedRun state opts s s''.

(** The matching close fence of a table body when every fence in the
    text counts: reading on from [p] at nesting depth [depth], every [#|]
    opens a level and every [|#] closes one; the [|#] met at depth [0] is
    the match. *)
Fixpoint matchingClose (fuel : nat) (src : list Z) (depth p : Z) : option Z :=
  match fuel with
  | O => None
  | S fuel' =>
      if isOpenTableOrder src (Some p)
      then matchingClose fuel' src (depth + 1) (p + 2)
      else if isCloseTableOrder src (Some p)
      then if depth =? 0 then Some p
           else matchingClose fuel' src (depth - 1) (p + 2)
      else if p <? len src then matchingClose fuel' src depth (p + 1)
      else None
  end.

(** Counted on the text alone, the fences after the opening fence at
    [startPosition] are balanced, with the matching top-level close fence
    at [c]. *)
Definition balancedFences (src : list Z) (startPosition c : Z) : Prop :=
  matchingClose (S (length src)) src 0 (startPosition + 2) = Some c.

(** [order] occurs nowhere in [src]. *)
Definition absent (order : list Z) (src : list Z) : bool :=
  forallb (λ p, negb (checkCharsOrder order src (Some p))) (seqZ 0 (len src)).

(** A character that can start something the scan looks for: a fence, a
    row or cell marker, a code or math marker, a template variable. *)
Definition isMarkerChar (code : num) : bool :=
  codeIs code hashChar || codeIs code pipeChar || codeIs code apostropheChar
  || codeIs code dollarChar || codeIs code curlyBraceOpen
  || codeIs code curlyBraceClose.

(** Line [l] and the next one are in the line table, the next line's
    content starts after the end of [l] and does not pass its own end, and
    what the cursor leaps over (the end of [l] and the indentation of the
    next line) holds no marker character. *)
Definition lineGapOk (state : StateBlock) (l : Z) : bool :=
  match eMarks state !! l, bMarks state !! (l + 1), tShift state !! (l + 1),
        eMarks state !! (l + 1) with
  | Some e, Some b, Some t, Some e' =>
      (e <? b + t) && (b + t <=? e')
      && forallb (λ i, negb (isMarkerChar (charCodeAt (src state) i)))
           (seqZ e (b + t - e))
  | _, _, _, _ => false
  end.

Definition linesOk (state : StateBlock) (startLine L : Z) : bool :=
  forallb (lineGapOk state) (seqZ startLine (L - startLine)).

(** The line that holds offset [p]: the first of the [n] lines from [l]
    on whose end is not before [p]. *)
Fixpoint lineFrom (state : StateBlock) (l : Z) (n : nat) (p : Z) : option Z :=
  match n with
  | O => None
  | S n' =>
      match eMarks state !! l with
      | Some e => if p <=? e then Some l else lineFrom state (l + 1) n' p
      | None => None
      end
  end.

Definition lineAt (state : StateBlock) (startLine L p : Z) : option Z :=
  lineFrom state startLine (Z.to_nat (L - startLine + 1)) p.

(** The end of the line that holds offset [p]. *)
Definition lineEndAt (state : StateBlock) (startLine L p : Z) : num :=
  l ← lineAt state startLine L p; eMarks state !! l.

(** The two characters at [c] are on line [L]: [L] is the line that holds
    [c], and [c + 2] is not past its end. *)
Definition onLine (state : StateBlock) (startLine L c : Z) : bool :=
  bool_decide (lineAt state startLine L c = Some L)
  && match eMarks state !! L with
     | Some e => c + 2 <=? e
     | None => false
     end.

(** *** The fences that count

    The specification's scan, read off the text: which fences are inert
    and which is the matching close fence.  Positions are offsets into
    the text; of the line table only the line ends are used, as the bound
    of an inline span. *)

(** Steps 1 and 2: a code fence marker toggles code mode unless math mode
    is on, a math fence marker toggles math mode unless code mode is on,
    each when its option asks for it; the marker is passed. *)
Definition fenceModes (opts : YfmTablePluginOptions) (text : list Z)
    (code math : bool) (p : Z) : bool * bool * Z :=
  let '(code, p) :=
    if negb (bool_decide (table_ignoreSplittersInBlockCode opts = Some false))
       && negb math && isCodeBlockOrder text (Some p)
    then (negb code, p + 3) else (code, p) in
  if truthyFlag (table_ignoreSplittersInBlockMath opts)
     && negb code && isMathBlockOrder text (Some p)
  then (code, negb math, p + 2) else (code, math, p).

(** Step 4: [{{] enters a template variable, [}}] leaves it. *)
Definition liquidMode (text : list Z) (liquid : bool) (p : Z) : bool * Z :=
  let '(liquid, p) :=
    if negb liquid && isLiquidVariableStart text (Some p)
    then (true, p + 2) else (liquid, p) in
  if liquid && isLiquidVariableEnd text (Some p)
  then (false, p + 2) else (liquid, p).

(** Steps 5 and 6, for the inline spans the skippers handle as the
    specification says.  An inline code span is passed when it ends
    within its line.  The steps reported for a formula lead past a doubled
    dollar sign, which is passed, and onto the closing dollar sign of any
    other formula, which is then read again: the formula is passed
    provided that dollar sign starts neither a fenced math block nor
    another formula.  Any other span is left out: nothing is said about a
    text that holds one before the matching close fence. *)
Inductive Span : Type :=
  | NoSpan
  | SpanTo (q : Z)
  | SpanLeftOut.

Definition mathCloserInert (opts : YfmTablePluginOptions) (text : list Z)
    (q : Z) (lineEnd : num) : bool :=
  negb (truthyFlag (table_ignoreSplittersInBlockMath opts)
        && isMathBlockOrder text (Some q))
  && bool_decide (skipInlineMath text (Some q) lineEnd = None).

Definition inlineSpan (opts : YfmTablePluginOptions) (text : list Z) (p : Z)
    (lineEnd : num) : Span :=
  match (if truthyFlag (table_ignoreSplittersInInlineCode opts)
         then skipInlineCode text (Some p) lineEnd else None) with
  | Some r => if nle (Some (end_ r)) lineEnd then SpanTo (end_ r) else SpanLeftOut
  | None =>
      match (if truthyFlag (table_ignoreSplittersInInlineMath opts)
             then skipInlineMath text (Some p) lineEnd else None) with
      | Some r =>
          let q := p + steps r in
          if (q =? end_ r) || mathCloserInert opts text q lineEnd
          then SpanTo q else SpanLeftOut
      | None => NoSpan
      end
  end.

(** One step of the reading: the matching close fence is found, or the
    reading goes on from a later offset, or the text is left out. *)
Inductive Walk : Type :=
  | Found (c : Z)
  | Goto (code math liquid : bool) (depth p : Z)
  | LeftOut.

(** Steps 7 to 12: the table fences, and the row marker, which is passed
    whole at depth [0]. *)
Definition markerStep (text : list Z) (code math liquid : bool) (depth p : Z)
    : Walk :=
  if isOpenTableOrder text (Some p) then Goto code math liquid (depth + 1) (p + 2)
  else if isCloseTableOrder text (Some p)
  then if depth =? 0 then Found p
       else Goto code math liquid (depth - 1) (p + 2)
  else if 0 <? depth then Goto code math liquid depth (p + 1)
  else if isRowOrder text (Some p) then Goto code math liquid depth (p + 2)
  else Goto code math liquid depth (p + 1).

Definition walkStep (state : StateBlock) (opts : YfmTablePluginOptions)
    (startLine L : Z) (code math liquid : bool) (depth p : Z) : Walk :=
  let text := src state in
  let '(code, math, p) := fenceModes opts text code math p in
  if code || math then Goto code math liquid depth (p + 1)
  else
  let '(liquid, p) := liquidMode text liquid p in
  if liquid then Goto code math liquid depth (p + 1)
  else
  match inlineSpan opts text p (lineEndAt state startLine L p) with
  | SpanTo q => Goto code math liquid depth q
  | SpanLeftOut => LeftOut
  | NoSpan => markerStep text code math liquid depth p
  end.

(** The matching close fence of a table body as the scan of the
    specification sees it: reading on from [p] in the given modes at
    nesting depth [depth], the [|#] met at depth [0] outside every inert
    region. *)
Fixpoint activeClose (fuel : nat) (state : StateBlock)
    (opts : YfmTablePluginOptions) (startLine L : Z) (code math liquid : bool)
    (depth p : Z) : option Z :=
  match fuel with
  | O => None
  | S fuel' =>
      match walkStep state opts startLine L code math liquid depth p with
      | Found c => Some c
      | Goto code math liquid depth q =>
          if q <=? len (src state)
          then activeClose fuel' state opts startLine L code math liquid depth q
          else None
      | LeftOut => None
      end
  end.

(** The fences after the opening fence at [startPosition] that are not
    inert are balanced, with the matching top-level close fence at [c]. *)
Definition activeFences (state : StateBlock) (opts : YfmTablePluginOptions)
    (startLine L startPosition c : Z) : Prop :=
  activeClose (S (length (src state))) state opts startLine L false false false 0
    (startPosition + 2)
  = Some c.

(** The cursor [it] stands at offset [p] of its line, which ends at [e]
    and is the line that holds [p]. *)
Definition cursorAt (state : StateBlock) (startLine L : Z) (it : StateIterator)
    (p e : Z) : Prop :=
  _pos it = Some p ∧ _lineEnds it = Some e
  ∧ eMarks state !! _line it = Some e
  ∧ lineAt state startLine L p = Some (_line it)
  ∧ 0 <= p <= e.

(** The state of the scan while it follows the reading: from the cursor
    on, in the modes and at the nesting level of the scan, the matching
    close fence is [c]. *)
Definition walkInv (state : StateBlock) (opts : YfmTablePluginOptions)
    (startLine L c : Z) (s : Scan) : Prop :=
  0 <= tableLevel s
  ∧ ∃ p e, cursorAt state startLine L (iter s) p e
           ∧ ∃ fuel, activeClose fuel state opts startLine L (isInsideCode s)
                       (isInsideMath s) (isInsideLiquidVariable s)
                       (tableLevel s) p
                     = Some c.

(** ** Example documents *)

(** A table whose only row holds a nested table with a row of its own. *)
Definition nestedDoc : StateBlock :=
  hostState (joinLines ["#|"; "|| outer"; "#| || inner | x || |#"; "||"; "|#"]).

(** The scan of [nestedDoc] when the cursor stands on the row marker of the
    nested table, at offset 15 of line 2. *)
Definition nestedScan : Scan :=
  {| iter := {| _pos := Some 15; _line := 2; _lineEnds := Some 33 |};
     endOfTable := None; tableLevel := 1; currentRow := [];
     colStart := Some {| line := 1; pos := Some 5 |}; rowStart := Some 1;
     rows := []; isInsideCode := false; isInsideMath := false;
     isInsideLiquidVariable := false; rowMap := {[ 0 := true ]} |}.

(** The scan after [n] rounds of its loop. *)
Fixpoint rounds (n : nat) (state : StateBlock) (opts : YfmTablePluginOptions)
    (s : Scan) : Scan :=
  match n with
  | O => s
  | S n' => rounds n' state opts (scanBody state opts s).1
  end.

(** A table at the very start of a document with its row on the line of
    the opening fence, and the same table one line further down. *)
Definition firstLineDoc : StateBlock :=
  hostState (joinLines ["#| || a | b ||"; "|#"]).
Definition secondLineDoc : StateBlock :=
  hostState (joinLines [""; "#| || a | b ||"; "|#"]).

(** A balanced table whose row holds an unclosed code fence marker. *)
Definition codeFenceDoc : StateBlock :=
  hostState (joinLines ["#|"; "|| ``` ||"; "|#"]).

(** All four options switched on. *)
Definition allOnOpts : YfmTablePluginOptions :=
  {| table_ignoreSplittersInBlockCode := Some true;
     table_ignoreSplittersInBlockMath := Some true;
     table_ignoreSplittersInInlineCode := Some true;
     table_ignoreSplittersInInlineMath := Some true |}.

(** A table whose row holds a close fence inside an inline code span,
    inside an inline formula, inside a template variable, inside a fenced
    code block and inside a fenced math block, then a nested table; a
    code fence and one more close fence follow the table. *)
Definition inertDoc : StateBlock :=
  hostState
    (joinLines ["#|"; "|| `a|#b` | $x|#y$ | {{ v |# }} |"; "```"; "|# ||"; "```";
                "$$"; "|# ||"; "$$"; "  #| || n || |#"; "||"; "|#"; "```";
                "tail |#"]).

(** The diagnostic marker of an unterminated table. *)
Definition lintToken (lvl startLine endLine : Z) : Token :=
  {| tok_type := "__yfm_lint"; tok_tag := ""; tok_nesting := 0; tok_level := lvl;
     tok_map := Some (startLine, endLine); tok_attrs := [("YFM004", "true")];
     tok_content := []; tok_markup := []; tok_hidden := true;
     tok_markForDeletion := false |}.

(** A stand-in for the host in the examples: every cell becomes one
    paragraph whose inline token holds the text of the cell's lines; no
    attributes are parsed. *)
Definition plainTokenizer (state : StateBlock) (startLine endLine : Z) : StateBlock :=
  let content :=
    match nplus (bMarks state !! startLine) (tShift state !! startLine),
          eMarks state !! (endLine - 1) with
    | Some b, Some e => slice (src state) b e
    | _, _ => []
    end in
  let '(state, _) := push state "paragraph_open" "p" 1 in
  let '(state, token) := push state "inline" "" 0 in
  let state := modToken token (withContent content) state in
  let '(state, _) := push state "paragraph_close" "p" (-1) in
  state.

Definition noAttrs (text : list Z) : list (string * list string) := [].
Definition noClass (content : list Z) : option (string * list Z) := None.

(** A table that is opened and never closed. *)
Definition unterminatedDoc : StateBlock :=
  hostState (joinLines ["#|"; "|| a | b ||"]).

(** The host tokenizer leaves the text and the three line arrays as it
    found them. *)
Definition tokenizerFrame (tokenize : StateBlock → Z → Z → StateBlock) : Prop :=
  ∀ st a b,
    src (tokenize st a b) = src st
    ∧ tShift (tokenize st a b) = tShift st
    ∧ bMarks (tokenize st a b) = bMarks st
    ∧ eMarks (tokenize st a b) = eMarks st.

(** A table whose first row is shorter than its second, which ends in a
    colspan sentinel; the same table with a full first row; and a table with
    a short middle row under a rowspan sentinel. *)
Definition raggedDoc : StateBlock :=
  hostState (joinLines ["#|"; "|| a ||"; "|| b | > ||"; "|#"]).
Definition squareDoc : StateBlock :=
  hostState (joinLines ["#|"; "|| a | c ||"; "|| b | > ||"; "|#"]).
Definition shortMiddleDoc : StateBlock :=
  hostState (joinLines ["#|"; "|| a | b ||"; "|| c ||"; "|| d | ^ ||"; "|#"]).

(** The rule on an example document, with the stand-in host: the types and
    attributes of the emitted tokens, and the rule's result. *)
Definition runExample (doc : StateBlock)
    : Res (list (string * list (string * string)) * bool) :=
  r ←r yfmTable plainTokenizer noAttrs noClass defaultOpts doc 0 (lineMax doc) false;
  Ret ((λ t, (tok_type t, tok_attrs t)) <$> tokens r.1, r.2).

(** The cells of the first row of [squareDoc]-like tables, as scanned. *)
Definition exampleCell : CellSpan :=
  ({| line := 1; pos := Some 5 |}, {| line := 1; pos := Some 8 |}).

(** ** Notions for the compactor *)

(** [tokens[i].meta?.markForDeletion] *)
Definition marked (tokens : list Token) (i : nat) : bool :=
  default false (tok_markForDeletion <$> tokens !! i).

(** A close element of a cell at nesting depth [lvl]. *)
Definition isCloseAt (lvl : Z) (t : Token) : Prop :=
  tok_type t = "yfm_td_close" ∧ tok_level t = lvl.

#[global] Instance isCloseAt_dec (lvl : Z) (t : Token) : Decision (isCloseAt lvl t).
Proof. unfold isCloseAt. apply _. Defined.

(** The matching close of the element at [i]: the index of the first
    element after [i] that is a cell's close element at the nesting depth
    of the element at [i]; none when no element after [i] is one. *)
Definition closeOf (tokens : list Token) (i : nat) : option nat :=
  t ← tokens !! i;
  (λ r : nat * Token, (S i + r.1)%nat)
    <$> list_find (isCloseAt (tok_level t)) (drop (S i) tokens).

(** Index [k] lies between a marked cell (from [tableStart] on) and its
    matching close, ends included. *)
Definition removedAt (tableStart : nat) (tokens : list Token) (k : nat) : bool :=
  existsb
    (λ i, marked tokens i
          && match closeOf tokens i with
             | Some j => (i <=? k)%nat && (k <=? j)%nat
             | None => false
             end)
    (seq tableStart (length tokens - tableStart)).

(** The elements of [l] whose index, counted from [i], is kept. *)
Fixpoint filterIdx {A : Type} (keep : nat → bool) (i : nat) (l : list A) : list A :=
  match l with
  | [] => []
  | x :: l' =>
      if keep i then x :: filterIdx keep (S i) l' else filterIdx keep (S i) l'
  end.

(** No marked cell stands between another marked cell and its close. *)
Definition noMarkedInside (tableStart : nat) (tokens : list Token) : bool :=
  forallb
    (λ i, negb (marked tokens i)
          || match closeOf tokens i with
             | Some j => forallb (λ k, negb (marked tokens k)) (seq (S i) (j - i))
             | None => true
             end)
    (seq tableStart (length tokens - tableStart)).

(** The token at index [0] is not a marked cell of this table. *)
Definition firstKept (tableStart : nat) (tokens : list Token) : bool :=
  (0 <? tableStart)%nat || negb (marked tokens 0).

(** The splices of [collectSplices] in the order of the scan. *)
Fixpoint spliceItems (rest : list Token) (i : nat) : list (nat * option nat) :=
  match rest with
  | [] => []
  | t :: rest' =>
      (if tok_markForDeletion t
       then [(i, findTdClose (tok_level t) rest' (S i))] else [])
      ++ spliceItems rest' (S i)
  end.

(** A row of three cells after the span resolver: the second cell is
    marked and complete, the third is marked and has lost its close. *)
Definition compactExample : list Token :=
  [ newToken "yfm_tr_open" "tr" 1 2;
    newToken "yfm_td_open" "td" 1 3;
    newToken "inline" "" 0 4;
    newToken "yfm_td_close" "td" (-1) 3;
    withMark (newToken "yfm_td_open" "td" 1 3);
    newToken "inline" "" 0 4;
    newToken "yfm_td_close" "td" (-1) 3;
    withMark (newToken "yfm_td_open" "td" 1 3);
    newToken "inline" "" 0 4;
    newToken "yfm_tr_close" "tr" (-1) 2 ].

(** A table whose first cell holds a backtick on its first line and the
    next backtick on its second line, scanned with the inline code skip on. *)
Definition inlineCodeOpts : YfmTablePluginOptions :=
  {| table_ignoreSplittersInBlockCode := None;
     table_ignoreSplittersInBlockMath := None;
     table_ignoreSplittersInInlineCode := Some true;
     table_ignoreSplittersInInlineMath := None |}.

Definition crossLineDoc : StateBlock :=
  hostState (joinLines ["#|"; "|| `a | x"; "b` | c ||"; "|#"]).

(** ** What the scan records, round by round

    A recorded cell begins on or before the line it ends on, and a
    recorded row starts on a line other than [0], on or after the first
    line of the scan, ends on or after the line it starts on, has a cell,
    and holds no cell that ends after the row does. *)
Definition spanShape (e : Z) (c : CellSpan) : Prop :=
  line c.1 <= line c.2 ∧ line c.2 <= e.

Definition rowShape (first : Z) (r : Row) : Prop :=
  first <= r.1.1 ∧ r.1.1 ≠ 0 ∧ r.1.1 <= r.1.2 ∧ r.2 ≠ []
  ∧ Forall (spanShape r.1.2) r.2.

(** The same about a scan in progress whose cursor is on line [l]. *)
Definition recordsOk (first : Z) (s : Scan) : Prop :=
  let l := _line (iter s) in
  first <= l
  ∧ Forall (λ r, rowShape first r ∧ r.1.2 <= l) (rows s)
  ∧ Forall (spanShape l) (currentRow s)
  ∧ (∀ c, colStart s = Some c → line c <= l)
  ∧ (∀ r, rowStart s = Some r → first <= r <= l).

(** The end of the table, once set, is two lines below a line that no
    recorded row ends after. *)
Definition endOk (first : Z) (s : Scan) : Prop :=
  match endOfTable s with
  | Some e => first + 2 <= e ∧ Forall (λ r : Row, r.1.2 + 2 <= e) (rows s)
  | None => True
  end.

(** A table whose rows hold cells that span lines. *)
Definition multiLineDoc : StateBlock :=
  hostState (joinLines ["#|"; "||"; "a"; "|"; "b"; "||"; "|| c | d ||"; "|#"]).

(** A cursor on a line that has no end mark in the line table. *)
Definition danglingLine : StateIterator :=
  {| _pos := Some 3; _line := 7; _lineEnds := None |}.

(** The host tokenizer leaves the nesting level as it found it, and it
    only appends to the token stream. *)
Definition tokenizerLevel (tokenize : StateBlock → Z → Z → StateBlock) : Prop :=
  ∀ st a b, level (tokenize st a b) = level st.

Definition tokenizerAppends (tokenize : StateBlock → Z → Z → StateBlock) : Prop :=
  ∀ st a b, ∃ new, tokens (tokenize st a b) = tokens st ++ new.

(** A host state that already holds a token, at nesting level [3]. *)
Definition busyDoc : StateBlock :=
  setLevel 3
    (setTokens [newToken "paragraph_open" "p" 1 0]
       (hostState (joinLines ["#|"; "|| a | > ||"; "|| b | c ||"; "|#"]))).

(** ** Notions for the span resolver *)

(** The host's [token.attrGet(name)]. *)
Fixpoint attrGet (name : string) (a : list (string * string)) : option string :=
  match a with
  | [] => None
  | (n, v) :: a' => if String.eqb n name then Some v else attrGet name a'
  end.

(** [t'] is [t] up to what the span resolver writes: a mark for deletion
    that is set, and the two span attributes. *)
Definition spanEdit (t t' : Token) : Prop :=
  tok_type t' = tok_type t ∧ tok_tag t' = tok_tag t
  ∧ tok_nesting t' = tok_nesting t ∧ tok_level t' = tok_level t
  ∧ tok_map t' = tok_map t ∧ tok_content t' = tok_content t
  ∧ tok_markup t' = tok_markup t ∧ tok_hidden t' = tok_hidden t
  ∧ (tok_markForDeletion t = true → tok_markForDeletion t' = true)
  ∧ ∀ name, name ≠ "colspan" → name ≠ "rowspan" →
      attrGet name (tok_attrs t') = attrGet name (tok_attrs t).

(** The token map has the shape of the content map, and no row of the
    content map is shorter than the first. *)
Definition mapsAgree (contentMap : list (list (list Z)))
    (tokenMap : list (list nat)) : bool :=
  bool_decide (length <$> tokenMap = length <$> contentMap).

Definition rowsFull (contentMap : list (list (list Z))) : bool :=
  forallb (λ row, (length (default [] (contentMap !! 0%nat)) <=? length row)%nat)
    contentMap.

(** A table of two rows and two columns with both sentinels, the
    references of its cells and a token list that holds the cells. *)
Definition spanContent : list (list (list Z)) :=
  [[codes "a"; codes ">"]; [codes "^"; codes "b"]].
Definition spanRefs : list (list nat) := [[0; 1]; [2; 3]]%nat.
Definition spanTokens : list Token :=
  [ withAttrs [("class", "x")] (newToken "yfm_td_open" "td" 1 3);
    newToken "yfm_td_open" "td" 1 3;
    newToken "yfm_td_open" "td" 1 3;
    newToken "yfm_td_open" "td" 1 3 ].

(** A line with an inline code span and an inline formula, each holding a
    pipe, and cursors on their opening characters. *)
Definition inlineDoc : StateBlock :=
  hostState (joinLines ["#|"; "|| `a|b` | $x|y$ ||"; "|#"]).
Definition atBacktick : StateIterator := newStateIterator inlineDoc (Some 6) 1.
Definition atDollar : StateIterator := newStateIterator inlineDoc (Some 14) 1.

(** The references [rs] all marked for deletion. *)
Definition markAll (rs : list nat) (tokens : list Token) : list Token :=
  foldr (λ r, alter withMark r) tokens rs.

(** No row has fewer cells than the first. *)
Definition fullLengths (ls : list nat) : bool :=
  forallb (λ n, (default 0 (ls !! 0) <=? n)%nat) ls.

Definition rowsAtLeastFirst (rws : list Row) : bool :=
  fullLengths ((λ r : Row, length r.2) <$> rws).

(** ** Notions for the compactor inside the rule *)

(** The host tokenizer only appends tokens, and none of those it appends
    is marked for deletion.  The mark is the rule's own, and on such a
    host the rule leaves none behind, so that a nested table does not
    break the assumption. *)
Definition tokenizerUnmarked (tokenize : StateBlock → Z → Z → StateBlock) : Prop :=
  ∀ st a b, ∃ new,
    tokens (tokenize st a b) = tokens st ++ new
    ∧ Forall (λ t, tok_markForDeletion t = false) new.

(** The state in which [yfmTable] enters its loop over the rows: the
    table's and the body's open tokens have been pushed. *)
Definition tableHead (state : StateBlock) (startLine endOfTable : Z)
    (attrs : list (string * list string)) : StateBlock :=
  let state := setLineMax endOfTable state in
  let state := setStateLine startLine state in
  let '(state, token) := push state "yfm_table_open" "table" 1 in
  let state := modToken token (applyAttrs attrs) state in
  let state := modToken token (withMap (startLine, endOfTable)) state in
  let '(state, token) := push state "yfm_tbody_open" "tbody" 1 in
  modToken token (withMap (startLine + 1, endOfTable - 1)) state.

(** What the compactor reads of a token: type, depth and mark. *)
Definition shapeOf (t : Token) : string * Z * bool :=
  (tok_type t, tok_level t, tok_markForDeletion t).

(** From [tableStart] on no token is marked, and every reference of a
    cell lies after [tableStart] and has a close element at its depth
    after it, with no other reference in between. *)
Definition cellsClosed (tableStart : nat) (sh : list (string * Z * bool))
    (refs : list nat) : Prop :=
  (∀ k s, (tableStart ≤ k)%nat → sh !! k = Some s → s.2 = false)
  ∧ ∀ i, i ∈ refs →
      (tableStart < i)%nat
      ∧ ∃ c ty lvl,
          (i < c)%nat
          ∧ sh !! i = Some (ty, lvl, false)
          ∧ sh !! c = Some ("yfm_td_close", lvl, false)
          ∧ ∀ r, r ∈ refs → (r ≤ i)%nat ∨ (c < r)%nat.

(** * Properties *)

(** ** Escape parity of the detectors *)

Lemma isEscapedLoop_run (src : list Z) (fuel : nat) :
  ∀ (p m : Z),
    0 <= m <= Z.of_nat fuel →
    (∀ i, 0 <= i < m → charCodeAt src (p - i) = Some backSlashChar) →
    charCodeAt src (p - m) ≠ Some backSlashChar →
    isEscapedLoop fuel src p = p - m.
Proof.
  induction fuel as [|fuel IH]; intros p m Hm Hrun Hstop.
  - simpl. lia.
  - simpl. destruct (decide (m = 0)) as [->|Hne].
    + replace (p - 0) with p in Hstop by lia.
      destruct (charCodeAt src p) as [c|] eqn:Hc; simpl.
      * destruct (Z.eqb_spec c backSlashChar) as [->|]; [congruence | lia].
      * lia.
    + rewrite <- (Z.sub_0_r p) at 1. rewrite (Hrun 0) by lia. simpl.
      rewrite (IH (p - 1) (m - 1)); [lia | lia | |].
      * intros i Hi. replace (p - 1 - i) with (p - (i + 1)) by lia.
        apply Hrun. lia.
      * replace (p - 1 - (m - 1)) with (p - m) by lia. exact Hstop.
Qed.

Lemma charCodeAt_Some_range (src : list Z) (p c : Z) :
  charCodeAt src p = Some c → 0 <= p < len src.
Proof.
  unfold charCodeAt, len. destruct (Z.ltb_spec p 0) as [Hneg|Hpos]; [discriminate|].
  intros Hlk%lookup_lt_Some. lia.
Qed.

Lemma precededByBackslashes_bound (src : list Z) (pos n : Z) :
  precededByBackslashes src pos n → n <= Z.max pos 0.
Proof.
  intros (Hn & Hrun & _). destruct (decide (n = 0)) as [->|Hne]; [lia|].
  specialize (Hrun n ltac:(lia)). apply charCodeAt_Some_range in Hrun. lia.
Qed.

Lemma rem2_succ_odd (n : Z) : 0 <= n → (Z.rem (n + 1) 2 =? 0) = Z.odd n.
Proof.
  intros Hn. rewrite Z.rem_mod_nonneg by lia.
  replace (n + 1) with (Z.succ n) by lia.
  rewrite <- Z.even_succ. rewrite Zeven_mod. reflexivity.
Qed.

Lemma isEscapedAt_parity (src : list Z) (pos n : Z) :
  precededByBackslashes src pos n → isEscapedAt src pos = Z.odd n.
Proof.
  intros Hpre. pose proof (precededByBackslashes_bound _ _ _ Hpre) as Hb.
  destruct Hpre as (Hn & Hrun & Hstop). unfold isEscapedAt.
  rewrite (isEscapedLoop_run src _ (pos - 1) n).
  - replace (pos - (pos - 1 - n)) with (n + 1) by lia. by apply rem2_succ_odd.
  - lia.
  - intros i Hi. replace (pos - 1 - i) with (pos - (i + 1)) by lia.
    apply Hrun. lia.
  - replace (pos - 1 - n) with (pos - n - 1) by lia. exact Hstop.
Qed.

(** Every position has its count of preceding backslashes. *)
Lemma precededByBackslashes_total (src : list Z) (pos : Z) :
  ∃ n, precededByBackslashes src pos n.
Proof.
  remember (Z.to_nat pos) as k eqn:Hk. revert pos Hk.
  induction k as [|k IH]; intros pos Hk.
  - exists 0. split; [lia|]. split; [intros; lia|].
    unfold charCodeAt. destruct (Z.ltb_spec (pos - 0 - 1) 0); [done | lia].
  - destruct (decide (charCodeAt src (pos - 1) = Some backSlashChar)) as [Hc|Hc].
    + destruct (IH (pos - 1) ltac:(lia)) as (n & Hn & Hrun & Hstop).
      exists (n + 1). split; [lia|]. split.
      * intros i Hi. destruct (decide (i = 1)) as [->|]; [done|].
        replace (pos - i) with (pos - 1 - (i - 1)) by lia. apply Hrun. lia.
      * replace (pos - (n + 1) - 1) with (pos - 1 - n - 1) by lia. done.
    + exists 0. split; [lia|]. split; [intros; lia|].
      by replace (pos - 0 - 1) with (pos - 1) by lia.
Qed.

(** C1. For every source string and position, with [n] the number of
    consecutive backslashes immediately before the position: [isEscaped]
    holds exactly when [n] is odd; a row marker at the position is reported
    by [isRowOrder] exactly when [n] is even; a cell marker is reported by
    [isCellOrder] exactly when [n] is even and no row marker starts there,
    so that a pipe with an even count is always taken as a delimiter (row or
    cell) and one with an odd count never is. *)
Theorem escape_parity (src : list Z) (pos n : Z) :
  precededByBackslashes src pos n →
  isEscaped src (Some pos) = Z.odd n
  ∧ isRowOrder src (Some pos)
    = checkCharsOrder rowStartOrder src (Some pos) && Z.even n
  ∧ isCellOrder src (Some pos)
    = checkCharsOrder cellStartOrder src (Some pos) && Z.even n
      && negb (checkCharsOrder rowStartOrder src (Some pos))
  ∧ (checkCharsOrder cellStartOrder src (Some pos) = true →
     isRowOrder src (Some pos) || isCellOrder src (Some pos) = Z.even n).
Proof.
  intros Hpre. pose proof (isEscapedAt_parity _ _ _ Hpre) as He.
  unfold isCellOrder, isRowOrder, notEscaped, isEscaped. rewrite He.
  rewrite <- Z.negb_even.
  destruct (Z.even n), (checkCharsOrder rowStartOrder src (Some pos)) eqn:Hr,
    (checkCharsOrder cellStartOrder src (Some pos)) eqn:Hc; simpl; try done.
Qed.

Lemma escape_parity_witness :
  precededByBackslashes (codes "a\\|| b") 3 2
  ∧ isEscaped (codes "a\\|| b") (Some 3) = false
  ∧ isRowOrder (codes "a\\|| b") (Some 3) = true.
Proof.
  assert (Hpre : precededByBackslashes (codes "a\\|| b") 3 2).
  { split; [lia|]. split; [|done].
    intros i Hi. assert (i = 1 ∨ i = 2) as [-> | ->] by lia; reflexivity. }
  split; [exact Hpre|].
  destruct (escape_parity _ _ _ Hpre) as (He & Hr & _).
  split; [exact He | exact Hr].
Defined.

(** ** The span skippers *)

#[local] Arguments isEscaped : simpl never.
#[local] Arguments nextCharWithin : simpl never.
#[local] Arguments indexOf : simpl never.

Lemma indexOf_from_spec (c : Z) (l : list Z) (i : Z) :
  (indexOf_from c l i = -1 ∧ ∀ j : nat, l !! j ≠ Some c)
  ∨ (∃ j : nat, indexOf_from c l i = i + Z.of_nat j ∧ l !! j = Some c
       ∧ ∀ j' : nat, (j' < j)%nat → l !! j' ≠ Some c).
Proof.
  revert i. induction l as [|x l IH]; intros i.
  - left. split; [done|]. intros j. by rewrite lookup_nil.
  - simpl. destruct (Z.eqb_spec x c) as [->|Hne].
    + right. exists 0%nat. split; [lia|]. split; [done|]. lia.
    + destruct (IH (i + 1)) as [[E Hno] | (j & E & Hj & Hno)].
      * left. split; [done|]. intros [|j]; simpl; [congruence | apply Hno].
      * right. exists (S j). split; [lia|]. split; [done|].
        intros [|j'] Hlt; simpl; [congruence | apply Hno; lia].
Qed.

Lemma charCodeAt_drop (src : list Z) (k : Z) (j : nat) :
  0 <= k → drop (Z.to_nat k) src !! j = charCodeAt src (k + Z.of_nat j).
Proof.
  intros Hk. unfold charCodeAt.
  destruct (Z.ltb_spec (k + Z.of_nat j) 0); [lia|].
  rewrite lookup_drop. f_equal. lia.
Qed.

(** What [indexOf] finds: the first occurrence at or after [from]. *)
Lemma indexOf_spec (src : list Z) (c from : Z) :
  0 <= from →
  (indexOf src c from = -1 ∧ ∀ i, from <= i → charCodeAt src i ≠ Some c)
  ∨ (from <= indexOf src c from
     ∧ charCodeAt src (indexOf src c from) = Some c
     ∧ ∀ i, from <= i < indexOf src c from → charCodeAt src i ≠ Some c).
Proof.
  intros Hfrom. unfold indexOf. rewrite Z.max_l by lia.
  destruct (indexOf_from_spec c (drop (Z.to_nat from) src) from)
    as [[E Hno] | (j & E & Hj & Hno)].
  - left. split; [done|]. intros i Hi.
    specialize (Hno (Z.to_nat (i - from))). rewrite charCodeAt_drop in Hno by lia.
    by replace (from + Z.of_nat (Z.to_nat (i - from))) with i in Hno by lia.
  - right. rewrite E. split; [lia|]. split.
    + by rewrite <- charCodeAt_drop.
    + intros i Hi. specialize (Hno (Z.to_nat (i - from)) ltac:(lia)).
      rewrite charCodeAt_drop in Hno by lia.
      by replace (from + Z.of_nat (Z.to_nat (i - from))) with i in Hno by lia.
Qed.

(** C5, the failing input.  The opening backtick at offset 0 stands on a
    line that ends at offset 2 and holds no other backtick; the search for
    the closer is not bounded by the line end, finds the backtick of the
    next line at offset 4, and a span of five characters is skipped.  In a
    table this makes the cell marker after the first backtick of
    [crossLineDoc] disappear: the row is scanned as two cells, not three. *)
Theorem skipInlineCode_closer_beyond_lineEnd :
  let text := joinLines ["`a"; "b`"] in
  charCodeAt text 0 = Some apostropheChar
  ∧ (∀ i, 0 < i < 2 → charCodeAt text i ≠ Some apostropheChar)
  ∧ skipInlineCode text (Some 0) (Some 2) = Some {| end_ := 5; steps := 5 |}
  ∧ skipInlineCode (src crossLineDoc) (Some 6) (eMarks crossLineDoc !! 1)
    = Some {| end_ := 15; steps := 9 |}
  ∧ rp_rows <$> getTableRowPositions crossLineDoc (Some 0) (Some 25) 0 inlineCodeOpts
    = Some [(1, 2, [({| line := 1; pos := Some 5 |},
                     {| line := 2; pos := Some 16 |});
                    ({| line := 2; pos := Some 17 |},
                     {| line := 2; pos := Some 20 |})])].
Proof.
  split; [reflexivity|]. split; [|repeat split; vm_compute; reflexivity].
  intros i Hi. assert (i = 1) as -> by lia. discriminate.
Qed.

(** C6, counterexample.  In [$a $ b$] the opener at offset 0 is followed by
    a letter and the dollar sign at offset 6 is a valid closer, but the
    search stops at the dollar sign at offset 3, which follows a blank, and
    reports no match. *)
Lemma skipInlineMath_stops_at_first_dollar :
  let text := codes "$a $ b$" in
  charCodeAt text 0 = Some dollarChar
  ∧ nextCharWithin text 0 (Some 7) = Some 97
  ∧ validMathCloser text (Some 7) 6 = true
  ∧ skipInlineMath text (Some 0) (Some 7) = None.
Proof. repeat split. Qed.

Lemma findMathCloser_none (src : list Z) (start : Z) (max : num) (fuel : nat) :
  ∀ cur, 0 <= cur →
    (∀ k, cur <= k → charCodeAt src k = Some dollarChar →
          isEscaped src (Some k) = true) →
    findMathCloser fuel src start cur max = None.
Proof.
  induction fuel as [|fuel IH]; intros cur Hcur Hesc; [done|]. simpl.
  destruct (indexOf_spec src dollarChar cur Hcur) as [[E _] | (Hle & Hc & _)].
  - rewrite E. done.
  - set (k := indexOf src dollarChar cur) in *.
    destruct (k =? 0); [done|].
    destruct ((k =? -1) || ngt (Some k) max); [done|].
    rewrite (Hesc k Hle Hc).
    apply IH; [lia|]. intros k' Hk'. apply Hesc. lia.
Qed.

Lemma findMathCloser_first (src : list Z) (start m : Z) (max : num) (fuel : nat) :
  charCodeAt src m = Some dollarChar →
  isEscaped src (Some m) = false →
  ∀ cur, 1 <= cur <= m →
    (∀ k, cur <= k < m → charCodeAt src k = Some dollarChar →
          isEscaped src (Some k) = true) →
    (Z.to_nat (m - cur) < fuel)%nat →
    findMathCloser fuel src start cur max
    = if acceptedMathCloser src max m
      then Some {| end_ := m + 1; steps := m + 1 - start |} else None.
Proof.
  intros Hm Hunesc.
  induction fuel as [|fuel IH]; intros cur Hcur Hesc Hfuel; [lia|]. simpl.
  destruct (indexOf_spec src dollarChar cur ltac:(lia))
    as [[_ Hno] | (Hle & Hc & Hno)].
  { exfalso. apply (Hno m); [lia | done]. }
  set (k := indexOf src dollarChar cur) in *.
  assert (k <= m) as Hkm.
  { destruct (Z.le_gt_cases k m) as [|Hgt]; [done|].
    exfalso. apply (Hno m); [lia | done]. }
  destruct (Z.eqb_spec k 0); [lia|].
  destruct (Z.eqb_spec k (-1)); [lia|]. simpl.
  destruct (ngt (Some k) max) eqn:Hmax.
  { unfold acceptedMathCloser.
    assert (ngt (Some m) max = true) as ->; [|done].
    unfold ngt, nlt in *. destruct max as [mx|]; [|done].
    apply Z.ltb_lt in Hmax. apply Z.ltb_lt. lia. }
  destruct (isEscaped src (Some k)) eqn:Hk.
  - assert (k ≠ m) by (intros ->; congruence).
    apply IH; [lia | | lia]. intros k' Hk'. apply Hesc. lia.
  - assert (k = m) as ->.
    { destruct (decide (k = m)); [done|].
      rewrite (Hesc k) in Hk; [done | lia | done]. }
    unfold acceptedMathCloser. rewrite Hmax. simpl.
    destruct (codeIs (charCodeAt src (m - 1)) 32 || codeIs (charCodeAt src (m - 1)) 9);
      [done|].
    simpl.
    by destruct (_ && nle (nextCharWithin src m max) (Some 57)).
Qed.

(** C6, amended.  At an unescaped dollar sign that is not followed by a
    blank: a following dollar sign gives a two-character skip; otherwise the
    first unescaped dollar sign after the opener is the only candidate, and
    the span up to it is returned exactly when that candidate lies within
    the line, is not preceded by a blank and is not followed by a digit;
    there is no match when the candidate fails this test or when no
    unescaped dollar sign follows. *)
Theorem skipInlineMath_first_candidate (src : list Z) (pos : Z) (max : num) :
  charCodeAt src pos = Some dollarChar →
  (0 < pos → isEscaped src (Some pos) = false) →
  codeIs (nextCharWithin src pos max) 0x20 = false →
  codeIs (nextCharWithin src pos max) 0x09 = false →
  (codeIs (nextCharWithin src pos max) dollarChar = true →
   skipInlineMath src (Some pos) max = Some {| end_ := pos + 2; steps := 2 |})
  ∧ (codeIs (nextCharWithin src pos max) dollarChar = false →
     (∀ m, firstUnescapedDollar src (pos + 1) m →
        skipInlineMath src (Some pos) max
        = if validMathCloser src max m
          then Some {| end_ := m + 1; steps := m - pos |} else None)
     ∧ ((∀ k, pos + 1 <= k → charCodeAt src k = Some dollarChar →
              isEscaped src (Some k) = true) →
        skipInlineMath src (Some pos) max = None)).
Proof.
  intros Hpos Hunesc Hsp Htab.
  pose proof (charCodeAt_Some_range _ _ _ Hpos) as Hrange.
  assert (Hunfold : skipInlineMath src (Some pos) max
            = if codeIs (nextCharWithin src pos max) dollarChar
              then Some {| end_ := pos + 2; steps := 2 |}
              else findMathCloser (S (length src)) src (pos + 1) (pos + 1) max).
  { unfold skipInlineMath, skipInlineMathAt. rewrite Hpos. simpl.
    destruct (Z.ltb_spec 0 pos) as [Hlt|Hge]; simpl.
    - unfold notEscaped. rewrite (Hunesc Hlt). simpl. by rewrite Hsp, Htab.
    - by rewrite Hsp, Htab. }
  rewrite Hunfold. split.
  - intros ->. done.
  - intros ->. split.
    + intros m (Hle & Hm & Hun & Hesc).
      pose proof (charCodeAt_Some_range _ _ _ Hm) as Hmr. unfold len in Hmr.
      rewrite (findMathCloser_first src (pos + 1) m max _ Hm Hun (pos + 1));
        [| lia | done | lia].
      unfold validMathCloser. rewrite Hm, Hun. simpl.
      replace (m + 1 - (pos + 1)) with (m - pos) by lia. done.
    + intros Hesc. apply findMathCloser_none; [lia | done].
Qed.

Lemma skipInlineMath_first_candidate_witness :
  firstUnescapedDollar (codes "$a \$ b$ c") 1 7
  ∧ skipInlineMath (codes "$a \$ b$ c") (Some 0) (Some 10)
    = Some {| end_ := 8; steps := 7 |}.
Proof.
  assert (Hfirst : firstUnescapedDollar (codes "$a \$ b$ c") 1 7).
  { split; [lia|]. split; [reflexivity|]. split; [reflexivity|].
    intros k Hk. assert (k = 1 ∨ k = 2 ∨ k = 3 ∨ k = 4 ∨ k = 5 ∨ k = 6)
      as [->|[->|[->|[->|[->| ->]]]]] by lia; done. }
  split; [exact Hfirst|].
  destruct (skipInlineMath_first_candidate (codes "$a \$ b$ c") 0 (Some 10))
    as [_ Hsearch]; [reflexivity | lia | reflexivity | reflexivity |].
  destruct (Hsearch eq_refl) as [Hfound _].
  exact (Hfound 7 Hfirst).
Defined.

(** ** The scan loop terminates *)

Lemma scanMarker_ge (fuel : nat) (src : list Z) (max : num) :
  ∀ pos, pos <= scanMarker fuel src pos max.
Proof.
  induction fuel as [|fuel IH]; intros pos; simpl; [lia|].
  destruct (_ && _); [|lia]. specialize (IH (pos + 1)). lia.
Qed.

Lemma findCloser_steps (fuel : nat) (src : list Z) (start openerLength : Z)
    (max : num) :
  ∀ matchEnd r, start <= matchEnd →
    findCloser fuel src start openerLength matchEnd max = Some r → 1 <= steps r.
Proof.
  induction fuel as [|fuel IH]; intros matchEnd r Hle; simpl; [done|].
  destruct (indexOf_spec src apostropheChar (Z.max matchEnd 0) ltac:(lia))
    as [[E _] | (Hge & _ & _)].
  - assert (indexOf src apostropheChar matchEnd = -1) as ->; [|done].
    unfold indexOf in *. by rewrite Z.max_l in E by lia.
  - assert (indexOf src apostropheChar (Z.max matchEnd 0)
            = indexOf src apostropheChar matchEnd) as Heq.
    { unfold indexOf. by rewrite (Z.max_l (Z.max matchEnd 0) 0) by lia. }
    rewrite Heq in Hge. set (k := indexOf src apostropheChar matchEnd) in *.
    destruct (k =? -1); [done|].
    pose proof (scanMarker_ge (length src) src max (k + 1)) as Hsm.
    destruct (_ =? openerLength).
    + intros [= <-]. simpl. lia.
    + apply IH. lia.
Qed.

Lemma skipInlineCode_steps (src : list Z) (pos max : num) (r : SkipInlineResult) :
  skipInlineCode src pos max = Some r → 1 <= steps r.
Proof.
  destruct pos as [p|]; [|done]. unfold skipInlineCode, skipInlineCodeAt.
  destruct (negb _); [done|]. destruct (_ && _); [done|].
  apply findCloser_steps. apply scanMarker_ge.
Qed.

Lemma findMathCloser_steps (fuel : nat) (src : list Z) (start : Z) (max : num) :
  ∀ cur r, start <= cur → 0 <= cur →
    findMathCloser fuel src start cur max = Some r → 1 <= steps r.
Proof.
  induction fuel as [|fuel IH]; intros cur r Hle Hcur; simpl; [done|].
  destruct (indexOf_spec src dollarChar cur Hcur) as [[-> _] | (Hge & _ & _)];
    [done|].
  set (k := indexOf src dollarChar cur) in *.
  destruct (k =? 0); [done|]. destruct (_ || _); [done|].
  destruct (isEscaped src (Some k)).
  - apply IH; lia.
  - destruct (_ || _); [done|]. intros [= <-]. simpl. lia.
Qed.

Lemma skipInlineMath_steps (src : list Z) (pos max : num) (r : SkipInlineResult) :
  skipInlineMath src pos max = Some r → 1 <= steps r.
Proof.
  destruct pos as [p|]; [|done]. unfold skipInlineMath, skipInlineMathAt.
  destruct (negb _) eqn:Hc; [done|]. destruct (_ && _); [done|].
  destruct (_ || _); [done|].
  destruct (codeIs (nextCharWithin src p max) dollarChar).
  - intros [= <-]. simpl. lia.
  - apply negb_false_iff in Hc. unfold codeIs in Hc.
    destruct (charCodeAt src p) eqn:Hp; [|done].
    apply charCodeAt_Some_range in Hp. apply findMathCloser_steps; lia.
Qed.

(** *** The fuel of the loops is never used up *)

(** [scanMarker] stops by the test of its loop. *)
Lemma scanMarker_exit (src : list Z) (max : num) (fuel : nat) :
  ∀ pos, (Z.to_nat (len src - pos) ≤ fuel)%nat →
    nlt (Some (scanMarker fuel src pos max)) max
    && codeIs (charCodeAt src (scanMarker fuel src pos max)) apostropheChar
    = false.
Proof.
  induction fuel as [|fuel IH]; intros pos Hfuel; cbn [scanMarker].
  - unfold charCodeAt. destruct (Z.ltb_spec pos 0); [by rewrite andb_false_r|].
    rewrite lookup_ge_None_2; [by rewrite andb_false_r|]. unfold len in Hfuel. lia.
  - destruct (nlt (Some pos) max && codeIs (charCodeAt src pos) apostropheChar)
      eqn:Hc; [|exact Hc].
    apply IH. apply andb_true_iff in Hc as [_ Hc]. unfold codeIs in Hc.
    destruct (charCodeAt src pos) eqn:Hp; [|done].
    apply charCodeAt_Some_range in Hp. lia.
Qed.

(** More rounds than [S (length src)] change nothing in the closer search
    of [skipInlineCode] ... *)
Lemma findCloser_more_fuel (src : list Z) (start openerLength : Z) (max : num)
    (f1 : nat) :
  ∀ f2 matchEnd, (Z.to_nat (len src - Z.max matchEnd 0) < f1)%nat → (f1 ≤ f2)%nat →
    findCloser f2 src start openerLength matchEnd max
    = findCloser f1 src start openerLength matchEnd max.
Proof.
  induction f1 as [|f1 IH]; intros f2 matchEnd Hfuel Hle; [lia|].
  destruct f2 as [|f2]; [lia|]. simpl.
  destruct (indexOf_spec src apostropheChar (Z.max matchEnd 0) ltac:(lia))
    as [[E _] | (Hge & Hk & _)].
  - assert (indexOf src apostropheChar matchEnd = -1) as ->; [|done].
    unfold indexOf in *. by rewrite Z.max_l in E by lia.
  - assert (indexOf src apostropheChar (Z.max matchEnd 0)
            = indexOf src apostropheChar matchEnd) as Heq.
    { unfold indexOf. by rewrite (Z.max_l (Z.max matchEnd 0) 0) by lia. }
    rewrite Heq in Hge, Hk. set (k := indexOf src apostropheChar matchEnd) in *.
    apply charCodeAt_Some_range in Hk.
    destruct (k =? -1); [done|].
    pose proof (scanMarker_ge (length src) src max (k + 1)) as Hsm.
    destruct (_ =? openerLength); [done|].
    apply IH; lia.
Qed.

(** ... and in the closer search of [skipInlineMath]. *)
Lemma findMathCloser_more_fuel (src : list Z) (start : Z) (max : num) (f1 : nat) :
  ∀ f2 cur, 0 <= cur → (Z.to_nat (len src - cur) < f1)%nat → (f1 ≤ f2)%nat →
    findMathCloser f2 src start cur max = findMathCloser f1 src start cur max.
Proof.
  induction f1 as [|f1 IH]; intros f2 cur Hcur Hfuel Hle; [lia|].
  destruct f2 as [|f2]; [lia|]. simpl.
  destruct (indexOf_spec src dollarChar cur Hcur) as [[-> _] | (Hge & Hk & _)];
    [done|].
  set (k := indexOf src dollarChar cur) in *.
  apply charCodeAt_Some_range in Hk.
  destruct (k =? 0); [done|]. destruct (_ || _); [done|].
  destruct (isEscaped src (Some k)); [|done].
  apply IH; lia.
Qed.

Section Termination.

Variable state : StateBlock.
Variable E : Z.

Lemma linesAfter_le (l : Z) : (linesAfter state (l + 1) ≤ linesAfter state l)%nat.
Proof.
  unfold linesAfter. apply subseteq_size.
  intros k. rewrite !elem_of_filter. intros [? ?]. split; [lia | done].
Qed.

Lemma linesAfter_lt (l : Z) :
  is_Some (bMarks state !! (l + 1)) →
  (linesAfter state (l + 1) < linesAfter state l)%nat.
Proof.
  intros Hin. unfold linesAfter. apply subset_size. split.
  - intros k. rewrite !elem_of_filter. intros [? ?]. split; [lia | done].
  - intros Hsub. specialize (Hsub (l + 1)). rewrite !elem_of_filter in Hsub.
    destruct Hsub as [Hlt _]; [|lia]. split; [lia|]. by apply elem_of_dom.
Qed.

Lemma roomLeft_bound (p : num) : (roomLeft E p ≤ Z.to_nat (E + 1))%nat.
Proof. destruct p as [p|]; simpl; lia. Qed.

(** A round of [next] never raises the measure ... *)
Lemma nextStep_measure_le (it : StateIterator) :
  (scanMeasure state E (nextStep state it) ≤ scanMeasure state E it)%nat.
Proof.
  unfold nextStep, scanMeasure.
  destruct (_pos it) as [p|] eqn:Hp; simpl.
  - destruct (ngt (Some (p + 1)) (_lineEnds it)) eqn:Hgt; simpl; [|lia].
    destruct (bMarks state !! (_line it + 1)) as [b|] eqn:Hb.
    + pose proof (linesAfter_lt (_line it) ltac:(by rewrite Hb)) as Hlt.
      pose proof (roomLeft_bound (nplus (Some b) (tShift state !! (_line it + 1)))).
      destruct (decide (E + 2 <= 0)).
      * destruct (nplus _ _); simpl in *; lia.
      * nia.
    + simpl. pose proof (linesAfter_le (_line it)). nia.
  - assert (ngt None (_lineEnds it) = false) as ->; [|simpl; lia].
    unfold ngt, nlt. by destruct (_lineEnds it).
Qed.

(** ... and lowers it when the cursor stands within [0..E]. *)
Lemma nextStep_measure_lt (it : StateIterator) (p : Z) :
  _pos it = Some p → 0 <= p <= E →
  (scanMeasure state E (nextStep state it) < scanMeasure state E it)%nat.
Proof.
  intros Hp Hrange. unfold nextStep, scanMeasure. rewrite Hp.
  destruct (ngt (nadd (Some p) 1) (_lineEnds it)) eqn:Hgt; simpl.
  - destruct (bMarks state !! (_line it + 1)) as [b|] eqn:Hb.
    + pose proof (linesAfter_lt (_line it) ltac:(by rewrite Hb)) as Hlt.
      pose proof (roomLeft_bound (nplus (Some b) (tShift state !! (_line it + 1)))).
      nia.
    + simpl. pose proof (linesAfter_le (_line it)). nia.
  - lia.
Qed.

Lemma next_measure_le (n : nat) (it : StateIterator) :
  (scanMeasure state E (Nat.iter n (nextStep state) it)
   ≤ scanMeasure state E it)%nat.
Proof.
  induction n as [|n IH]; simpl; [lia|].
  etrans; [apply nextStep_measure_le | exact IH].
Qed.

Lemma next_measure_lt (n : nat) (it : StateIterator) (p : Z) :
  _pos it = Some p → 0 <= p <= E → (1 ≤ n)%nat →
  (scanMeasure state E (Nat.iter n (nextStep state) it)
   < scanMeasure state E it)%nat.
Proof.
  intros Hp Hrange Hn. destruct n as [|n]; [lia|].
  rewrite Nat.iter_succ_r.
  eapply Nat.le_lt_trans; [apply next_measure_le|].
  by eapply nextStep_measure_lt.
Qed.

End Termination.

(** Every round of the scan loop moves the cursor by at least one round of
    [next]. *)
Lemma next_next (state : StateBlock) (a b : Z) (it : StateIterator) :
  next state a (next state b it)
  = Nat.iter (Z.to_nat a + Z.to_nat b) (nextStep state) it.
Proof. unfold next. by rewrite Nat.iter_add. Qed.

Lemma iter_next (state : StateBlock) (a : Z) (n : nat) (it : StateIterator) :
  next state a (Nat.iter n (nextStep state) it)
  = Nat.iter (Z.to_nat a + n) (nextStep state) it.
Proof. unfold next. by rewrite Nat.iter_add. Qed.

(** [s'] has the cursor of [s] after [n] rounds of [next]. *)
Lemma fenceToggles_advances (state : StateBlock) (opts : YfmTablePluginOptions)
    (s : Scan) :
  ∃ n, iter (fenceToggles state opts s) = Nat.iter n (nextStep state) (iter s).
Proof.
  unfold fenceToggles.
  destruct (_ && isCodeBlockOrder _ _); cbn [advance setModes setIter iter];
    (destruct (_ && isMathBlockOrder _ _); cbn [advance setModes setIter iter]);
    rewrite ?next_next; unfold next;
    first [by exists 0%nat | eexists; reflexivity].
Qed.

Lemma liquidToggles_advances (state : StateBlock) (s : Scan) :
  ∃ n, iter (liquidToggles state s) = Nat.iter n (nextStep state) (iter s).
Proof.
  unfold liquidToggles.
  destruct (_ && isLiquidVariableStart _ _); cbn [advance setModes setIter iter];
    (destruct (_ && isLiquidVariableEnd _ _); cbn [advance setModes setIter iter]);
    rewrite ?next_next; unfold next;
    first [by exists 0%nat | eexists; reflexivity].
Qed.

Lemma addRow_iter (s : Scan) : iter (addRow s) = iter s.
Proof. done. Qed.

Lemma scanMarkers_advances (state : StateBlock) (s : Scan) :
  ∃ n, (1 ≤ n)%nat
       ∧ iter (scanMarkers state s).1 = Nat.iter n (nextStep state) (iter s).
Proof.
  unfold scanMarkers.
  repeat match goal with
    | |- context [if ?b then _ else _] => destruct b
    end;
  cbn [fst advance setTableLevel setEndOfTable setCells setRowMap setIter iter];
  rewrite ?addRow_iter; unfold next; (eexists; split; [|reflexivity]);
  unfold len; simpl; lia.
Qed.

Lemma scanBody_advances (state : StateBlock) (opts : YfmTablePluginOptions)
    (s : Scan) :
  ∃ n, (1 ≤ n)%nat
       ∧ iter (scanBody state opts s).1 = Nat.iter n (nextStep state) (iter s).
Proof.
  unfold scanBody.
  destruct (fenceToggles_advances state opts s) as [n1 H1].
  set (s1 := fenceToggles state opts s) in *.
  destruct (isInsideCode s1 || isInsideMath s1).
  { exists (1 + n1)%nat. split; [lia|]. cbn [fst advance setIter iter].
    rewrite H1. unfold next. by rewrite Nat.iter_add. }
  destruct (liquidToggles_advances state s1) as [n2 H2].
  set (s2 := liquidToggles state s1) in *.
  destruct (isInsideLiquidVariable s2).
  { exists (1 + (n2 + n1))%nat. split; [lia|]. cbn [fst advance setIter iter].
    rewrite H2, H1. unfold next. by rewrite !Nat.iter_add. }
  destruct (inlineSkip state opts s2) as [r|] eqn:Hskip.
  - assert (1 <= steps r) as Hsteps.
    { unfold inlineSkip in Hskip.
      destruct (truthyFlag (table_ignoreSplittersInInlineCode opts)).
      - destruct (skipInlineCode _ _ _) eqn:Hc.
        + injection Hskip as ->. by eapply skipInlineCode_steps.
        + destruct (truthyFlag _); [|done]. by eapply skipInlineMath_steps.
      - destruct (truthyFlag _); [|done]. by eapply skipInlineMath_steps. }
    exists (Z.to_nat (steps r) + (n2 + n1))%nat. split; [lia|].
    cbn [fst advance setIter iter].
    rewrite H2, H1. unfold next. by rewrite !Nat.iter_add.
  - destruct (scanMarkers_advances state s2) as (n3 & Hn3 & H3).
    exists (n3 + (n2 + n1))%nat. split; [lia|].
    rewrite H3, H2, H1. by rewrite !Nat.iter_add.
Qed.

(** One more round of the loop lowers the measure. *)
Lemma scanBody_measure (state : StateBlock) (opts : YfmTablePluginOptions)
    (E : Z) (s : Scan) (p : Z) :
  _pos (iter s) = Some p → 0 <= p <= E →
  (scanMeasure state E (iter (scanBody state opts s).1)
   < scanMeasure state E (iter s))%nat.
Proof.
  intros Hp Hrange.
  destruct (scanBody_advances state opts s) as (n & Hn & ->).
  by eapply next_measure_lt.
Qed.

Lemma scanLoop_enough_fuel (state : StateBlock) (opts : YfmTablePluginOptions)
    (endPosition : num) (fuel : nat) :
  ∀ s, (scanMeasure state (toInteger endPosition) (iter s) < fuel)%nat →
       is_Some (scanLoop fuel state opts endPosition s).
Proof.
  induction fuel as [|fuel IH]; intros s Hfuel; [lia|]. simpl.
  destruct (nle (_pos (iter s)) endPosition) eqn:Hle; simpl; [|by eexists].
  destruct (bool_decide (symbol state (iter s) = None)) eqn:Hsym; [by eexists|].
  unfold nle in Hle. destruct (_pos (iter s)) as [p|] eqn:Hp; [|done].
  destruct endPosition as [e|]; [|done]. apply Z.leb_le in Hle.
  apply bool_decide_eq_false in Hsym. unfold symbol in Hsym. rewrite Hp in Hsym.
  simpl in Hsym. destruct (charCodeAt (src state) p) as [c|] eqn:Hc; [|done].
  apply charCodeAt_Some_range in Hc.
  pose proof (scanBody_measure state opts e s p Hp ltac:(lia)) as Hlt.
  destruct (scanBody state opts s) as [s' continue]. simpl in *.
  destruct continue; [|by eexists].
  apply IH. lia.
Qed.

(** The scan always ends within [scanFuel] rounds: [getTableRowPositions]
    returns for every state, position and option record. *)
Lemma getTableRowPositions_total (state : StateBlock) (startPosition endPosition : num)
    (startLine : Z) (opts : YfmTablePluginOptions) :
  is_Some (getTableRowPositions state startPosition endPosition startLine opts).
Proof.
  unfold getTableRowPositions.
  destruct (scanLoop_enough_fuel state opts endPosition
              (scanFuel state endPosition) (scanStart state startPosition startLine))
    as [s Hs]; [|rewrite Hs; by eexists].
  unfold scanFuel, scanMeasure.
  set (E := toInteger endPosition).
  pose proof (roomLeft_bound E (_pos (iter (scanStart state startPosition startLine)))).
  assert (linesAfter state (_line (iter (scanStart state startPosition startLine)))
          ≤ size (bMarks state))%nat.
  { unfold linesAfter. rewrite <- (size_dom (D := gset Z)).
    apply subseteq_size. intros k. rewrite elem_of_filter. tauto. }
  nia.
Qed.

(** ** Nested tables are opaque to the outer scan *)

Lemma fenceToggles_frame (state : StateBlock) (opts : YfmTablePluginOptions)
    (s : Scan) :
  rowData (fenceToggles state opts s) = rowData s
  ∧ tableLevel (fenceToggles state opts s) = tableLevel s
  ∧ endOfTable (fenceToggles state opts s) = endOfTable s.
Proof.
  unfold fenceToggles.
  repeat (match goal with
          | |- context [if ?b then _ else _] => destruct b
          end; simpl); done.
Qed.

Lemma liquidToggles_frame (state : StateBlock) (s : Scan) :
  rowData (liquidToggles state s) = rowData s
  ∧ tableLevel (liquidToggles state s) = tableLevel s
  ∧ endOfTable (liquidToggles state s) = endOfTable s.
Proof.
  unfold liquidToggles.
  repeat (match goal with
          | |- context [if ?b then _ else _] => destruct b
          end; simpl); done.
Qed.

Lemma rowData_advance (state : StateBlock) (k : Z) (s : Scan) :
  rowData (advance state k s) = rowData s.
Proof. done. Qed.

Lemma rowData_setTableLevel (l : Z) (s : Scan) :
  rowData (setTableLevel l s) = rowData s.
Proof. done. Qed.

Lemma scanBody_nested (state : StateBlock) (opts : YfmTablePluginOptions)
    (s : Scan) :
  0 < tableLevel s →
  (scanBody state opts s).2 = true
  ∧ rowData (scanBody state opts s).1 = rowData s
  ∧ endOfTable (scanBody state opts s).1 = endOfTable s
  ∧ (tableLevel s - 1 <= tableLevel (scanBody state opts s).1 <= tableLevel s + 1).
Proof.
  intros Hlevel. unfold scanBody.
  destruct (fenceToggles_frame state opts s) as (R1 & L1 & E1).
  set (s1 := fenceToggles state opts s) in *.
  destruct (liquidToggles_frame state s1) as (R2 & L2 & E2).
  set (s2 := liquidToggles state s1) in *.
  assert (Hdone : ∀ k l, tableLevel s - 1 <= l <= tableLevel s + 1 →
    ((advance state k (setTableLevel l s2), true).2 = true
     ∧ rowData (advance state k (setTableLevel l s2), true).1 = rowData s
     ∧ endOfTable (advance state k (setTableLevel l s2), true).1 = endOfTable s
     ∧ tableLevel s - 1
       <= tableLevel (advance state k (setTableLevel l s2), true).1
       <= tableLevel s + 1)).
  { intros k l Hl. cbn [fst snd].
    rewrite rowData_advance, rowData_setTableLevel. simpl.
    repeat split; [congruence | congruence | lia | lia]. }
  destruct (isInsideCode s1 || isInsideMath s1).
  { cbn [fst snd]. rewrite rowData_advance. simpl. rewrite L1.
    repeat split; [done | done | lia | lia]. }
  destruct (isInsideLiquidVariable s2).
  { cbn [fst snd]. rewrite rowData_advance. simpl. rewrite L2, L1.
    repeat split; [congruence | congruence | lia | lia]. }
  destruct (inlineSkip state opts s2).
  { cbn [fst snd]. rewrite rowData_advance. simpl. rewrite L2, L1.
    repeat split; [congruence | congruence | lia | lia]. }
  unfold scanMarkers.
  destruct (isOpenTableOrder _ _); [apply Hdone; lia|].
  destruct (isCloseTableOrder _ _).
  { destruct (Z.eqb_spec (tableLevel s2) 0) as [Hz|_]; [lia|]. apply Hdone. lia. }
  destruct (Z.ltb_spec 0 (tableLevel s2)) as [_|Hz]; [|lia].
  cbn [fst snd]. rewrite rowData_advance. simpl. rewrite L2, L1.
  repeat split; [congruence | congruence | lia | lia].
Qed.

(** C3. A round of the scan loop that starts at nesting level above 0 never
    ends the scan and leaves the recorded rows, the cells of the current
    row, the open cell, the row start and the row toggle as they were; it
    only moves the cursor and changes the nesting level by at most one.
    Hence whatever row and cell markers stand inside a nested table, no run
    of such rounds adds a row or a cell to the outer scan. *)
Theorem nested_tables_opaque (state : StateBlock) (opts : YfmTablePluginOptions)
    (s : Scan) :
  0 < tableLevel s →
  (scanBody state opts s).2 = true
  ∧ rowData (scanBody state opts s).1 = rowData s
  ∧ endOfTable (scanBody state opts s).1 = endOfTable s
  ∧ (tableLevel s - 1 <= tableLevel (scanBody state opts s).1 <= tableLevel s + 1)
  ∧ ∀ s', nestedRun state opts s s' → rowData s' = rowData s.
Proof.
  intros Hlevel.
  destruct (scanBody_nested state opts s Hlevel) as (Hc & Hr & He & Hl).
  repeat split; [done | done | done | lia | lia |].
  intros s' Hrun. clear Hc Hr He Hl Hlevel.
  induction Hrun as [s | s s1 s2 b Hpos Hbody _ IH]; [done|].
  destruct (scanBody_nested state opts s Hpos) as (_ & Hr & _).
  rewrite Hbody in Hr. simpl in Hr. congruence.
Qed.

(** [nestedScan] is the state of the scan of [nestedDoc] after 11 rounds. *)
Example nestedScan_reached :
  rounds 11 nestedDoc defaultOpts (scanStart nestedDoc (Some 0) 0) = nestedScan.
Proof. vm_compute. reflexivity. Qed.

Lemma nested_tables_opaque_witness :
  0 < tableLevel nestedScan
  ∧ isRowOrder (src nestedDoc) (_pos (iter nestedScan)) = true
  ∧ rowData (scanBody nestedDoc defaultOpts nestedScan).1 = rowData nestedScan.
Proof.
  split; [reflexivity|]. split; [reflexivity|].
  destruct (nested_tables_opaque nestedDoc defaultOpts nestedScan) as (_ & H & _);
    [reflexivity | exact H].
Defined.

(** The whole scan of [nestedDoc]: one row with one cell that runs from
    after the outer row marker to the closing one, across the nested table;
    the markers of the nested table add nothing. *)
Example nestedDoc_scan :
  getTableRowPositions nestedDoc (Some 0) (Some 41) 0 defaultOpts
  = Some {| rp_rows := [(1, 3, [({| line := 1; pos := Some 5 |},
                                  {| line := 3; pos := Some 34 |})])];
            rp_endOfTable := Some 6;
            rp_pos := Some 39 |}.
Proof. vm_compute. reflexivity. Qed.

(** ** Rows that start on line 0 *)

(** C10. [addRow] closes the open cell and then records the row only when
    the row has a cell and its start line is a number other than [0].  So
    the row of a table that opens on line 0 of the document with its row
    marker on that same line is dropped from the result, while the same
    table one line further down yields the row. *)
Theorem addRow_drops_line_zero :
  (∀ s : Scan,
     let cells := match colStart s with
                  | Some c => currentRow s ++ [(c, stats (iter s))]
                  | None => currentRow s
                  end in
     rows (addRow s)
     = match rowStart s with
       | Some l => if bool_decide (cells ≠ [] ∧ l ≠ 0)
                   then rows s ++ [(l, _line (iter s), cells)]
                   else rows s
       | None => rows s
       end)
  ∧ (∀ s : Scan, rowStart s = Some 0 → rows (addRow s) = rows s)
  ∧ getTableRowPositions firstLineDoc (Some 0) (Some 17) 0 defaultOpts
    = Some {| rp_rows := []; rp_endOfTable := Some 3; rp_pos := Some 17 |}
  ∧ getTableRowPositions secondLineDoc (Some 1) (Some 18) 1 defaultOpts
    = Some {| rp_rows := [(1, 1, [({| line := 1; pos := Some 6 |},
                                    {| line := 1; pos := Some 9 |});
                                   ({| line := 1; pos := Some 10 |},
                                    {| line := 1; pos := Some 13 |})])];
              rp_endOfTable := Some 4;
              rp_pos := Some 18 |}.
Proof.
  split; [|split; [|split; vm_compute; reflexivity]].
  - intros s cells. unfold addRow. cbn [rows setCells].
    fold cells. clearbody cells. destruct (rowStart s) as [l|]; [|done].
    unfold truthy. case_bool_decide as Hd.
    + destruct Hd as [Hc Hl]. destruct cells; [done|].
      simpl. by destruct (Z.eqb_spec l 0).
    + destruct cells as [|c cs]; [done|]. simpl.
      destruct (Z.eqb_spec l 0); [done|]. exfalso. apply Hd. done.
  - intros s Hs. unfold addRow. cbn [rows setCells]. rewrite Hs.
    simpl. by rewrite andb_false_r.
Qed.

(** ** Reading a run of characters *)

Lemma checkChars1 (a : Z) (src : list Z) (p : Z) :
  0 <= p →
  checkCharsOrder [a] src (Some p) = codeIs (charCodeAt src p) a.
Proof.
  intros Hp. unfold checkCharsOrder, slice_from. simpl.
  destruct (Z.ltb_spec p 0); [lia|].
  rewrite (charCodeAt_drop src p 0 Hp). rewrite Z.add_0_r.
  destruct (charCodeAt src p); simpl; [|done]. by destruct (_ =? _).
Qed.

Lemma checkChars2 (a b : Z) (src : list Z) (p : Z) :
  0 <= p →
  checkCharsOrder [a; b] src (Some p)
  = codeIs (charCodeAt src p) a && codeIs (charCodeAt src (p + 1)) b.
Proof.
  intros Hp. unfold checkCharsOrder, slice_from. simpl.
  destruct (Z.ltb_spec p 0); [lia|].
  rewrite (charCodeAt_drop src p 0 Hp), (charCodeAt_drop src p 1 Hp).
  rewrite Z.add_0_r. change (Z.of_nat 1) with 1.
  destruct (charCodeAt src p); simpl; [|done]. destruct (_ =? _); [|done].
  destruct (charCodeAt src (p + 1)); simpl; [|done]. by destruct (_ =? _).
Qed.

Lemma checkChars3 (a b c : Z) (src : list Z) (p : Z) :
  0 <= p →
  checkCharsOrder [a; b; c] src (Some p)
  = codeIs (charCodeAt src p) a && codeIs (charCodeAt src (p + 1)) b
    && codeIs (charCodeAt src (p + 2)) c.
Proof.
  intros Hp. unfold checkCharsOrder, slice_from. simpl.
  destruct (Z.ltb_spec p 0); [lia|].
  rewrite (charCodeAt_drop src p 0 Hp), (charCodeAt_drop src p 1 Hp),
    (charCodeAt_drop src p 2 Hp).
  rewrite Z.add_0_r. change (Z.of_nat 1) with 1. change (Z.of_nat 2) with 2.
  destruct (charCodeAt src p); simpl; [|done]. destruct (_ =? _); [|done].
  destruct (charCodeAt src (p + 1)); simpl; [|done]. destruct (_ =? _); [|done].
  destruct (charCodeAt src (p + 2)); simpl; [|done]. by destruct (_ =? _).
Qed.

Lemma absent_spec (order : list Z) (src : list Z) (p : Z) :
  absent order src = true → 0 <= p < len src →
  checkCharsOrder order src (Some p) = false.
Proof.
  unfold absent. rewrite forallb_forall. intros Hall Hp.
  apply negb_true_iff. apply Hall. apply list_elem_of_In, elem_of_seqZ. lia.
Qed.

Lemma next_within (state : StateBlock) (it : StateIterator) (p e : Z) (k : nat) :
  _pos it = Some p → _lineEnds it = Some e → p + Z.of_nat k <= e →
  Nat.iter k (nextStep state) it
  = {| _pos := Some (p + Z.of_nat k); _line := _line it; _lineEnds := Some e |}.
Proof.
  intros Hp He. induction k as [|k IH]; intros Hk.
  - simpl. rewrite Z.add_0_r. destruct it; simpl in *; congruence.
  - simpl. rewrite IH by lia. unfold nextStep. simpl.
    destruct (Z.ltb_spec e (p + Z.of_nat k + 1)); [lia|].
    do 2 f_equal. lia.
Qed.

Lemma nextStep_cross (state : StateBlock) (it : StateIterator) (e : Z) :
  _pos it = Some e → _lineEnds it = Some e →
  nextStep state it
  = {| _pos := nplus (bMarks state !! (_line it + 1)) (tShift state !! (_line it + 1));
       _line := _line it + 1;
       _lineEnds := eMarks state !! (_line it + 1) |}.
Proof.
  intros Hp He. unfold nextStep. rewrite Hp, He. simpl.
  destruct (Z.ltb_spec e (e + 1)); [done | lia].
Qed.

(** ** The unterminated table *)

Lemma absent_any (order : list Z) (text : list Z) (pos : num) :
  order ≠ [] → absent order text = true → checkCharsOrder order text pos = false.
Proof.
  intros Hne Habs.
  assert (Hempty : checkCharsLoop order [] 0 = false).
  { destruct order; [done|]. done. }
  assert (Hnat : ∀ q : Z, 0 <= q →
            checkCharsLoop order (drop (Z.to_nat q) text) 0 = false).
  { intros q Hq. destruct (decide (q < len text)) as [Hlt|Hge].
    - pose proof (absent_spec order text q Habs ltac:(lia)) as Hq'.
      unfold checkCharsOrder, slice_from in Hq'. simpl in Hq'.
      by destruct (Z.ltb_spec q 0); [lia|].
    - rewrite drop_ge; [done|]. unfold len in Hge. lia. }
  unfold checkCharsOrder, slice_from.
  destruct (Z.ltb_spec (toInteger pos) 0); apply Hnat; lia.
Qed.

Lemma scanBody_no_close (state : StateBlock) (opts : YfmTablePluginOptions)
    (s : Scan) :
  (∀ pos, isCloseTableOrder (src state) pos = false) →
  endOfTable (scanBody state opts s).1 = endOfTable s.
Proof.
  intros Hno. unfold scanBody.
  destruct (fenceToggles_frame state opts s) as (_ & _ & E1).
  set (s1 := fenceToggles state opts s) in *.
  destruct (liquidToggles_frame state s1) as (_ & _ & E2).
  set (s2 := liquidToggles state s1) in *.
  destruct (isInsideCode s1 || isInsideMath s1); [done|].
  destruct (isInsideLiquidVariable s2); [simpl; congruence|].
  destruct (inlineSkip state opts s2); [simpl; congruence|].
  unfold scanMarkers. rewrite Hno.
  repeat match goal with
    | |- context [if ?b then _ else _] => destruct b
    end; simpl; congruence.
Qed.

Lemma scanLoop_no_close (state : StateBlock) (opts : YfmTablePluginOptions)
    (endPosition : num) (fuel : nat) :
  (∀ pos, isCloseTableOrder (src state) pos = false) →
  ∀ s s', scanLoop fuel state opts endPosition s = Some s' →
          endOfTable s' = endOfTable s.
Proof.
  intros Hno. induction fuel as [|fuel IH]; intros s s'; simpl; [done|].
  destruct (negb _); [by intros [= ->]|].
  destruct (bool_decide _); [by intros [= ->]|].
  pose proof (scanBody_no_close state opts s Hno) as Hb.
  destruct (scanBody state opts s) as [s1 continue]. simpl in Hb.
  destruct continue.
  - intros H%IH. congruence.
  - intros [= <-]. done.
Qed.

(** A text without any close fence is an unterminated table. *)
Lemma no_close_fence_no_end (state : StateBlock) (startPosition endPosition : num)
    (startLine : Z) (opts : YfmTablePluginOptions) :
  absent closeTableOrder (src state) = true →
  rp_endOfTable <$> getTableRowPositions state startPosition endPosition startLine opts
  = Some None.
Proof.
  intros Habs.
  destruct (getTableRowPositions_total state startPosition endPosition startLine opts)
    as [r Hr].
  rewrite Hr. simpl. f_equal. unfold getTableRowPositions in Hr.
  destruct (scanLoop _ _ _ _ _) as [s|] eqn:Hloop; [|done].
  simpl in Hr. injection Hr as <-. simpl.
  apply (scanLoop_no_close state opts endPosition _) in Hloop; [done|].
  intros pos. by apply absent_any.
Qed.

Lemma alter_last (f : Token → Token) (ts : list Token) (t : Token) :
  alter f (length ts) (ts ++ [t]) = ts ++ [f t].
Proof.
  rewrite <- (Nat.add_0_r (length ts)) at 1. by rewrite alter_app_r.
Qed.

(** C4, counterexample.  On a table that is opened and never closed, the
    silent probe of the rule answers true and emits nothing: the scan, the
    diagnostic and the non-match belong to the full match only. *)
Lemma silent_probe_matches_unterminated_table :
  isOpenTableOrder (src unterminatedDoc) (Some 0) = true
  ∧ rp_endOfTable <$>
      getTableRowPositions unterminatedDoc (Some 0) (Some 14) 0 defaultOpts
    = Some None
  ∧ yfmTable plainTokenizer noAttrs noClass defaultOpts unterminatedDoc 0 2 true
    = Ret (unterminatedDoc, true).
Proof. repeat split; vm_compute; reflexivity. Qed.

(** C4, amended.  In a full (non-silent) match: when the region holds the
    opening fence and the scan finds no matching top-level close fence, the
    rule returns false and its only effect on the state is one more token,
    the hidden [__yfm_lint] marker with attribute [YFM004] and the line
    range of the region; no table, tbody, tr or td token is emitted. *)
Theorem unterminated_table_lint
    (tokenize : StateBlock → Z → Z → StateBlock)
    (parseAttrs : list Z → list (string * list string))
    (extractClass : list Z → option (string * list Z))
    (opts : YfmTablePluginOptions) (state : StateBlock) (startLine endLine : Z) :
  let startPosition := nplus (bMarks state !! startLine) (tShift state !! startLine) in
  let endPosition := eMarks state !! endLine in
  nlt (nplus endPosition (Z.opp <$> startPosition)) (Some 2) = false →
  isOpenTableOrder (src state) startPosition = true →
  rp_endOfTable <$> getTableRowPositions state startPosition endPosition startLine opts
  = Some None →
  yfmTable tokenize parseAttrs extractClass opts state startLine endLine false
  = Ret (setTokens (tokens state ++ [lintToken (level state) startLine endLine]) state,
         false).
Proof.
  intros startPosition endPosition Hgate Hopen Hscan. unfold yfmTable.
  fold startPosition endPosition. rewrite Hgate, Hopen. simpl.
  destruct (getTableRowPositions _ _ _ _ _) as [[rws e p]|]; [|done].
  simpl in Hscan. injection Hscan as ->. simpl.
  destruct state. unfold modToken, setTokens, push. simpl.
  do 2 f_equal. f_equal.
  rewrite !alter_last. done.
Qed.

Lemma unterminated_table_lint_witness :
  yfmTable plainTokenizer noAttrs noClass defaultOpts unterminatedDoc 0 2 false
  = Ret (setTokens [lintToken 0 0 2] unterminatedDoc, false).
Proof.
  apply (unterminated_table_lint plainTokenizer noAttrs noClass defaultOpts
           unterminatedDoc 0 2); vm_compute; reflexivity.
Defined.

(** ** The line bounds around a cell *)

Lemma restore_entry (m : gmap Z Z) (k : Z) (v : num) :
  partial_alter (λ _, m !! k) k (partial_alter (λ _, v) k m) = m.
Proof.
  apply map_eq. intros i. destruct (decide (i = k)) as [->|Hne].
  - by rewrite lookup_partial_alter_eq.
  - by rewrite !lookup_partial_alter_ne.
Qed.

Lemma extractAndApplyClassFromToken_frame
    (extractClass : list Z → option (string * list Z))
    (contentToken tdOpenToken : nat) (state state' : StateBlock) :
  extractAndApplyClassFromToken extractClass contentToken tdOpenToken state
  = Ret state' →
  src state' = src state ∧ bMarks state' = bMarks state
  ∧ eMarks state' = eMarks state ∧ tShift state' = tShift state
  ∧ lineMax state' = lineMax state ∧ stateLine state' = stateLine state
  ∧ level state' = level state
  ∧ length (tokens state') = length (tokens state).
Proof.
  unfold extractAndApplyClassFromToken.
  destruct (tokens state !! contentToken) as [ct|]; [|done]. simpl.
  destruct (extractClass (tok_content ct)) as [[cls content]|].
  - intros [= <-]. simpl. by rewrite !length_alter.
  - by intros [= <-].
Qed.

(** The state after a cell, field by field: the token list aside, it is
    the state the tokenizer returned with the four bounds written back. *)
Lemma buildCell_final_state
    (tokenize : StateBlock → Z → Z → StateBlock)
    (extractClass : list Z → option (string * list Z))
    (state : StateBlock) (cell : CellSpan)
    (state' : StateBlock) (ref : nat) (content : list Z) :
  buildCell tokenize extractClass state cell = Ret (state', ref, content) →
  ∃ st1 : StateBlock,
    let st2 := tokenize st1 (line cell.1) (line cell.2 + 1) in
    src st1 = src state
    ∧ tShift st1 = partial_alter (λ _, Some 0) (line cell.1) (tShift state)
    ∧ bMarks st1 = partial_alter (λ _, pos cell.1) (line cell.1) (bMarks state)
    ∧ eMarks st1 = partial_alter (λ _, pos cell.2) (line cell.2) (eMarks state)
    ∧ src state' = src st2
    ∧ lineMax state' = lineMax state
    ∧ tShift state'
      = partial_alter (λ _, tShift state !! line cell.1) (line cell.1) (tShift st2)
    ∧ bMarks state'
      = partial_alter (λ _, bMarks state !! line cell.1) (line cell.1) (bMarks st2)
    ∧ eMarks state'
      = partial_alter (λ _, eMarks state !! line cell.2) (line cell.2) (eMarks st2).
Proof.
  destruct cell as [begin end_]. unfold buildCell. simpl.
  set (st1 := setLineMax _ (setEMark _ _ (setBMark _ _ (setTShift _ _ _)))).
  set (st2 := tokenize st1 (line begin) (line end_ + 1)).
  destruct (length (tokens st2) <? 2)%nat; [done|].
  destruct (tokens st2 !! (length (tokens st2) - 2)%nat) as [ct|]; [|done]. simpl.
  match goal with
  | |- context [extractAndApplyClassFromToken _ _ _ ?st] => set (st3 := st)
  end.
  destruct (extractAndApplyClassFromToken extractClass _ _ st3) as [st4| |] eqn:Hx;
    [|done|done].
  simpl. intros [= <- <- <-].
  apply extractAndApplyClassFromToken_frame in Hx
    as (Hsrc & Hb & He & Ht & Hlm & _).
  exists st1. simpl. fold st2. rewrite Hsrc, Hb, He, Ht, Hlm. done.
Qed.

(** C9. Whatever the host tokenizer does, after a cell has been built the
    four overridden bounds read as before the cell: [lineMax], [tShift] and
    [bMarks] at the cell's begin line, [eMarks] at its end line.  With a
    host tokenizer that leaves the text and the line arrays alone, the
    three arrays and the text are then exactly the ones from before the
    cell, so the next cell starts from unaffected line bounds. *)
Theorem buildCell_restores
    (tokenize : StateBlock → Z → Z → StateBlock)
    (extractClass : list Z → option (string * list Z))
    (state : StateBlock) (cell : CellSpan)
    (state' : StateBlock) (ref : nat) (content : list Z) :
  buildCell tokenize extractClass state cell = Ret (state', ref, content) →
  (lineMax state' = lineMax state
   ∧ tShift state' !! line cell.1 = tShift state !! line cell.1
   ∧ bMarks state' !! line cell.1 = bMarks state !! line cell.1
   ∧ eMarks state' !! line cell.2 = eMarks state !! line cell.2)
  ∧ (tokenizerFrame tokenize →
     src state' = src state ∧ tShift state' = tShift state
     ∧ bMarks state' = bMarks state ∧ eMarks state' = eMarks state).
Proof.
  intros Hcell.
  destruct (buildCell_final_state _ _ _ _ _ _ _ Hcell)
    as (st1 & Hs1 & Ht1 & Hb1 & He1 & Hs & Hmax & Ht & Hb & He).
  split.
  - rewrite Hmax, Ht, Hb, He. rewrite !lookup_partial_alter_eq. done.
  - intros Hframe.
    destruct (Hframe st1 (line cell.1) (line cell.2 + 1)) as (Hs2 & Ht2 & Hb2 & He2).
    rewrite Hs, Ht, Hb, He, Hs2, Ht2, Hb2, He2, Hs1, Ht1, Hb1, He1.
    rewrite !restore_entry. done.
Qed.

Lemma plainTokenizer_frame : tokenizerFrame plainTokenizer.
Proof. intros st a b. unfold plainTokenizer. by destruct st. Qed.

Lemma buildCell_restores_witness :
  match buildCell plainTokenizer noClass squareDoc exampleCell with
  | Ret (st, _, _) =>
      lineMax st = lineMax squareDoc ∧ tShift st = tShift squareDoc
      ∧ bMarks st = bMarks squareDoc ∧ eMarks st = eMarks squareDoc
  | _ => False
  end.
Proof.
  destruct (buildCell plainTokenizer noClass squareDoc exampleCell)
    as [[[st ref] content]| |] eqn:Hcell.
  - destruct (buildCell_restores _ _ _ _ _ _ _ Hcell) as [(Hmax & _) Hframe].
    destruct (Hframe plainTokenizer_frame) as (_ & Ht & Hb & He). done.
  - vm_compute in Hcell. discriminate.
  - vm_compute in Hcell. discriminate.
Defined.

(** The cells of a row, one after the other, leave the line bounds of the
    state as they were. *)
Lemma buildCells_restores
    (tokenize : StateBlock → Z → Z → StateBlock)
    (extractClass : list Z → option (string * list Z)) (cols : list CellSpan) :
  tokenizerFrame tokenize →
  ∀ state cells contents state' cells' contents',
    buildCells tokenize extractClass state cols cells contents
    = Ret (state', cells', contents') →
    lineMax state' = lineMax state ∧ src state' = src state
    ∧ tShift state' = tShift state ∧ bMarks state' = bMarks state
    ∧ eMarks state' = eMarks state.
Proof.
  intros Hframe. induction cols as [|cell cols IH];
    intros state cells contents state' cells' contents'; simpl.
  - by intros [= <- _ _].
  - destruct (buildCell tokenize extractClass state cell)
      as [[[st ref] content]| |] eqn:Hcell; [|done|done]. simpl.
    intros Hrest. apply IH in Hrest as (-> & -> & -> & -> & ->).
    destruct (buildCell_final_state _ _ _ _ _ _ _ Hcell)
      as (st1 & Hs1 & Ht1 & Hb1 & He1 & Hs & Hmax & Ht & Hb & He).
    destruct (Hframe st1 (line cell.1) (line cell.2 + 1)) as (Hs2 & Ht2 & Hb2 & He2).
    rewrite Hs, Ht, Hb, He, Hs2, Ht2, Hb2, He2, Hs1, Ht1, Hb1, He1.
    rewrite !restore_entry. done.
Qed.

(** ** The content map and the span resolver *)

Lemma buildCells_widths
    (tokenize : StateBlock → Z → Z → StateBlock)
    (extractClass : list Z → option (string * list Z)) (cols : list CellSpan) :
  ∀ state cells contents state' cells' contents',
    buildCells tokenize extractClass state cols cells contents
    = Ret (state', cells', contents') →
    length cells' = (length cells + length cols)%nat
    ∧ length contents' = (length contents + length cols)%nat.
Proof.
  induction cols as [|cell cols IH];
    intros state cells contents state' cells' contents'; simpl.
  - intros [= _ <- <-]. lia.
  - destruct (buildCell tokenize extractClass state cell)
      as [[[st ref] content]| |]; [|done|done]. simpl.
    intros [Hc Ht]%IH. rewrite length_app in Hc, Ht. simpl in *. lia.
Qed.

Lemma buildRows_widths
    (tokenize : StateBlock → Z → Z → StateBlock)
    (extractClass : list Z → option (string * list Z)) (maxRowLength : Z)
    (rws : list Row) :
  ∀ state cellsMap contentMap state' cellsMap' contentMap',
    buildRows tokenize extractClass maxRowLength state rws cellsMap contentMap
    = Ret (state', cellsMap', contentMap') →
    length <$> contentMap'
    = (length <$> contentMap) ++ ((λ r : Row, length r.2) <$> rws).
Proof.
  induction rws as [|[[rowLineStarts rowLineEnds] cols] rws IH];
    intros state cellsMap contentMap state' cellsMap' contentMap'; simpl.
  - intros [= _ _ <-]. by rewrite app_nil_r.
  - destruct (buildCells tokenize extractClass _ cols [] [])
      as [[[st cells] contents]| |] eqn:Hcells; [|done|done]. simpl.
    apply buildCells_widths in Hcells as [_ Hw]. simpl in Hw.
    destruct (_ <? maxRowLength).
    + intros H%IH. rewrite H, fmap_app. simpl. rewrite Hw.
      by rewrite <- app_assoc.
    + intros H%IH. rewrite H, fmap_app. simpl. rewrite Hw.
      by rewrite <- app_assoc.
Qed.

Lemma forRes_app {K A : Type} (l1 l2 : list K) (body : K → A → Res A) (a : A) :
  forRes (l1 ++ l2) body a = bindRes (forRes l1 body a) (forRes l2 body).
Proof.
  revert a. induction l1 as [|k l1 IH]; intros a; simpl; [done|].
  destruct (body k a); simpl; [apply IH | done | done].
Qed.

(** The two nested loops of [applySpans] run over [visited]. *)
Lemma applySpans_visited (contentMap : list (list (list Z)))
    (tokenMap : list (list nat)) (tokens : list Token) :
  applySpans contentMap tokenMap tokens
  = forRes (visited contentMap)
      (λ ij, applySpansAt contentMap tokenMap ij.1 ij.2) tokens.
Proof.
  unfold applySpans, visited.
  generalize (seq 0 (length (default [] (contentMap !! 0%nat)))) as js.
  generalize (seq 0 (length contentMap)) as is_.
  intros is_ js. revert tokens.
  induction is_ as [|i is_ IH]; intros tokens; simpl; [done|].
  rewrite forRes_app.
  assert (Hrow : ∀ ts, forRes js (λ j, applySpansAt contentMap tokenMap i j) ts
            = forRes (js ≫= λ j, [(i, j)])
                (λ ij, applySpansAt contentMap tokenMap ij.1 ij.2) ts).
  { clear. induction js as [|j js IHj]; intros ts; simpl; [done|].
    destruct (applySpansAt contentMap tokenMap i j ts); simpl; [apply IHj|done|done]. }
  rewrite <- Hrow.
  destruct (forRes js _ tokens); simpl; [apply IH | done | done].
Qed.

(** C7, the failing inputs.  The content map has, row by row, exactly as
    many entries as the row has scanned cells: the padding cells go to the
    token stream only.  The resolver visits the columns of row 0 in every
    row.  So in [raggedDoc], whose first row has one cell and whose second
    row ends in a colspan sentinel, the coordinate of the sentinel is not
    visited: all four cells stay and no cell gets a colspan, while
    [squareDoc] gets it; and in [shortMiddleDoc] the upward walk from the
    rowspan sentinel reads a token of the short row that does not exist. *)
Theorem contentMap_is_ragged :
  (∀ tokenize extractClass maxRowLength state rws state' cellsMap contentMap,
     buildRows tokenize extractClass maxRowLength state rws [] []
     = Ret (state', cellsMap, contentMap) →
     length <$> contentMap = (λ r : Row, length r.2) <$> rws)
  ∧ (∀ contentMap tokenMap tokens,
       applySpans contentMap tokenMap tokens
       = forRes (visited contentMap)
           (λ ij, applySpansAt contentMap tokenMap ij.1 ij.2) tokens)
  ∧ visited [[codes "a"]; [codes "b"; codes ">"]] = [(0, 0); (1, 0)]%nat
  ∧ runExample raggedDoc
    = Ret ([("yfm_table_open", []); ("yfm_tbody_open", []);
            ("yfm_tr_open", []);
            ("yfm_td_open", []); ("paragraph_open", []); ("inline", []);
            ("paragraph_close", []); ("yfm_td_close", []);
            ("yfm_td_open", []); ("yfm_td_close", []);
            ("yfm_tr_close", []);
            ("yfm_tr_open", []);
            ("yfm_td_open", []); ("paragraph_open", []); ("inline", []);
            ("paragraph_close", []); ("yfm_td_close", []);
            ("yfm_td_open", []); ("paragraph_open", []); ("inline", []);
            ("paragraph_close", []); ("yfm_td_close", []);
            ("yfm_tr_close", []);
            ("yfm_tbody_close", []); ("yfm_table_close", [])], true)
  ∧ runExample squareDoc
    = Ret ([("yfm_table_open", []); ("yfm_tbody_open", []);
            ("yfm_tr_open", []);
            ("yfm_td_open", []); ("paragraph_open", []); ("inline", []);
            ("paragraph_close", []); ("yfm_td_close", []);
            ("yfm_td_open", []); ("paragraph_open", []); ("inline", []);
            ("paragraph_close", []); ("yfm_td_close", []);
            ("yfm_tr_close", []);
            ("yfm_tr_open", []);
            ("yfm_td_open", [("colspan", "2")]); ("paragraph_open", []);
            ("inline", []); ("paragraph_close", []); ("yfm_td_close", []);
            ("yfm_tr_close", []);
            ("yfm_tbody_close", []); ("yfm_table_close", [])], true)
  ∧ runExample shortMiddleDoc = TypeError.
Proof.
  split; [|split; [|repeat split; vm_compute; reflexivity]].
  - intros tokenize extractClass maxRowLength state rws state' cellsMap contentMap H.
    by apply buildRows_widths in H.
  - apply applySpans_visited.
Qed.

(** ** The tree compactor *)

Lemma findTdClose_bounds (lvl : Z) (rest : list Token) :
  ∀ j0 j, findTdClose lvl rest j0 = Some j → (j0 ≤ j < j0 + length rest)%nat.
Proof.
  induction rest as [|t rest IH]; intros j0 j; simpl; [done|].
  destruct (_ && _).
  - intros [= <-]. lia.
  - intros H%IH. lia.
Qed.

Lemma collectSplices_items (rest : list Token) :
  ∀ i acc, collectSplices rest i acc = reverse (spliceItems rest i) ++ acc.
Proof.
  induction rest as [|t rest IH]; intros i acc; simpl; [done|].
  rewrite IH. destruct (tok_markForDeletion t); simpl.
  - rewrite reverse_cons, <- app_assoc. done.
  - done.
Qed.

Lemma spliceItems_starts (rest : list Token) :
  ∀ i sp, sp ∈ spliceItems rest i → (i ≤ sp.1 < i + length rest)%nat.
Proof.
  induction rest as [|t rest IH]; intros i sp; simpl.
  - by intros ?%elem_of_nil.
  - rewrite elem_of_app. intros [Hin | Hin].
    + destruct (tok_markForDeletion t).
      * apply list_elem_of_singleton in Hin as ->. simpl. lia.
      * by apply elem_of_nil in Hin.
    + apply IH in Hin. lia.
Qed.

(** The starts of the splices grow along the scan ... *)
Lemma spliceItems_sorted (rest : list Token) :
  ∀ i, StronglySorted (λ a b : nat * option nat, (a.1 < b.1)%nat)
         (spliceItems rest i).
Proof.
  induction rest as [|t rest IH]; intros i; simpl; [constructor|].
  destruct (tok_markForDeletion t); simpl; [|apply IH].
  constructor; [apply IH|].
  apply Forall_forall. intros sp Hsp%spliceItems_starts. simpl. lia.
Qed.

Lemma StronglySorted_reverse {A : Type} (R : A → A → Prop) (l : list A) :
  StronglySorted R l → StronglySorted (λ a b, R b a) (reverse l).
Proof.
  induction 1 as [|x l Hl IH Hx]; [constructor|].
  rewrite reverse_cons. apply StronglySorted_app_2; [| done |].
  - intros a b Ha Hb%list_elem_of_singleton. subst b.
    rewrite elem_of_reverse in Ha. rewrite Forall_forall in Hx. by apply Hx.
  - repeat constructor.
Qed.

Lemma foldl_reverse {A B : Type} (f : A → B → A) (a : A) (l : list B) :
  foldl f a (reverse l) = foldr (λ x acc, f acc x) a l.
Proof.
  induction l as [|x l IH]; simpl; [done|].
  by rewrite reverse_cons, foldl_app, IH.
Qed.

Lemma filterIdx_ext {A : Type} (keep keep' : nat → bool) (l : list A) :
  ∀ i, (∀ k, (i ≤ k < i + length l)%nat → keep k = keep' k) →
       filterIdx keep i l = filterIdx keep' i l.
Proof.
  induction l as [|x l IH]; intros i Hext; simpl; [done|].
  rewrite (Hext i) by (simpl; lia).
  rewrite (IH (S i)); [done|]. intros k Hk. apply Hext. simpl. lia.
Qed.

Lemma filterIdx_kept {A : Type} (keep : nat → bool) (n : nat) :
  ∀ (l : list A) i, (n ≤ length l)%nat →
    (∀ k, (i ≤ k < i + n)%nat → keep k = true) →
    filterIdx keep i l = take n l ++ filterIdx keep (i + n) (drop n l).
Proof.
  induction n as [|n IH]; intros l i Hn Hkeep; simpl.
  - by rewrite Nat.add_0_r, drop_0.
  - destruct l as [|x l]; simpl in *; [lia|].
    rewrite (Hkeep i) by lia. f_equal.
    rewrite (IH l (S i)) by (try lia; intros; apply Hkeep; lia).
    by replace (S i + n)%nat with (i + S n)%nat by lia.
Qed.

Lemma filterIdx_dropped {A : Type} (keep : nat → bool) (n : nat) :
  ∀ (l : list A) i, (n ≤ length l)%nat →
    (∀ k, (i ≤ k < i + n)%nat → keep k = false) →
    filterIdx keep i l = filterIdx keep (i + n) (drop n l).
Proof.
  induction n as [|n IH]; intros l i Hn Hkeep; simpl.
  - by rewrite Nat.add_0_r, drop_0.
  - destruct l as [|x l]; simpl in *; [lia|].
    rewrite (Hkeep i) by lia.
    rewrite (IH l (S i)) by (try lia; intros; apply Hkeep; lia).
    by replace (S i + n)%nat with (i + S n)%nat by lia.
Qed.

Lemma removedAt_spec (tableStart : nat) (tokens : list Token) (k : nat) :
  removedAt tableStart tokens k = true
  ↔ ∃ i j, (tableStart ≤ i < length tokens)%nat ∧ marked tokens i = true
           ∧ closeOf tokens i = Some j ∧ (i ≤ k ≤ j)%nat.
Proof.
  unfold removedAt. rewrite existsb_exists. split.
  - intros (i & Hin & Hi). apply in_seq in Hin.
    apply andb_true_iff in Hi as [Hm Hc].
    destruct (closeOf tokens i) as [j|] eqn:Hcl; [|done].
    apply andb_true_iff in Hc as [H1 H2].
    apply Nat.leb_le in H1. apply Nat.leb_le in H2.
    exists i, j. split; [lia|]. split; [done|]. split; [done | lia].
  - intros (i & j & Hi & Hm & Hc & Hk). exists i. split; [apply in_seq; lia|].
    rewrite Hm, Hc. simpl. apply andb_true_iff.
    split; apply Nat.leb_le; lia.
Qed.

Lemma noMarkedInside_spec (tableStart : nat) (tokens : list Token) (i j k : nat) :
  noMarkedInside tableStart tokens = true →
  (tableStart ≤ i < length tokens)%nat → marked tokens i = true →
  closeOf tokens i = Some j → (i < k ≤ j)%nat → marked tokens k = false.
Proof.
  unfold noMarkedInside. rewrite forallb_forall. intros Hall Hi Hm Hc Hk.
  specialize (Hall i ltac:(apply in_seq; lia)). rewrite Hm, Hc in Hall.
  simpl in Hall. rewrite forallb_forall in Hall.
  apply negb_true_iff. apply Hall. apply in_seq. lia.
Qed.

Lemma marked_lt_length (tokens : list Token) (i : nat) :
  marked tokens i = true → (i < length tokens)%nat.
Proof.
  unfold marked. destruct (tokens !! i) eqn:Hl; [|done].
  intros _. by eapply lookup_lt_Some.
Qed.

(** The forward search of the compactor finds the first close element
    at the depth it is given. *)
Lemma findTdClose_first (lvl : Z) (rest : list Token) :
  ∀ j0, findTdClose lvl rest j0
        = (λ r : nat * Token, (j0 + r.1)%nat) <$> list_find (isCloseAt lvl) rest.
Proof.
  induction rest as [|t rest IH]; intros j0; [done|].
  cbn [findTdClose list_find].
  destruct (decide (isCloseAt lvl t)) as [[Hty Hlvl]|Hno].
  - rewrite Hty, Hlvl, Z.eqb_refl. simpl. f_equal. lia.
  - destruct (String.eqb (tok_type t) "yfm_td_close") eqn:Hty.
    + apply String.eqb_eq in Hty.
      destruct (Z.eqb_spec (tok_level t) lvl) as [Hlvl|Hlvl].
      * by destruct Hno.
      * simpl. rewrite IH. destruct (list_find _ rest) as [[r x]|]; simpl; [|done].
        f_equal. lia.
    + simpl. rewrite IH. destruct (list_find _ rest) as [[r x]|]; simpl; [|done].
      f_equal. lia.
Qed.

Lemma closeOf_middle (pre rest : list Token) (t : Token) :
  closeOf (pre ++ t :: rest) (length pre)
  = findTdClose (tok_level t) rest (S (length pre)).
Proof.
  unfold closeOf. rewrite list_lookup_middle by done. simpl.
  rewrite findTdClose_first.
  replace (pre ++ t :: rest) with ((pre ++ [t]) ++ rest) by by rewrite <- app_assoc.
  rewrite drop_app_length'; [done|]. rewrite length_app. simpl. lia.
Qed.

Lemma marked_middle (pre rest : list Token) (t : Token) :
  marked (pre ++ t :: rest) (length pre) = tok_markForDeletion t.
Proof. unfold marked. by rewrite list_lookup_middle. Qed.

Lemma removedAt_from_next (tokens : list Token) (i k : nat) :
  (marked tokens i = false ∨ closeOf tokens i = None
   ∨ ∃ j, closeOf tokens i = Some j ∧ (j < k)%nat) →
  removedAt i tokens k = removedAt (S i) tokens k.
Proof.
  intros Hi. apply eq_true_iff_eq. rewrite !removedAt_spec. split.
  - intros (i' & j & Hr & Hm & Hc & Hk).
    destruct (decide (i' = i)) as [->|Hne].
    + destruct Hi as [Hi | [Hi | (j' & Hj' & Hlt)]]; [congruence | congruence |].
      assert (j' = j) as -> by congruence. lia.
    + exists i', j. repeat split; [lia | lia | done | done | lia | lia].
  - intros (i' & j & Hr & Hm & Hc & Hk).
    exists i', j. repeat split; [lia | lia | done | done | lia | lia].
Qed.

(** The splices from a suffix on, applied from the last one back, leave
    everything before the suffix alone and keep of the suffix what lies in
    no splice. *)
Lemma clear_suffix (tableStart : nat) (tokens : list Token) :
  firstKept tableStart tokens = true →
  noMarkedInside tableStart tokens = true →
  ∀ rest pre, tokens = pre ++ rest → (tableStart ≤ length pre)%nat →
    foldr (λ sp acc, applySplice acc sp) tokens (spliceItems rest (length pre))
    = pre ++ filterIdx (λ k, negb (removedAt (length pre) tokens k))
               (length pre) rest.
Proof.
  intros Hfirst Hinside.
  induction rest as [|t rest IH]; intros pre Htok Hpre.
  { simpl. by rewrite Htok. }
  set (i := length pre).
  assert (Hpre' : tokens = (pre ++ [t]) ++ rest) by by rewrite <- app_assoc.
  specialize (IH (pre ++ [t]) Hpre'). rewrite length_app in IH. simpl in IH.
  replace (length pre + 1)%nat with (S i) in IH by lia.
  specialize (IH ltac:(lia)).
  pose proof (marked_middle pre rest t) as Hmark.
  pose proof (closeOf_middle pre rest t) as Hclose.
  rewrite <- Htok in Hmark, Hclose. fold i in Hmark, Hclose.
  cbn [spliceItems]. rewrite foldr_app, IH. clear IH.
  assert (Hplain :
    (marked tokens i = false ∨ closeOf tokens i = None) →
    (pre ++ [t]) ++ filterIdx (λ k, negb (removedAt (S i) tokens k)) (S i) rest
    = pre ++ filterIdx (λ k, negb (removedAt i tokens k)) i (t :: rest)).
  { intros Hno. rewrite <- app_assoc. simpl. f_equal.
    assert (removedAt i tokens i = false) as ->.
    { apply not_true_is_false. rewrite removedAt_spec.
      intros (i' & j & Hr & Hm & Hc & Hk).
      assert (i' = i) as -> by lia. destruct Hno; congruence. }
    simpl. f_equal. apply filterIdx_ext. intros k Hk. f_equal. symmetry.
    apply removedAt_from_next. destruct Hno; auto. }
  destruct (tok_markForDeletion t) eqn:Hm; [|simpl; apply Hplain; by left].
  destruct (findTdClose (tok_level t) rest (S i)) as [j|] eqn:Hj;
    [|simpl; apply Hplain; by right].
  pose proof (findTdClose_bounds _ _ _ _ Hj) as Hjb.
  assert (i ≠ 0%nat) as Hi0.
  { intros Hz. unfold firstKept in Hfirst. rewrite Hz in Hmark.
    rewrite Hmark in Hfirst. simpl in Hfirst. rewrite orb_false_r in Hfirst.
    apply Nat.ltb_lt in Hfirst. lia. }
  cbn [foldr applySplice].
  destruct (Nat.eqb_spec i 0) as [|_]; [done|].
  destruct (Nat.eqb_spec j 0) as [|_]; [lia|]. cbn [negb andb].
  assert (Hlen : length tokens = (S i + length rest)%nat).
  { rewrite Htok, length_app. simpl. lia. }
  (* the suffix after [i] is untouched up to [j] *)
  rewrite (filterIdx_kept _ (j - i) rest (S i)); [|lia|].
  2:{ intros k Hk. apply negb_true_iff, not_true_is_false.
      rewrite removedAt_spec. intros (i' & j' & Hr & Hm' & Hc' & Hk').
      pose proof (noMarkedInside_spec tableStart tokens i j i' Hinside
                    ltac:(lia) Hmark Hclose ltac:(lia)). congruence. }
  unfold splice. rewrite <- (app_assoc pre [t]).
  rewrite take_app_length' by done.
  replace (i + (j - i + 1))%nat with (length pre + S (j - i))%nat by lia.
  rewrite drop_app_add' by done. cbn [app drop].
  rewrite drop_app_length' by (rewrite length_take; lia).
  f_equal.
  rewrite (filterIdx_dropped _ (S (j - i)) (t :: rest) i); [|simpl; lia|].
  2:{ intros k Hk. apply negb_false_iff. rewrite removedAt_spec.
      exists i, j. repeat split; [lia | lia | done | done | lia | lia]. }
  simpl. replace (i + S (j - i))%nat with (S i + (j - i))%nat by lia.
  apply filterIdx_ext. intros k Hk. f_equal.
  rewrite length_drop in Hk.
  symmetry. apply removedAt_from_next. right. right. exists j. split; [done | lia].
Qed.

(** ** The rule always comes to an end *)

Lemma bindRes_finished {A B : Type} (r : Res A) (k : A → Res B) :
  finished r → (∀ a, finished (k a)) → finished (bindRes r k).
Proof. destruct r; simpl; auto. Qed.

Lemma orThrow_finished {A : Type} (o : option A) : finished (orThrow o).
Proof. by destruct o. Qed.

Lemma forRes_finished {K A : Type} (ks : list K) (body : K → A → Res A) :
  (∀ k a, finished (body k a)) → ∀ a, finished (forRes ks body a).
Proof.
  intros Hbody. induction ks as [|k ks IH]; intros a; simpl; [done|].
  apply bindRes_finished; auto.
Qed.

Lemma colspanBack_finished contentMap tokenMap i col :
  ∀ factor tokens, finished (colspanBack contentMap tokenMap i col factor tokens).
Proof.
  induction col as [|col IH]; intros factor tokens; simpl; [done|].
  destruct (isSymbol _ COLSPAN_SYMBOL).
  - apply bindRes_finished; [apply orThrow_finished | auto].
  - destruct (isSymbol _ ROWSPAN_SYMBOL); [done|].
    apply bindRes_finished; [apply orThrow_finished | done].
Qed.

Lemma rowspanUp_finished contentMap tokenMap row j :
  ∀ factor tokens, finished (rowspanUp contentMap tokenMap row j factor tokens).
Proof.
  induction row as [|row IH]; intros factor tokens; simpl; [done|].
  destruct (isSymbol _ ROWSPAN_SYMBOL).
  - apply bindRes_finished; [apply orThrow_finished | auto].
  - destruct (isSymbol _ COLSPAN_SYMBOL); [done|].
    apply bindRes_finished; [apply orThrow_finished | done].
Qed.

Lemma applySpans_finished contentMap tokenMap tokens :
  finished (applySpans contentMap tokenMap tokens).
Proof.
  unfold applySpans. apply forRes_finished. intros i ts.
  apply forRes_finished. intros j ts'. unfold applySpansAt.
  destruct (_ && _); [done|].
  apply bindRes_finished.
  - destruct (isSymbol _ COLSPAN_SYMBOL); [|done].
    apply bindRes_finished; [apply orThrow_finished|].
    intros ref. apply colspanBack_finished.
  - intros ts''. destruct (isSymbol _ ROWSPAN_SYMBOL); [|done].
    destruct (_ =? _)%nat; [done|].
    apply bindRes_finished; [apply orThrow_finished|].
    intros ref. apply rowspanUp_finished.
Qed.

Lemma buildCell_finished tokenize extractClass state cell :
  finished (buildCell tokenize extractClass state cell).
Proof.
  destruct cell as [begin end_]. unfold buildCell. simpl.
  destruct (_ <? 2)%nat; [done|].
  apply bindRes_finished; [apply orThrow_finished|]. intros ct. simpl.
  apply bindRes_finished; [|done].
  unfold extractAndApplyClassFromToken.
  apply bindRes_finished; [apply orThrow_finished|]. intros ct'.
  by destruct (extractClass _) as [[? ?]|].
Qed.

Lemma buildCells_finished tokenize extractClass cols :
  ∀ state cells contents,
    finished (buildCells tokenize extractClass state cols cells contents).
Proof.
  induction cols as [|cell cols IH]; intros state cells contents; simpl; [done|].
  apply bindRes_finished; [apply buildCell_finished|].
  intros [[st token] content]. apply IH.
Qed.

Lemma buildRows_finished tokenize extractClass maxRowLength rws :
  ∀ state cellsMap contentMap,
    finished (buildRows tokenize extractClass maxRowLength state rws cellsMap
                contentMap).
Proof.
  induction rws as [|[[a b] cols] rws IH]; intros state cellsMap contentMap; simpl;
    [done|].
  apply bindRes_finished; [apply buildCells_finished|].
  intros [[st cells] contents]. destruct (_ <? maxRowLength); apply IH.
Qed.

(** For every state and every host, the rule returns or throws: its scan
    never runs out of rounds. *)
Lemma yfmTable_finished tokenize parseAttrs extractClass opts state startLine
    endLine silent :
  finished (yfmTable tokenize parseAttrs extractClass opts state startLine endLine
              silent).
Proof.
  unfold yfmTable.
  destruct (nlt _ _); [done|]. destruct (negb _); [done|].
  destruct silent; [done|].
  destruct (getTableRowPositions_total state
              (nplus (bMarks state !! startLine) (tShift state !! startLine))
              (eMarks state !! endLine) startLine opts) as [[rws e p] ->].
  destruct (if truthy e then e else None); [|done]. simpl.
  apply bindRes_finished; [apply buildRows_finished|].
  intros [[st cm] ctm].
  apply bindRes_finished; [apply applySpans_finished | done].
Qed.

(** * Further properties of the code *)

(** ** Detectors *)

Lemma checkCharsLoop_spec (order cur : list Z) :
  ∀ i : nat,
    checkCharsLoop order cur i = true
    ↔ ∀ k : nat, (k < length order)%nat → cur !! (i + k)%nat = order !! k.
Proof.
  induction order as [|o order IH]; intros i; simpl.
  - split; [intros _ k Hk; lia | done].
  - destruct (cur !! i) as [c|] eqn:Hc.
    + destruct (Z.eqb_spec c o) as [->|Hne].
      * rewrite IH. split.
        -- intros H [|k] Hk; [by rewrite Nat.add_0_r|].
           simpl. rewrite <- (H k) by lia. f_equal. lia.
        -- intros H k Hk. specialize (H (S k) ltac:(lia)). simpl in H.
           rewrite <- H. f_equal. lia.
      * split; [done|]. intros H. specialize (H 0%nat ltac:(lia)).
        rewrite Nat.add_0_r, Hc in H. simpl in H. congruence.
    + split; [done|]. intros H. specialize (H 0%nat ltac:(lia)).
      rewrite Nat.add_0_r, Hc in H. done.
Qed.

(** X1. At a position inside or after the text, [checkCharsOrder] answers
    true exactly when every character of the order stands in the text at
    its place after the position; in particular it answers false when the
    text ends before the order does. *)
Theorem checkCharsOrder_spec (order src : list Z) (p : Z) :
  0 <= p →
  checkCharsOrder order src (Some p) = true
  ↔ ∀ k : nat, (k < length order)%nat →
      charCodeAt src (p + Z.of_nat k) = order !! k.
Proof.
  intros Hp. unfold checkCharsOrder, slice_from. simpl.
  destruct (Z.ltb_spec p 0) as [Hlt|_]; [lia|].
  rewrite checkCharsLoop_spec. split.
  - intros H k Hk. rewrite <- (H k Hk). simpl. by rewrite charCodeAt_drop.
  - intros H k Hk. simpl. rewrite charCodeAt_drop by done. by apply H.
Qed.

Lemma checkCharsOrder_spec_witness :
  checkCharsOrder closeTableOrder (codes "a|#") (Some 1) = true
  ∧ checkCharsOrder closeTableOrder (codes "a|") (Some 1) = false.
Proof.
  split.
  - apply (checkCharsOrder_spec closeTableOrder (codes "a|#") 1); [lia|].
    intros [|[|k]] Hk; simpl in *; [reflexivity | reflexivity | lia].
  - apply not_true_is_false. intros H.
    pose proof (proj1 (checkCharsOrder_spec closeTableOrder (codes "a|") 1
                         ltac:(lia)) H 1%nat ltac:(simpl; lia)) as H1.
    discriminate.
Defined.

Lemma checkCharsOrder_heads (a b : Z) (o1 o2 : list Z) (src : list Z) (pos : num) :
  checkCharsOrder (a :: o1) src pos = true →
  checkCharsOrder (b :: o2) src pos = true → a = b.
Proof.
  unfold checkCharsOrder. rewrite !checkCharsLoop_spec. intros H1 H2.
  specialize (H1 0%nat ltac:(simpl; lia)). specialize (H2 0%nat ltac:(simpl; lia)).
  simpl in *. congruence.
Qed.

Lemma checkCharsOrder_seconds (a b c d : Z) (o1 o2 : list Z) (src : list Z)
    (pos : num) :
  checkCharsOrder (a :: b :: o1) src pos = true →
  checkCharsOrder (c :: d :: o2) src pos = true → b = d.
Proof.
  unfold checkCharsOrder. rewrite !checkCharsLoop_spec. intros H1 H2.
  specialize (H1 1%nat ltac:(simpl; lia)). specialize (H2 1%nat ltac:(simpl; lia)).
  simpl in *. congruence.
Qed.

Lemma checkCharsOrder_prefix (a : Z) (o : list Z) (src : list Z) (pos : num) :
  checkCharsOrder (a :: o) src pos = true → checkCharsOrder [a] src pos = true.
Proof.
  unfold checkCharsOrder. rewrite !checkCharsLoop_spec. intros H k Hk.
  simpl in Hk. assert (k = 0%nat) as -> by lia.
  apply (H 0%nat). simpl. lia.
Qed.

(** X2. How the detectors overlap at one position.  An open fence is no
    close fence, row marker or cell marker; a row marker is no close fence
    and no cell marker.  A close fence is no row marker, but it is a cell
    marker whenever its pipe is not escaped, and it is a close fence
    whether escaped or not: only the order of the tests in the scanner
    keeps a close fence from being read as a cell marker. *)
Theorem detector_overlap (src : list Z) (pos : num) :
  (isOpenTableOrder src pos = true →
   isCloseTableOrder src pos = false ∧ isRowOrder src pos = false
   ∧ isCellOrder src pos = false)
  ∧ (isRowOrder src pos = true →
     isCloseTableOrder src pos = false ∧ isCellOrder src pos = false)
  ∧ (isCloseTableOrder src pos = true →
     isRowOrder src pos = false ∧ isCellOrder src pos = notEscaped src pos).
Proof.
  unfold isOpenTableOrder, isCloseTableOrder, isCellOrder, isRowOrder,
    openTableOrder, closeTableOrder, rowStartOrder, cellStartOrder.
  split; [|split].
  - intros Ho.
    assert (checkCharsOrder [pipeChar; hashChar] src pos = false) as ->.
    { apply not_true_is_false. intros H.
      by pose proof (checkCharsOrder_heads _ _ _ _ _ _ Ho H). }
    assert (checkCharsOrder [pipeChar; pipeChar] src pos = false) as ->.
    { apply not_true_is_false. intros H.
      by pose proof (checkCharsOrder_heads _ _ _ _ _ _ Ho H). }
    assert (checkCharsOrder [pipeChar] src pos = false) as ->.
    { apply not_true_is_false. intros H.
      by pose proof (checkCharsOrder_heads _ _ _ _ _ _ Ho H). }
    done.
  - intros Hr. apply andb_true_iff in Hr as [Hr Hn]. rewrite Hr, Hn.
    assert (checkCharsOrder [pipeChar; hashChar] src pos = false) as ->.
    { apply not_true_is_false. intros H.
      by pose proof (checkCharsOrder_seconds _ _ _ _ _ _ _ _ Hr H). }
    split; [done|]. by rewrite andb_false_r.
  - intros Hc.
    assert (checkCharsOrder [pipeChar; pipeChar] src pos = false) as ->.
    { apply not_true_is_false. intros H.
      by pose proof (checkCharsOrder_seconds _ _ _ _ _ _ _ _ Hc H). }
    rewrite (checkCharsOrder_prefix _ _ _ _ Hc). simpl.
    split; [done|]. by rewrite andb_true_r.
Qed.

Lemma detector_overlap_witness :
  isRowOrder (codes "a|#") (Some 1) = false
  ∧ isCellOrder (codes "a|#") (Some 1) = notEscaped (codes "a|#") (Some 1).
Proof.
  destruct (detector_overlap (codes "a|#") (Some 1)) as (_ & _ & H).
  apply H. vm_compute. reflexivity.
Defined.

(** ** Inline spans *)

Lemma scanMarker_run (src : list Z) (max : num) (fuel : nat) :
  ∀ pos k, pos <= k < scanMarker fuel src pos max →
    charCodeAt src k = Some apostropheChar ∧ nlt (Some k) max = true.
Proof.
  induction fuel as [|fuel IH]; intros pos k Hk; cbn [scanMarker] in Hk; [lia|].
  destruct (nlt (Some pos) max) eqn:Hlt; simpl in Hk; [|lia].
  destruct (charCodeAt src pos) as [c|] eqn:Hc; simpl in Hk; [|lia].
  destruct (Z.eqb_spec c apostropheChar) as [->|Hne]; [|lia].
  destruct (decide (k = pos)) as [->|Hkp]; [done|].
  apply (IH (pos + 1)). lia.
Qed.

Lemma scanMarker_le_len (src : list Z) (max : num) (fuel : nat) :
  ∀ pos, pos <= len src → scanMarker fuel src pos max <= len src.
Proof.
  induction fuel as [|fuel IH]; intros pos Hp; cbn [scanMarker]; [done|].
  destruct (nlt (Some pos) max); simpl; [|done].
  destruct (charCodeAt src pos) as [c|] eqn:Hc; simpl; [|done].
  destruct (Z.eqb_spec c apostropheChar) as [->|Hne]; [|done].
  apply IH. apply charCodeAt_Some_range in Hc. lia.
Qed.


Lemma findCloser_shape (src : list Z) (start n : Z) (max : num) (fuel : nat) :
  ∀ matchEnd r, 0 <= matchEnd →
    findCloser fuel src start n matchEnd max = Some r →
    1 <= n ∧ matchEnd <= end_ r - n ∧ end_ r <= len src
    ∧ (∀ k, end_ r - n <= k < end_ r → charCodeAt src k = Some apostropheChar)
    ∧ steps r = end_ r - start.
Proof.
  induction fuel as [|fuel IH]; intros matchEnd r Hm; simpl; [done|].
  destruct (indexOf_spec src apostropheChar matchEnd Hm) as [[Hi _]|(Hge & Hc & _)].
  { rewrite Hi. done. }
  set (ms := indexOf src apostropheChar matchEnd) in *.
  destruct (Z.eqb_spec ms (-1)); [done|].
  pose proof (scanMarker_ge (length src) src max (ms + 1)) as Hsg.
  set (me := scanMarker (length src) src (ms + 1) max) in *.
  destruct (Z.eqb_spec (me - ms) n) as [Heq|Hne].
  - intros [= <-]. simpl. split; [lia|]. split; [lia|]. split.
    + apply scanMarker_le_len. apply charCodeAt_Some_range in Hc. lia.
    + split; [|done]. intros k Hk.
      destruct (decide (k = ms)) as [->|Hkm]; [done|].
      apply (scanMarker_run src max (length src) (ms + 1) k).
      fold me. lia.
  - intros H. apply IH in H; [|lia].
    destruct H as (H1 & H2 & H3). split; [done|]. split; [lia|done].
Qed.



Lemma findMathCloser_shape (src : list Z) (start : Z) (max : num) (fuel : nat) :
  ∀ cur r, 0 <= cur →
    findMathCloser fuel src start cur max = Some r →
    cur <= end_ r - 1 ∧ validMathCloser src max (end_ r - 1) = true
    ∧ steps r = end_ r - start.
Proof.
  induction fuel as [|fuel IH]; intros cur r Hcur; cbn [findMathCloser]; [done|].
  destruct (indexOf_spec src dollarChar cur Hcur) as [[Hi _]|(Hge & Hc & _)].
  { rewrite Hi. simpl. done. }
  set (m := indexOf src dollarChar cur) in *.
  destruct (Z.eqb_spec m 0); [by simpl|].
  destruct ((m =? -1) || ngt (Some m) max) eqn:Hout; [by simpl|].
  apply orb_false_iff in Hout as [_ Hmax].
  destruct (isEscaped src (Some m)) eqn:Hesc.
  - intros H. apply IH in H; [|lia]. destruct H as (H1 & H2). split; [lia|done].
  - destruct (codeIs (charCodeAt src (m - 1)) 32
              || codeIs (charCodeAt src (m - 1)) 9
              || nle (Some 48) (nextCharWithin src m max)
                 && nle (nextCharWithin src m max) (Some 57)) eqn:Hrej; [done|].
    intros [= <-]. simpl. replace (m + 1 - 1) with m by lia.
    split; [lia|]. split; [|done].
    unfold validMathCloser, acceptedMathCloser.
    apply orb_false_iff in Hrej as [Hrej1 Hrej2].
    rewrite Hc, Hesc, Hmax, Hrej1, Hrej2. reflexivity.
Qed.

(** X4. When [skipInlineMath] reports a span at [pos], the character at
    [pos] is an unescaped dollar sign and one of two things holds.  Either
    the next character is a dollar sign too, and the span is those two
    characters; or the span ends just after a dollar sign that is
    unescaped, within [max], not preceded by a blank and not followed by a
    digit, and [steps] is the distance from [pos] to that closing dollar
    sign itself: the cursor moves onto the closing dollar sign, one short
    of [end]. *)
Theorem skipInlineMath_match (src : list Z) (pos : Z) (max : num)
    (r : SkipInlineResult) :
  skipInlineMath src (Some pos) max = Some r →
  charCodeAt src pos = Some dollarChar
  ∧ (0 < pos → isEscaped src (Some pos) = false)
  ∧ ((charCodeAt src (pos + 1) = Some dollarChar
      ∧ nle (Some (pos + 1)) max = true
      ∧ end_ r = pos + 2 ∧ steps r = 2)
     ∨ (pos + 1 <= end_ r - 1
        ∧ validMathCloser src max (end_ r - 1) = true
        ∧ pos + steps r = end_ r - 1)).
Proof.
  unfold skipInlineMath, skipInlineMathAt, notEscaped.
  destruct (charCodeAt src pos) as [c|] eqn:Hc; cbn [codeIs negb]; [|done].
  destruct (Z.eqb_spec c dollarChar) as [->|Hne]; cbn [negb]; [|done].
  rewrite negb_involutive.
  destruct ((0 <? pos) && isEscaped src (Some pos)) eqn:Hesc; [done|].
  pose proof (charCodeAt_Some_range _ _ _ Hc) as Hr.
  assert (0 < pos → isEscaped src (Some pos) = false) as Hne.
  { intros Hp. apply andb_false_iff in Hesc as [Hesc|Hesc]; [|done].
    apply Z.ltb_ge in Hesc. lia. }
  destruct (codeIs (nextCharWithin src pos max) 32
            || codeIs (nextCharWithin src pos max) 9); [done|].
  destruct (codeIs (nextCharWithin src pos max) dollarChar) eqn:Hnext.
  - intros [= <-]. cbn [end_ steps]. split; [done|]. split; [done|]. left.
    unfold nextCharWithin in Hnext.
    destruct (nle (Some (pos + 1)) max) eqn:Hle; [|done].
    destruct (charCodeAt src (pos + 1)) as [d|]; [|done].
    simpl in Hnext. apply Z.eqb_eq in Hnext as ->. done.
  - intros H. apply findMathCloser_shape in H; [|lia].
    destruct H as (H1 & H2 & H3).
    split; [done|]. split; [done|]. right. split; [done|]. split; [done|lia].
Qed.

Lemma skipInlineMath_match_witness :
  charCodeAt (codes "a $x|y$ b") 2 = Some dollarChar
  ∧ validMathCloser (codes "a $x|y$ b") (Some 9) 6 = true.
Proof.
  destruct (skipInlineMath_match (codes "a $x|y$ b") 2 (Some 9)
              {| end_ := 7; steps := 4 |} ltac:(vm_compute; reflexivity))
    as (H1 & _ & [(_ & _ & H & _)|(_ & H2 & _)]).
  - simpl in H. discriminate.
  - split; [exact H1 | exact H2].
Defined.

(** ** The cursor *)

Lemma nextStep_line_table (state : StateBlock) (it : StateIterator) :
  _lineEnds it = eMarks state !! _line it →
  _lineEnds (nextStep state it) = eMarks state !! _line (nextStep state it).
Proof. unfold nextStep. by destruct (ngt _ _). Qed.

Lemma nextStep_line (state : StateBlock) (it : StateIterator) :
  _line it <= _line (nextStep state it) <= _line it + 1.
Proof. unfold nextStep. destruct (ngt _ _); simpl; lia. Qed.

Lemma iter_line (state : StateBlock) (n : nat) (it : StateIterator) :
  _line it <= _line (Nat.iter n (nextStep state) it) <= _line it + Z.of_nat n.
Proof.
  induction n as [|n IH]; simpl; [lia|].
  pose proof (nextStep_line state (Nat.iter n (nextStep state) it)). lia.
Qed.

(** X5. A cursor made by the constructor and moved any number of steps
    always holds, as its line end, the end mark the line table has for the
    line it is on, and it has moved down by no more lines than steps taken,
    never up. *)
Theorem cursor_line_table (state : StateBlock) (pos : num) (line0 k : Z) :
  let it := next state k (newStateIterator state pos line0) in
  _lineEnds it = eMarks state !! _line it
  ∧ line0 <= _line it <= line0 + Z.max k 0.
Proof.
  unfold next. split.
  - induction (Z.to_nat k) as [|n IH]; simpl; [done|].
    by apply nextStep_line_table.
  - pose proof (iter_line state (Z.to_nat k) (newStateIterator state pos line0)) as H.
    simpl in H. lia.
Qed.

(** X6. On a line that ends at offset [e], a cursor at [p <= e] visits
    every offset up to and including [e] without changing line, and the
    step after [e] puts it on the next line at that line's start mark plus
    its indentation, with that line's end mark. *)
Theorem cursor_walk (state : StateBlock) (it : StateIterator) (p e : Z) :
  _pos it = Some p → _lineEnds it = Some e → p <= e →
  (∀ k, 0 <= k <= e - p →
     next state k it
     = {| _pos := Some (p + k); _line := _line it; _lineEnds := Some e |})
  ∧ next state (e - p + 1) it
    = {| _pos := nplus (bMarks state !! (_line it + 1))
                   (tShift state !! (_line it + 1));
         _line := _line it + 1;
         _lineEnds := eMarks state !! (_line it + 1) |}.
Proof.
  intros Hp He Hpe.
  assert (∀ k, 0 <= k <= e - p →
     next state k it
     = {| _pos := Some (p + k); _line := _line it; _lineEnds := Some e |}) as Hin.
  { intros k Hk. unfold next.
    rewrite (next_within state it p e (Z.to_nat k) Hp He) by lia.
    by rewrite Z2Nat.id by lia. }
  split; [exact Hin|].
  unfold next. replace (Z.to_nat (e - p + 1)) with (S (Z.to_nat (e - p))) by lia.
  simpl. specialize (Hin (e - p) ltac:(lia)). unfold next in Hin. rewrite Hin.
  rewrite nextStep_cross with (e := e); simpl; [done | f_equal; lia | done].
Qed.

Lemma cursor_walk_witness :
  next (hostState (joinLines ["ab"; "  cd"])) 3
    (newStateIterator (hostState (joinLines ["ab"; "  cd"])) (Some 0) 0)
  = {| _pos := Some 5; _line := 1; _lineEnds := Some 7 |}.
Proof.
  destruct (cursor_walk (hostState (joinLines ["ab"; "  cd"]))
              (newStateIterator (hostState (joinLines ["ab"; "  cd"])) (Some 0) 0)
              0 2 eq_refl eq_refl ltac:(lia)) as [_ H].
  exact H.
Defined.

(** X7. A cursor that has no position, or stands on a line without an end
    mark, never changes line again: without a position it does not move at
    all, and without an end mark its position just grows by the steps
    taken. *)
Theorem cursor_off_table (state : StateBlock) (it : StateIterator) (k : Z) :
  0 <= k → _pos it = None ∨ _lineEnds it = None →
  next state k it
  = {| _pos := nadd (_pos it) k; _line := _line it; _lineEnds := _lineEnds it |}.
Proof.
  intros Hk Hoff. unfold next.
  rewrite <- (Z2Nat.id k Hk) at 2. clear Hk.
  induction (Z.to_nat k) as [|n IH].
  - simpl. destruct it as [[p|] l e]; simpl; [|done].
    by rewrite Z.add_0_r.
  - rewrite Nat.iter_succ, IH. unfold nextStep. simpl.
    assert (ngt (nadd (nadd (_pos it) (Z.of_nat n)) 1) (_lineEnds it) = false)
      as ->.
    { destruct Hoff as [-> | ->].
      - unfold ngt, nlt. simpl. by destruct (_lineEnds it).
      - unfold ngt, nlt. simpl. by destruct (nadd _ _). }
    f_equal. destruct (_pos it) as [p|]; simpl; [|done]. f_equal. lia.
Qed.

Lemma cursor_off_table_witness :
  next (hostState (codes "ab")) 4 danglingLine
  = {| _pos := Some 7; _line := 7; _lineEnds := None |}.
Proof.
  apply (cursor_off_table (hostState (codes "ab")) danglingLine 4);
    [lia | right; reflexivity].
Defined.

(** ** The scan and what it records *)

Lemma scanLoop_more_fuel (state : StateBlock) (opts : YfmTablePluginOptions)
    (endPosition : num) (fuel : nat) :
  ∀ fuel' s s', (fuel ≤ fuel')%nat →
    scanLoop fuel state opts endPosition s = Some s' →
    scanLoop fuel' state opts endPosition s = Some s'.
Proof.
  induction fuel as [|fuel IH]; intros fuel' s s' Hle; simpl; [done|].
  destruct fuel' as [|fuel']; [lia|]. simpl.
  destruct (negb _); [done|]. destruct (bool_decide _); [done|].
  destruct (scanBody state opts s) as [s1 [|]]; [|done].
  apply IH. lia.
Qed.

Lemma scanStart_fuel (state : StateBlock) (startPosition endPosition : num)
    (startLine : Z) :
  (scanMeasure state (toInteger endPosition)
     (iter (scanStart state startPosition startLine))
   < scanFuel state endPosition)%nat.
Proof.
  unfold scanFuel, scanMeasure.
  set (E := toInteger endPosition).
  pose proof (roomLeft_bound E (_pos (iter (scanStart state startPosition startLine)))).
  assert (linesAfter state (_line (iter (scanStart state startPosition startLine)))
          ≤ size (bMarks state))%nat.
  { unfold linesAfter. rewrite <- (size_dom (D := gset Z)).
    apply subseteq_size. intros k. rewrite elem_of_filter. tauto. }
  nia.
Qed.

(** X8. The scan loop of [getTableRowPositions] ends on every input: for
    every state, bounds and options it stops within as many rounds as the
    line table has entries, plus one, times the end position plus two, and
    allowing more rounds does not change what it returns. *)
Theorem scan_terminates (state : StateBlock) (startPosition endPosition : num)
    (startLine : Z) (opts : YfmTablePluginOptions) :
  ∃ s, ∀ fuel,
    (S (size (bMarks state)) * Z.to_nat (toInteger endPosition + 2) < fuel)%nat →
    scanLoop fuel state opts endPosition (scanStart state startPosition startLine)
    = Some s.
Proof.
  destruct (scanLoop_enough_fuel state opts endPosition
              (scanFuel state endPosition)
              (scanStart state startPosition startLine)
              (scanStart_fuel state startPosition endPosition startLine))
    as [s Hs].
  exists s. intros fuel Hfuel.
  apply (scanLoop_more_fuel state opts endPosition (scanFuel state endPosition));
    [unfold scanFuel; lia | exact Hs].
Qed.

Lemma scan_terminates_witness :
  ∃ s, scanLoop 1000 squareDoc defaultOpts (Some 30)
         (scanStart squareDoc (Some 0) 0)
       = Some s.
Proof.
  destruct (scan_terminates squareDoc (Some 0) (Some 30) 0 defaultOpts) as [s Hs].
  exists s. apply Hs. vm_compute. lia.
Defined.

Lemma scanLoop_invariant (state : StateBlock) (opts : YfmTablePluginOptions)
    (endPosition : num) (P : Scan → Prop) :
  (∀ s, P s → P (scanBody state opts s).1) →
  ∀ fuel s s', P s → scanLoop fuel state opts endPosition s = Some s' → P s'.
Proof.
  intros Hstep. induction fuel as [|fuel IH]; intros s s' HP; simpl; [done|].
  destruct (negb _); [by intros [= <-]|].
  destruct (bool_decide _); [by intros [= <-]|].
  specialize (Hstep s HP).
  destruct (scanBody state opts s) as [s1 [|]]; simpl in Hstep.
  - by apply IH.
  - by intros [= <-].
Qed.

Lemma spanShape_mono (l l' : Z) (c : CellSpan) :
  l <= l' → spanShape l c → spanShape l' c.
Proof. unfold spanShape. lia. Qed.

Lemma recordsOk_mono (first : Z) (s s' : Scan) :
  rows s' = rows s → currentRow s' = currentRow s → colStart s' = colStart s →
  rowStart s' = rowStart s → _line (iter s) <= _line (iter s') →
  recordsOk first s → recordsOk first s'.
Proof.
  unfold recordsOk. intros -> -> -> -> Hle (H1 & H2 & H3 & H4 & H5).
  split; [lia|]. split.
  { eapply Forall_impl; [exact H2|]. simpl. intros r [? ?]. split; [done|lia]. }
  split.
  { eapply Forall_impl; [exact H3|]. intros c. by apply spanShape_mono. }
  split.
  { intros c Hc. specialize (H4 c Hc). lia. }
  intros r Hr. specialize (H5 r Hr). lia.
Qed.

Lemma recordsOk_advance (state : StateBlock) (first k : Z) (s : Scan) :
  recordsOk first s → recordsOk first (advance state k s).
Proof.
  apply recordsOk_mono; try done.
  unfold advance, next. simpl. apply iter_line.
Qed.

Lemma recordsOk_rowData (state : StateBlock) (first : Z) (s s' : Scan) (n : nat) :
  rowData s' = rowData s → iter s' = Nat.iter n (nextStep state) (iter s) →
  recordsOk first s → recordsOk first s'.
Proof.
  unfold rowData. intros [= H1 H2 H3 H4 _] Hit.
  apply recordsOk_mono; try done. rewrite Hit. apply iter_line.
Qed.

Lemma recordsOk_addRow (first : Z) (s : Scan) :
  recordsOk first s → recordsOk first (addRow s).
Proof.
  unfold recordsOk, addRow. simpl. intros (H1 & H2 & H3 & H4 & H5).
  split; [done|]. split; [|split; [done|split; done]].
  set (row1 := match colStart s with
               | Some c => currentRow s ++ [(c, stats (iter s))]
               | None => currentRow s
               end).
  assert (Forall (spanShape (_line (iter s))) row1) as Hrow1.
  { unfold row1. destruct (colStart s) as [c|] eqn:Hc; [|done].
    apply Forall_app. split; [done|]. apply Forall_singleton.
    unfold spanShape. simpl. specialize (H4 c eq_refl). lia. }
  destruct (rowStart s) as [r|] eqn:Hr; [|done].
  destruct (negb (length row1 =? 0)%nat && negb (r =? 0)) eqn:Hpush; [|done].
  apply andb_true_iff in Hpush as [Hlen Hr0].
  apply Forall_app. split; [done|]. apply Forall_singleton.
  specialize (H5 r eq_refl). unfold rowShape. simpl.
  split; [|lia]. split; [lia|]. split.
  { apply negb_true_iff, Z.eqb_neq in Hr0. done. }
  split; [lia|]. split; [|done].
  apply negb_true_iff, Nat.eqb_neq in Hlen. by destruct row1.
Qed.

Lemma recordsOk_scanMarkers (state : StateBlock) (first : Z) (s : Scan) :
  recordsOk first s → recordsOk first (scanMarkers state s).1.
Proof.
  intros Hok. unfold scanMarkers.
  destruct (isOpenTableOrder _ _).
  { simpl. by apply recordsOk_advance. }
  destruct (isCloseTableOrder _ _).
  { destruct (tableLevel s =? 0); simpl.
    - apply recordsOk_addRow, (recordsOk_advance state _ (len closeTableOrder))
        in Hok.
      exact Hok.
    - by apply recordsOk_advance. }
  destruct (0 <? tableLevel s).
  { simpl. by apply recordsOk_advance. }
  destruct (isRowOrder _ _).
  { destruct (default false (rowMap s !! tableLevel s)); simpl.
    - apply recordsOk_addRow, (recordsOk_advance state _ (len rowStartOrder))
        in Hok.
      exact Hok.
    - apply (recordsOk_advance state _ (len rowStartOrder)) in Hok.
      destruct Hok as (H1 & H2 & H3 & H4 & H5).
      unfold recordsOk. simpl. split; [done|]. split; [done|]. split; [done|].
      split.
      + intros c [= <-]. apply Z.le_refl.
      + intros r [= <-]. split; [exact H1 | apply Z.le_refl]. }
  destruct (isCellOrder _ _).
  { simpl.
    pose proof (nextStep_line state (iter s)) as Hl.
    destruct Hok as (H1 & H2 & H3 & H4 & H5).
    unfold recordsOk, advance, next. simpl. split; [lia|]. split.
    { eapply Forall_impl; [exact H2|]. simpl. intros r [? ?]. split; [done|lia]. }
    split.
    { assert (Forall (spanShape (_line (iter s)))
                match colStart s with
                | Some c => currentRow s ++ [(c, stats (iter s))]
                | None => currentRow s
                end) as Hrow1.
      { destruct (colStart s) as [c|] eqn:Hc; [|done].
        apply Forall_app. split; [done|]. apply Forall_singleton.
        unfold spanShape. simpl. specialize (H4 c eq_refl). lia. }
      eapply Forall_impl; [exact Hrow1|]. intros c. apply spanShape_mono. lia. }
    split.
    + intros c [= <-]. apply Z.le_refl.
    + intros r Hr. specialize (H5 r Hr). lia. }
  simpl. by apply recordsOk_advance.
Qed.

Lemma recordsOk_scanBody (state : StateBlock) (opts : YfmTablePluginOptions)
    (first : Z) (s : Scan) :
  recordsOk first s → recordsOk first (scanBody state opts s).1.
Proof.
  intros Hok. unfold scanBody.
  assert (recordsOk first (fenceToggles state opts s)) as Hf.
  { destruct (fenceToggles_advances state opts s) as [n Hn].
    destruct (fenceToggles_frame state opts s) as (Hd & _).
    by eapply recordsOk_rowData. }
  destruct (isInsideCode _ || isInsideMath _).
  { simpl. by apply recordsOk_advance. }
  assert (recordsOk first (liquidToggles state (fenceToggles state opts s))) as Hl.
  { destruct (liquidToggles_advances state (fenceToggles state opts s)) as [n Hn].
    destruct (liquidToggles_frame state (fenceToggles state opts s)) as (Hd & _).
    by eapply recordsOk_rowData. }
  destruct (isInsideLiquidVariable _).
  { simpl. by apply recordsOk_advance. }
  destruct (inlineSkip _ _ _).
  { simpl. by apply recordsOk_advance. }
  by apply recordsOk_scanMarkers.
Qed.

Lemma recordsOk_scanStart (state : StateBlock) (startPosition : num)
    (startLine : Z) :
  recordsOk startLine (scanStart state startPosition startLine).
Proof.
  unfold recordsOk, scanStart. simpl.
  split; [lia|]. split; [done|]. split; [done|]. split; done.
Qed.

(** X9. Every row [getTableRowPositions] returns starts on or after the
    scan's first line and on a line other than [0], ends on or after the
    line it starts on, and has at least one cell; every cell of it begins
    on or before the line it ends on, and ends on or before the row's last
    line. *)
Theorem scan_rows_well_formed (state : StateBlock)
    (startPosition endPosition : num) (startLine : Z)
    (opts : YfmTablePluginOptions) :
  ∃ r, getTableRowPositions state startPosition endPosition startLine opts = Some r
       ∧ Forall (rowShape startLine) (rp_rows r).
Proof.
  unfold getTableRowPositions.
  destruct (scanLoop_enough_fuel state opts endPosition
              (scanFuel state endPosition)
              (scanStart state startPosition startLine)
              (scanStart_fuel state startPosition endPosition startLine))
    as [s Hs].
  rewrite Hs. simpl. eexists. split; [done|]. simpl.
  pose proof (scanLoop_invariant state opts endPosition (recordsOk startLine)
                (recordsOk_scanBody state opts startLine) _ _ _
                (recordsOk_scanStart state startPosition startLine) Hs)
    as (_ & Hrows & _).
  eapply Forall_impl; [exact Hrows|]. simpl. by intros r [? _].
Qed.

Lemma scanBody_end (state : StateBlock) (opts : YfmTablePluginOptions)
    (s s' : Scan) (continue : bool) :
  scanBody state opts s = (s', continue) →
  if continue then endOfTable s' = endOfTable s
  else endOfTable s' = Some (_line (iter s') + 2).
Proof.
  unfold scanBody.
  destruct (fenceToggles_frame state opts s) as (_ & _ & E1).
  set (s1 := fenceToggles state opts s) in *.
  destruct (liquidToggles_frame state s1) as (_ & _ & E2).
  set (s2 := liquidToggles state s1) in *.
  destruct (isInsideCode s1 || isInsideMath s1); [by intros [= <- <-]|].
  destruct (isInsideLiquidVariable s2); [intros [= <- <-]; simpl; congruence|].
  destruct (inlineSkip state opts s2); [intros [= <- <-]; simpl; congruence|].
  unfold scanMarkers. intros H.
  repeat match type of H with
    | context [if ?b then _ else _] => destruct b
    end; injection H as <- <-; simpl; congruence.
Qed.

Lemma scanLoop_end (state : StateBlock) (opts : YfmTablePluginOptions)
    (endPosition : num) (first : Z) (fuel : nat) :
  ∀ s s', recordsOk first s → endOfTable s = None →
    scanLoop fuel state opts endPosition s = Some s' →
    recordsOk first s' ∧ endOk first s'.
Proof.
  induction fuel as [|fuel IH]; intros s s' Hok Hnone; simpl; [done|].
  assert (recordsOk first s ∧ endOk first s) as Hstay.
  { split; [done|]. unfold endOk. by rewrite Hnone. }
  destruct (negb _); [by intros [= <-]|].
  destruct (bool_decide _); [by intros [= <-]|].
  pose proof (recordsOk_scanBody state opts first s Hok) as Hok1.
  destruct (scanBody state opts s) as [s1 continue] eqn:Hbody.
  pose proof (scanBody_end state opts s s1 continue Hbody) as Hend.
  destruct continue; simpl in Hok1, Hend.
  - apply IH; [done | congruence].
  - intros [= <-]. split; [done|]. unfold endOk. rewrite Hend.
    destruct Hok1 as (H1 & H2 & _). split; [lia|].
    eapply Forall_impl; [exact H2|]. simpl. intros r [_ ?]. lia.
Qed.

Lemma scan_end_bound (state : StateBlock) (startPosition endPosition : num)
    (startLine : Z) (opts : YfmTablePluginOptions) (r : RowPositions) :
  getTableRowPositions state startPosition endPosition startLine opts = Some r →
  match rp_endOfTable r with
  | Some e => startLine + 2 <= e ∧ Forall (λ row : Row, row.1.2 + 2 <= e) (rp_rows r)
  | None => True
  end.
Proof.
  unfold getTableRowPositions.
  destruct (scanLoop _ _ _ _ _) as [s|] eqn:Hs; [|done].
  intros [= <-]. simpl.
  apply (scanLoop_end state opts endPosition startLine) in Hs;
    [|apply recordsOk_scanStart|done].
  by destruct Hs as [_ Hs].
Qed.

(** X10. When [getTableRowPositions] reports an end of the table, that
    line number is at least two more than the scan's first line, and at
    least two more than the last line of every row it returns: it is never
    [0], and no row reaches beyond the line before the end. *)
Theorem scan_end_after_rows (state : StateBlock)
    (startPosition endPosition : num) (startLine : Z)
    (opts : YfmTablePluginOptions) :
  ∃ r, getTableRowPositions state startPosition endPosition startLine opts = Some r
       ∧ match rp_endOfTable r with
         | Some e =>
             startLine + 2 <= e
             ∧ Forall (λ row : Row, row.1.2 + 2 <= e) (rp_rows r)
         | None => True
         end.
Proof.
  destruct (getTableRowPositions_total state startPosition endPosition startLine
              opts) as [r Hr].
  exists r. split; [done|]. by eapply scan_end_bound.
Qed.

(** X11. A table opened in a text that holds no close fence anywhere is
    never built: whatever the options and whatever lies between, the
    non-silent rule returns false and adds to the state only the hidden
    lint token. *)
Theorem no_close_fence_lint
    (tokenize : StateBlock → Z → Z → StateBlock)
    (parseAttrs : list Z → list (string * list string))
    (extractClass : list Z → option (string * list Z))
    (opts : YfmTablePluginOptions) (state : StateBlock) (startLine endLine : Z) :
  let startPosition := nplus (bMarks state !! startLine) (tShift state !! startLine) in
  let endPosition := eMarks state !! endLine in
  nlt (nplus endPosition (Z.opp <$> startPosition)) (Some 2) = false →
  isOpenTableOrder (src state) startPosition = true →
  absent closeTableOrder (src state) = true →
  yfmTable tokenize parseAttrs extractClass opts state startLine endLine false
  = Ret (setTokens (tokens state ++ [lintToken (level state) startLine endLine]) state,
         false).
Proof.
  intros startPosition endPosition Hgate Hopen Habsent. unfold yfmTable.
  fold startPosition endPosition. rewrite Hgate, Hopen. simpl.
  pose proof (no_close_fence_no_end state startPosition endPosition startLine opts
                Habsent) as Hscan.
  destruct (getTableRowPositions _ _ _ _ _) as [[rws e p]|]; [|done].
  simpl in Hscan. injection Hscan as ->. simpl.
  destruct state. unfold modToken, setTokens, push. simpl.
  do 2 f_equal. f_equal.
  rewrite !alter_last. done.
Qed.

Lemma no_close_fence_lint_witness :
  yfmTable plainTokenizer noAttrs noClass inlineCodeOpts unterminatedDoc 0 2 false
  = Ret (setTokens [lintToken 0 0 2] unterminatedDoc, false).
Proof.
  apply (no_close_fence_lint plainTokenizer noAttrs noClass inlineCodeOpts
           unterminatedDoc 0 2); vm_compute; reflexivity.
Defined.

(** ** The rule as a whole *)

Lemma padCells_frame (n : nat) :
  ∀ state,
    src (padCells n state) = src state ∧ bMarks (padCells n state) = bMarks state
    ∧ eMarks (padCells n state) = eMarks state
    ∧ tShift (padCells n state) = tShift state
    ∧ lineMax (padCells n state) = lineMax state.
Proof.
  induction n as [|n IH]; intros state; simpl; [done|].
  destruct (IH (setTokens
                  ((tokens state ++ [newToken "yfm_td_open" "td" 1 (level state)])
                   ++ [newToken "yfm_td_close" "td" (-1) (level state + 1 - 1)])
                  (setLevel (level state + 1 - 1)
                     (setTokens
                        (tokens state ++ [newToken "yfm_td_open" "td" 1 (level state)])
                        (setLevel (level state + 1) state)))))
    as (-> & -> & -> & -> & ->).
  done.
Qed.

Lemma buildRows_frame
    (tokenize : StateBlock → Z → Z → StateBlock)
    (extractClass : list Z → option (string * list Z)) (maxRowLength : Z)
    (rws : list Row) :
  tokenizerFrame tokenize →
  ∀ state cellsMap contentMap state' cellsMap' contentMap',
    buildRows tokenize extractClass maxRowLength state rws cellsMap contentMap
    = Ret (state', cellsMap', contentMap') →
    src state' = src state ∧ bMarks state' = bMarks state
    ∧ eMarks state' = eMarks state ∧ tShift state' = tShift state.
Proof.
  intros Hframe.
  induction rws as [|[[rowLineStarts rowLineEnds] cols] rws IH];
    intros state cellsMap contentMap state' cellsMap' contentMap'; simpl.
  - by intros [= <- _ _].
  - destruct (buildCells tokenize extractClass _ cols [] [])
      as [[[st cells] contents]| |] eqn:Hcells; [|done|done]. simpl.
    apply (buildCells_restores _ _ _ Hframe) in Hcells
      as (_ & Hs & Ht & Hb & He). simpl in Hs, Ht, Hb, He.
    destruct (_ <? maxRowLength).
    + intros H%IH. simpl in H.
      destruct (padCells_frame (Z.to_nat (maxRowLength - Z.of_nat (length cols))) st)
        as (Ps & Pb & Pe & Pt & _).
      destruct H as (-> & -> & -> & ->).
      rewrite Ps, Pb, Pe, Pt, Hs, Ht, Hb, He. done.
    + intros H%IH. simpl in H. destruct H as (-> & -> & -> & ->).
      rewrite Hs, Ht, Hb, He. done.
Qed.

(** X12. Whatever the rule does, on a host whose tokenizer leaves the text
    and the line arrays alone it hands back the state with the text, the
    start marks, the end marks, the indentations and [lineMax] it was
    called with; and when it returns false it leaves the current line
    as it was. *)
Theorem yfmTable_frame
    (tokenize : StateBlock → Z → Z → StateBlock)
    (parseAttrs : list Z → list (string * list string))
    (extractClass : list Z → option (string * list Z))
    (opts : YfmTablePluginOptions) (state : StateBlock) (startLine endLine : Z)
    (silent : bool) (state' : StateBlock) (result : bool) :
  tokenizerFrame tokenize →
  yfmTable tokenize parseAttrs extractClass opts state startLine endLine silent
  = Ret (state', result) →
  src state' = src state ∧ bMarks state' = bMarks state
  ∧ eMarks state' = eMarks state ∧ tShift state' = tShift state
  ∧ lineMax state' = lineMax state
  ∧ (result = false → stateLine state' = stateLine state).
Proof.
  intros Hframe. unfold yfmTable.
  destruct (nlt _ _); [by intros [= <- <-]|].
  destruct (negb _); [by intros [= <- <-]|].
  destruct silent; [by intros [= <- <-]|].
  destruct (getTableRowPositions _ _ _ _ _) as [[rws e p]|]; [|done].
  destruct (if truthy e then e else None) as [eot|]; [|by intros [= <- <-]].
  simpl.
  destruct (buildRows _ _ _ _ _ _ _) as [[[st cellsMap] contentMap]| |] eqn:Hrows;
    [|done|done].
  apply (buildRows_frame _ _ _ _ Hframe) in Hrows as (Hs & Hb & He & Ht).
  simpl in Hs, Hb, He, Ht. simpl.
  destruct (applySpans contentMap cellsMap (tokens st)) as [ts| |]; [|done|done].
  simpl. intros [= <- <-]. simpl. done.
Qed.

Lemma yfmTable_frame_witness :
  match yfmTable plainTokenizer noAttrs noClass defaultOpts squareDoc 0
          (lineMax squareDoc) false with
  | Ret (st, _) =>
      src st = src squareDoc ∧ bMarks st = bMarks squareDoc
      ∧ eMarks st = eMarks squareDoc ∧ tShift st = tShift squareDoc
      ∧ lineMax st = lineMax squareDoc
  | _ => False
  end.
Proof.
  destruct (yfmTable plainTokenizer noAttrs noClass defaultOpts squareDoc 0
              (lineMax squareDoc) false) as [[st b]| |] eqn:H.
  - destruct (yfmTable_frame plainTokenizer noAttrs noClass defaultOpts squareDoc
                0 (lineMax squareDoc) false st b plainTokenizer_frame H)
      as (H1 & H2 & H3 & H4 & H5 & _).
    exact (conj H1 (conj H2 (conj H3 (conj H4 H5)))).
  - vm_compute in H. discriminate.
  - vm_compute in H. discriminate.
Defined.

(** X13. A table the rule builds takes at least two lines: when the
    non-silent rule returns true, the current line it leaves in the state
    is at least two more than the line it started on. *)
Theorem yfmTable_consumes_lines
    (tokenize : StateBlock → Z → Z → StateBlock)
    (parseAttrs : list Z → list (string * list string))
    (extractClass : list Z → option (string * list Z))
    (opts : YfmTablePluginOptions) (state : StateBlock) (startLine endLine : Z)
    (state' : StateBlock) :
  yfmTable tokenize parseAttrs extractClass opts state startLine endLine false
  = Ret (state', true) →
  startLine + 2 <= stateLine state'.
Proof.
  unfold yfmTable.
  destruct (nlt _ _); [by intros [= <-]|].
  destruct (negb _); [by intros [= <-]|].
  destruct (getTableRowPositions _ _ _ _ _) as [[rws e p]|] eqn:Hscan; [|done].
  apply scan_end_bound in Hscan. simpl in Hscan.
  destruct e as [e|]; simpl; [|done].
  destruct (negb (e =? 0)); [|done].
  destruct Hscan as [Hscan _]. simpl.
  destruct (buildRows _ _ _ _ _ _ _) as [[[st cellsMap] contentMap]| |];
    [|done|done].
  simpl.
  destruct (applySpans contentMap cellsMap (tokens st)) as [ts| |]; [|done|done].
  simpl. intros [= <-]. simpl. done.
Qed.

Lemma yfmTable_consumes_lines_witness :
  match yfmTable plainTokenizer noAttrs noClass defaultOpts squareDoc 0
          (lineMax squareDoc) false with
  | Ret (st, true) => 0 + 2 <= stateLine st
  | _ => False
  end.
Proof.
  destruct (yfmTable plainTokenizer noAttrs noClass defaultOpts squareDoc 0
              (lineMax squareDoc) false) as [[st [|]]| |] eqn:H.
  - exact (yfmTable_consumes_lines plainTokenizer noAttrs noClass defaultOpts
             squareDoc 0 (lineMax squareDoc) st H).
  - vm_compute in H. discriminate.
  - vm_compute in H. discriminate.
  - vm_compute in H. discriminate.
Defined.

Lemma extractAndApplyClassFromToken_tokens
    (extractClass : list Z → option (string * list Z))
    (contentToken tdOpenToken : nat) (state state' : StateBlock) :
  extractAndApplyClassFromToken extractClass contentToken tdOpenToken state
  = Ret state' →
  tokens state' = tokens state
  ∨ ∃ cls c, tokens state'
             = alter (withContent c) contentToken
                 (alter (attrSet "class" cls) tdOpenToken (tokens state)).
Proof.
  unfold extractAndApplyClassFromToken.
  destruct (tokens state !! contentToken) as [ct|]; [|done]. simpl.
  destruct (extractClass (tok_content ct)) as [[cls content]|].
  - intros [= <-]. right. by exists cls, content.
  - intros [= <-]. by left.
Qed.

(** The steps of one cell: the open token, the tokenizer's run, the close
    token, and the class moved from the content to the open token. *)
Lemma buildCell_steps
    (tokenize : StateBlock → Z → Z → StateBlock)
    (extractClass : list Z → option (string * list Z))
    (state : StateBlock) (cell : CellSpan)
    (state' : StateBlock) (ref : nat) (content : list Z) :
  buildCell tokenize extractClass state cell = Ret (state', ref, content) →
  ∃ st1 : StateBlock,
    let st2 := tokenize st1 (line cell.1) (line cell.2 + 1) in
    let ts3 :=
      tokens st2
      ++ [withMap (line cell.2, line cell.2 + 1)
            (newToken "yfm_td_close" "td" (-1) (level st2 - 1))] in
    tokens st1
    = tokens state
      ++ [withMap (line cell.1, line cell.2)
            (newToken "yfm_td_open" "td" 1 (level state))]
    ∧ level st1 = level state + 1
    ∧ ref = length (tokens state)
    ∧ (2 ≤ length (tokens st2))%nat
    ∧ level state' = level st2 - 1
    ∧ (tokens state' = ts3
       ∨ ∃ cls c, tokens state'
                  = alter (withContent c) (length (tokens st2) - 2)%nat
                      (alter (attrSet "class" cls) ref ts3)).
Proof.
  destruct cell as [begin end_]. unfold buildCell. simpl.
  set (st1 := setLineMax _ (setEMark _ _ (setBMark _ _ (setTShift _ _ _)))).
  set (st2 := tokenize st1 (line begin) (line end_ + 1)).
  destruct (length (tokens st2) <? 2)%nat eqn:Hlen; [done|].
  apply Nat.ltb_ge in Hlen.
  destruct (tokens st2 !! (length (tokens st2) - 2)%nat) as [ct|]; [|done]. simpl.
  match goal with
  | |- context [extractAndApplyClassFromToken _ _ _ ?st] => set (st3 := st)
  end.
  destruct (extractAndApplyClassFromToken extractClass _ _ st3) as [st4| |] eqn:Hx;
    [|done|done].
  simpl. intros [= <- <- <-].
  exists st1. simpl. fold st2.
  split; [unfold st1; simpl; by rewrite alter_last|].
  split; [done|]. split; [done|]. split; [done|].
  pose proof (extractAndApplyClassFromToken_frame _ _ _ _ _ Hx)
    as (_ & _ & _ & _ & _ & _ & Hlvl & _).
  split; [by rewrite Hlvl|].
  apply extractAndApplyClassFromToken_tokens in Hx.
  assert (tokens st3
          = tokens st2
            ++ [withMap (line end_, line end_ + 1)
                  (newToken "yfm_td_close" "td" (-1) (level st2 - 1))]) as Hts3.
  { unfold st3. simpl. rewrite length_app. simpl.
    replace (length (tokens st2) + 1 - 1)%nat with (length (tokens st2)) by lia.
    by rewrite alter_last. }
  rewrite Hts3 in Hx. exact Hx.
Qed.

Lemma buildCell_level
    (tokenize : StateBlock → Z → Z → StateBlock)
    (extractClass : list Z → option (string * list Z))
    (state : StateBlock) (cell : CellSpan)
    (state' : StateBlock) (ref : nat) (content : list Z) :
  tokenizerLevel tokenize →
  buildCell tokenize extractClass state cell = Ret (state', ref, content) →
  level state' = level state.
Proof.
  intros Hlevel Hcell.
  destruct (buildCell_steps _ _ _ _ _ _ _ Hcell) as (st1 & _ & H1 & _ & _ & H2 & _).
  rewrite H2, Hlevel, H1. lia.
Qed.

Lemma buildCells_level
    (tokenize : StateBlock → Z → Z → StateBlock)
    (extractClass : list Z → option (string * list Z)) (cols : list CellSpan) :
  tokenizerLevel tokenize →
  ∀ state cells contents state' cells' contents',
    buildCells tokenize extractClass state cols cells contents
    = Ret (state', cells', contents') →
    level state' = level state.
Proof.
  intros Hlevel. induction cols as [|cell cols IH];
    intros state cells contents state' cells' contents'; simpl.
  - by intros [= <- _ _].
  - destruct (buildCell tokenize extractClass state cell)
      as [[[st ref] content]| |] eqn:Hcell; [|done|done]. simpl.
    intros H%IH. rewrite H. by eapply buildCell_level.
Qed.

Lemma padCells_level (n : nat) :
  ∀ state, level (padCells n state) = level state.
Proof.
  induction n as [|n IH]; intros state; simpl; [done|].
  rewrite IH. simpl. lia.
Qed.

Lemma buildRows_level
    (tokenize : StateBlock → Z → Z → StateBlock)
    (extractClass : list Z → option (string * list Z)) (maxRowLength : Z)
    (rws : list Row) :
  tokenizerLevel tokenize →
  ∀ state cellsMap contentMap state' cellsMap' contentMap',
    buildRows tokenize extractClass maxRowLength state rws cellsMap contentMap
    = Ret (state', cellsMap', contentMap') →
    level state' = level state.
Proof.
  intros Hlevel.
  induction rws as [|[[rowLineStarts rowLineEnds] cols] rws IH];
    intros state cellsMap contentMap state' cellsMap' contentMap'; simpl.
  - by intros [= <- _ _].
  - destruct (buildCells tokenize extractClass _ cols [] [])
      as [[[st cells] contents]| |] eqn:Hcells; [|done|done]. simpl.
    apply (buildCells_level _ _ _ Hlevel) in Hcells. simpl in Hcells.
    destruct (_ <? maxRowLength).
    + intros H%IH. simpl in H. rewrite H, padCells_level, Hcells. lia.
    + intros H%IH. simpl in H. rewrite H, Hcells. lia.
Qed.

(** X14. On a host whose tokenizer leaves the nesting level as it found
    it, the rule does so too: every open token it emits is matched by a
    close token, whether it builds a table, emits the lint token or
    declines. *)
Theorem yfmTable_level
    (tokenize : StateBlock → Z → Z → StateBlock)
    (parseAttrs : list Z → list (string * list string))
    (extractClass : list Z → option (string * list Z))
    (opts : YfmTablePluginOptions) (state : StateBlock) (startLine endLine : Z)
    (silent : bool) (state' : StateBlock) (result : bool) :
  tokenizerLevel tokenize →
  yfmTable tokenize parseAttrs extractClass opts state startLine endLine silent
  = Ret (state', result) →
  level state' = level state.
Proof.
  intros Hlevel. unfold yfmTable.
  destruct (nlt _ _); [by intros [= <- <-]|].
  destruct (negb _); [by intros [= <- <-]|].
  destruct silent; [by intros [= <- <-]|].
  destruct (getTableRowPositions _ _ _ _ _) as [[rws e p]|]; [|done].
  destruct (if truthy e then e else None) as [eot|]; [|by intros [= <- <-]].
  simpl.
  destruct (buildRows _ _ _ _ _ _ _) as [[[st cellsMap] contentMap]| |] eqn:Hrows;
    [|done|done].
  apply (buildRows_level _ _ _ _ Hlevel) in Hrows. simpl in Hrows. simpl.
  destruct (applySpans contentMap cellsMap (tokens st)) as [ts| |]; [|done|done].
  simpl. intros [= <- <-]. simpl. lia.
Qed.

Lemma plainTokenizer_level : tokenizerLevel plainTokenizer.
Proof. intros st a b. unfold plainTokenizer. simpl. lia. Qed.

Lemma yfmTable_level_witness :
  match yfmTable plainTokenizer noAttrs noClass defaultOpts busyDoc 0
          (lineMax busyDoc) false with
  | Ret (st, _) => level st = 3
  | _ => False
  end.
Proof.
  destruct (yfmTable plainTokenizer noAttrs noClass defaultOpts busyDoc 0
              (lineMax busyDoc) false) as [[st b]| |] eqn:H.
  - exact (yfmTable_level plainTokenizer noAttrs noClass defaultOpts busyDoc
             0 (lineMax busyDoc) false st b plainTokenizer_level H).
  - vm_compute in H. discriminate.
  - vm_compute in H. discriminate.
Defined.

(** ** The token stream around the table *)

Lemma buildCell_prefix
    (tokenize : StateBlock → Z → Z → StateBlock)
    (extractClass : list Z → option (string * list Z))
    (state : StateBlock) (cell : CellSpan)
    (state' : StateBlock) (ref : nat) (content : list Z) (n : nat) :
  tokenizerAppends tokenize → (n < length (tokens state))%nat →
  buildCell tokenize extractClass state cell = Ret (state', ref, content) →
  take n (tokens state') = take n (tokens state)
  ∧ (length (tokens state) ≤ length (tokens state'))%nat
  ∧ (n < ref)%nat.
Proof.
  intros Happ Hn Hcell.
  destruct (buildCell_steps _ _ _ _ _ _ _ Hcell)
    as (st1 & H1 & _ & -> & Hlen & _ & Hts).
  destruct (Happ st1 (line cell.1) (line cell.2 + 1)) as [new Hnew].
  rewrite Hnew, H1 in Hts. rewrite Hnew, H1 in Hlen.
  rewrite !length_app in Hlen. simpl in Hlen.
  set (ts3 := ((tokens state ++ _) ++ new) ++ _) in Hts.
  assert (take n ts3 = take n (tokens state)) as Htake.
  { unfold ts3. rewrite !take_app_le; [done|lia|..];
      rewrite ?length_app; simpl; lia. }
  assert (length (tokens state) ≤ length ts3)%nat as Hlen3.
  { unfold ts3. rewrite !length_app. simpl. lia. }
  split; [|split; [|done]].
  - destruct Hts as [-> | (cls & c & ->)]; [done|].
    rewrite !take_alter_ge; [done | lia |].
    rewrite !length_app. simpl. lia.
  - destruct Hts as [-> | (cls & c & ->)]; [done|].
    by rewrite !length_alter.
Qed.

Lemma buildCells_prefix
    (tokenize : StateBlock → Z → Z → StateBlock)
    (extractClass : list Z → option (string * list Z)) (cols : list CellSpan)
    (n : nat) :
  tokenizerAppends tokenize →
  ∀ state cells contents state' cells' contents',
    (n < length (tokens state))%nat → Forall (λ r, n < r)%nat cells →
    buildCells tokenize extractClass state cols cells contents
    = Ret (state', cells', contents') →
    take n (tokens state') = take n (tokens state)
    ∧ (length (tokens state) ≤ length (tokens state'))%nat
    ∧ Forall (λ r, n < r)%nat cells'.
Proof.
  intros Happ. induction cols as [|cell cols IH];
    intros state cells contents state' cells' contents' Hn Hrefs; simpl.
  - by intros [= <- <- _].
  - destruct (buildCell tokenize extractClass state cell)
      as [[[st ref] content]| |] eqn:Hcell; [|done|done]. simpl.
    apply (buildCell_prefix _ _ _ _ _ _ _ n Happ Hn) in Hcell
      as (Htake & Hlen & Href).
    intros H. apply IH in H as (Htake' & Hlen' & Hrefs'); [|lia|].
    + split; [congruence|]. split; [lia|done].
    + apply Forall_app. split; [done|]. by apply Forall_singleton.
Qed.

Lemma padCells_prefix (k n : nat) :
  ∀ state, (n ≤ length (tokens state))%nat →
    take n (tokens (padCells k state)) = take n (tokens state)
    ∧ (length (tokens state) ≤ length (tokens (padCells k state)))%nat.
Proof.
  induction k as [|k IH]; intros state Hn; simpl; [done|].
  match goal with
  | |- context [padCells k ?st] => destruct (IH st) as [Ht Hl]
  end.
  { simpl. rewrite !length_app. lia. }
  simpl in Ht, Hl. rewrite !length_app in Hl. simpl in Hl.
  split; [|lia]. rewrite Ht.
  rewrite !take_app_le; [done | lia | rewrite length_app; lia].
Qed.

Lemma buildRows_prefix
    (tokenize : StateBlock → Z → Z → StateBlock)
    (extractClass : list Z → option (string * list Z)) (maxRowLength : Z)
    (rws : list Row) (n : nat) :
  tokenizerAppends tokenize →
  ∀ state cellsMap contentMap state' cellsMap' contentMap',
    (n ≤ length (tokens state))%nat →
    Forall (Forall (λ r, n < r)%nat) cellsMap →
    buildRows tokenize extractClass maxRowLength state rws cellsMap contentMap
    = Ret (state', cellsMap', contentMap') →
    take n (tokens state') = take n (tokens state)
    ∧ (length (tokens state) ≤ length (tokens state'))%nat
    ∧ Forall (Forall (λ r, n < r)%nat) cellsMap'.
Proof.
  intros Happ.
  induction rws as [|[[rowLineStarts rowLineEnds] cols] rws IH];
    intros state cellsMap contentMap state' cellsMap' contentMap' Hn Hrefs; simpl.
  - by intros [= <- <- _].
  - destruct (buildCells tokenize extractClass _ cols [] [])
      as [[[st cells] contents]| |] eqn:Hcells; [|done|done]. simpl.
    apply (buildCells_prefix _ _ _ n Happ) in Hcells as (Htake & Hlen & Hcs);
      [| simpl; rewrite length_alter, length_app; simpl; lia | done].
    simpl in Htake, Hlen.
    rewrite length_alter, length_app in Hlen. simpl in Hlen.
    rewrite take_alter_ge, take_app_le in Htake by lia.
    assert (Forall (Forall (λ r, n < r)%nat) (cellsMap ++ [cells])) as Hrefs'.
    { apply Forall_app. split; [done|]. by apply Forall_singleton. }
    destruct (_ <? maxRowLength).
    + destruct (padCells_prefix (Z.to_nat (maxRowLength - Z.of_nat (length cols)))
                  n st ltac:(lia)) as [Pt Pl].
      intros H. apply IH in H as (Htake' & Hlen' & Hrefs''); [|simpl|done].
      * simpl in Htake', Hlen'. rewrite length_app in Hlen'. simpl in Hlen'.
        rewrite take_app_le in Htake' by lia.
        split; [congruence|]. split; [lia|done].
      * rewrite length_app. lia.
    + intros H. apply IH in H as (Htake' & Hlen' & Hrefs''); [|simpl|done].
      * simpl in Htake', Hlen'. rewrite length_app in Hlen'. simpl in Hlen'.
        rewrite take_app_le in Htake' by lia.
        split; [congruence|]. split; [lia|done].
      * rewrite length_app. lia.
Qed.

(** What the span resolver does to the token list is a series of writes
    through references of the token map, each a mark for deletion or a
    span attribute. *)
Lemma colspanBack_writes (P : list Token → Prop)
    (contentMap : list (list (list Z))) (tokenMap : list (list nat)) (i : nat) :
  (∀ ts ref j f, P ts → tokenAt tokenMap i j = Ret ref →
     f = withMark ∨ (∃ v, f = attrSet "colspan" v) → P (alter f ref ts)) →
  ∀ col factor ts ts', P ts →
    colspanBack contentMap tokenMap i col factor ts = Ret ts' → P ts'.
Proof.
  intros Hwrite. induction col as [|col IH]; intros factor ts ts' HP; simpl.
  - by intros [= <-].
  - destruct (isSymbol (contentAt contentMap i col) COLSPAN_SYMBOL).
    + destruct (tokenAt tokenMap i col) as [ref| |] eqn:Href; [|done|done]. simpl.
      apply IH. eapply Hwrite; [done | exact Href | by left].
    + destruct (isSymbol (contentAt contentMap i col) ROWSPAN_SYMBOL).
      * by intros [= <-].
      * destruct (tokenAt tokenMap i col) as [ref| |] eqn:Href; [|done|done]. simpl.
        intros [= <-]. eapply Hwrite; [done | exact Href | right; by eexists].
Qed.

Lemma rowspanUp_writes (P : list Token → Prop)
    (contentMap : list (list (list Z))) (tokenMap : list (list nat)) (j : nat) :
  (∀ ts ref i f, P ts → tokenAt tokenMap i j = Ret ref →
     f = withMark ∨ (∃ v, f = attrSet "rowspan" v) → P (alter f ref ts)) →
  ∀ row factor ts ts', P ts →
    rowspanUp contentMap tokenMap row j factor ts = Ret ts' → P ts'.
Proof.
  intros Hwrite. induction row as [|row IH]; intros factor ts ts' HP; simpl.
  - by intros [= <-].
  - destruct (isSymbol (contentAt contentMap row j) ROWSPAN_SYMBOL).
    + destruct (tokenAt tokenMap row j) as [ref| |] eqn:Href; [|done|done]. simpl.
      apply IH. eapply Hwrite; [done | exact Href | by left].
    + destruct (isSymbol (contentAt contentMap row j) COLSPAN_SYMBOL).
      * by intros [= <-].
      * destruct (tokenAt tokenMap row j) as [ref| |] eqn:Href; [|done|done]. simpl.
        intros [= <-]. eapply Hwrite; [done | exact Href | right; by eexists].
Qed.

Lemma forRes_invariant {K A : Type} (P : A → Prop) (body : K → A → Res A)
    (ks : list K) :
  (∀ k a a', P a → body k a = Ret a' → P a') →
  ∀ a a', P a → forRes ks body a = Ret a' → P a'.
Proof.
  intros Hbody. induction ks as [|k ks IH]; intros a a' HP; simpl.
  - by intros [= <-].
  - destruct (body k a) as [a1| |] eqn:Hk; [|done|done]. simpl.
    apply IH. by eapply Hbody.
Qed.

Lemma applySpans_writes (P : list Token → Prop)
    (contentMap : list (list (list Z))) (tokenMap : list (list nat)) :
  (∀ ts ref i j f, P ts → tokenAt tokenMap i j = Ret ref →
     f = withMark ∨ (∃ v, f = attrSet "colspan" v) ∨ (∃ v, f = attrSet "rowspan" v) →
     P (alter f ref ts)) →
  ∀ ts ts', P ts → applySpans contentMap tokenMap ts = Ret ts' → P ts'.
Proof.
  intros Hwrite ts ts' HP. rewrite applySpans_visited.
  revert ts ts' HP. apply forRes_invariant.
  intros [i j] ts ts' HP. simpl. unfold applySpansAt.
  destruct (isSymbol (contentAt contentMap i j) COLSPAN_SYMBOL && (j =? 0)%nat).
  { by intros [= <-]. }
  assert (∀ ts1,
    (if isSymbol (contentAt contentMap i j) COLSPAN_SYMBOL
     then ref ←r tokenAt tokenMap i j;
          colspanBack contentMap tokenMap i j 2 (alter withMark ref ts)
     else Ret ts) = Ret ts1 → P ts1) as Hcol.
  { intros ts1. destruct (isSymbol (contentAt contentMap i j) COLSPAN_SYMBOL).
    - destruct (tokenAt tokenMap i j) as [ref| |] eqn:Href; [|done|done]. simpl.
      apply colspanBack_writes.
      + intros ts2 ref2 j2 f HP2 Href2 [-> | [v ->]];
          (eapply Hwrite; [done | exact Href2 |]); [by left | right; left; by eexists].
      + eapply Hwrite; [done | exact Href | by left].
    - by intros [= <-]. }
  destruct (if isSymbol (contentAt contentMap i j) COLSPAN_SYMBOL then _ else _)
    as [ts1| |]; [|done|done].
  specialize (Hcol ts1 eq_refl). simpl.
  destruct (isSymbol (contentAt contentMap i j) ROWSPAN_SYMBOL);
    [|by intros [= <-]].
  destruct (i =? 0)%nat; [by intros [= <-]|].
  destruct (tokenAt tokenMap i j) as [ref| |] eqn:Href; [|done|done]. simpl.
  apply rowspanUp_writes.
  - intros ts2 ref2 i2 f HP2 Href2 [-> | [v ->]];
      (eapply Hwrite; [done | exact Href2 |]); [by left | right; right; by eexists].
  - eapply Hwrite; [done | exact Href | by left].
Qed.

(** ** Span resolver *)

Lemma attrGet_attrSetList_ne (name n v : string) (a : list (string * string)) :
  name ≠ n → attrGet name (attrSetList n v a) = attrGet name a.
Proof.
  intros Hne. induction a as [|[n' v'] a IH]; simpl.
  - destruct (String.eqb_spec n name); [congruence|done].
  - destruct (String.eqb_spec n' n) as [->|Hn]; simpl.
    + destruct (String.eqb_spec n name); [congruence|done].
    + destruct (String.eqb_spec n' name); [done|apply IH].
Qed.

Lemma spanEdit_refl (t : Token) : spanEdit t t.
Proof. unfold spanEdit. repeat split; done. Qed.

Lemma spanEdit_withMark (t t' : Token) : spanEdit t t' → spanEdit t (withMark t').
Proof.
  unfold spanEdit. simpl. intros (?&?&?&?&?&?&?&?&?&?). repeat split; done.
Qed.

Lemma spanEdit_attrSet (t t' : Token) (n v : string) :
  n = "colspan" ∨ n = "rowspan" →
  spanEdit t t' → spanEdit t (attrSet n v t').
Proof.
  unfold spanEdit. simpl. intros Hn (?&?&?&?&?&?&?&?&?&Hattrs).
  repeat split; try done.
  intros name Hc Hr. rewrite attrGet_attrSetList_ne; [by apply Hattrs|].
  destruct Hn as [-> | ->]; done.
Qed.

(** X15. Whatever the maps, the span resolver neither adds nor removes nor
    reorders tokens, and what it changes of a token is only this: it may
    mark it for deletion (it never takes a mark away) and it may set its
    [colspan] and [rowspan] attributes.  Type, tag, nesting, level, line
    range, content, markup, the hidden flag and every other attribute
    stay. *)
Theorem applySpans_edits_only (contentMap : list (list (list Z)))
    (tokenMap : list (list nat)) (tokens tokens' : list Token) :
  applySpans contentMap tokenMap tokens = Ret tokens' →
  Forall2 spanEdit tokens tokens'.
Proof.
  apply (applySpans_writes (Forall2 spanEdit tokens)).
  - intros ts ref i j f HP _ Hf. apply Forall2_alter_r; [done|].
    intros x y _ _ Hxy.
    destruct Hf as [-> | [[v ->] | [v ->]]].
    + by apply spanEdit_withMark.
    + apply spanEdit_attrSet; [by left | done].
    + apply spanEdit_attrSet; [by right | done].
  - apply Forall_Forall2_diag, Forall_forall. intros t _. apply spanEdit_refl.
Qed.

Lemma applySpans_edits_only_witness :
  match applySpans spanContent spanRefs spanTokens with
  | Ret ts => Forall2 spanEdit spanTokens ts
  | _ => False
  end.
Proof.
  destruct (applySpans spanContent spanRefs spanTokens) as [ts| |] eqn:H.
  - exact (applySpans_edits_only spanContent spanRefs spanTokens ts H).
  - vm_compute in H. discriminate.
  - vm_compute in H. discriminate.
Defined.

Lemma forRes_safe {K A : Type} (body : K → A → Res A) (ks : list K) :
  (∀ k a, k ∈ ks → ∃ a', body k a = Ret a') →
  ∀ a, ∃ a', forRes ks body a = Ret a'.
Proof.
  induction ks as [|k ks IH]; intros Hbody a; simpl; [by eexists|].
  destruct (Hbody k a ltac:(left)) as [a1 ->]. simpl.
  apply IH. intros k' a' Hk'. apply Hbody. by right.
Qed.

Lemma mapsAgree_tokenAt (contentMap : list (list (list Z)))
    (tokenMap : list (list nat)) (i j : nat) :
  mapsAgree contentMap tokenMap = true →
  is_Some (contentAt contentMap i j) → ∃ ref, tokenAt tokenMap i j = Ret ref.
Proof.
  unfold mapsAgree, contentAt, tokenAt. intros Hshape%bool_decide_eq_true [c Hc].
  destruct (contentMap !! i) as [row|] eqn:Hrow; [|done]. simpl in Hc.
  assert ((length <$> tokenMap) !! i = Some (length row)) as Hlen.
  { rewrite Hshape, list_lookup_fmap, Hrow. done. }
  rewrite list_lookup_fmap in Hlen.
  destruct (tokenMap !! i) as [trow|]; [|done]. simpl in *.
  injection Hlen as Hlen. apply lookup_lt_Some in Hc.
  destruct (lookup_lt_is_Some_2 trow j ltac:(lia)) as [ref ->].
  by exists ref.
Qed.

Lemma rowsFull_contentAt (contentMap : list (list (list Z))) (i j : nat) :
  rowsFull contentMap = true →
  (i < length contentMap)%nat →
  (j < length (default [] (contentMap !! 0%nat)))%nat →
  is_Some (contentAt contentMap i j).
Proof.
  unfold rowsFull, contentAt. intros Hfull Hi Hj.
  destruct (lookup_lt_is_Some_2 contentMap i Hi) as [row Hrow].
  rewrite Hrow. simpl. apply lookup_lt_is_Some_2.
  rewrite forallb_forall in Hfull.
  specialize (Hfull row). rewrite <- list_elem_of_In in Hfull.
  specialize (Hfull ltac:(by eapply list_elem_of_lookup_2)).
  apply Nat.leb_le in Hfull. lia.
Qed.

Lemma isSymbol_is_Some (content : option (list Z)) (symbol : list Z) :
  isSymbol content symbol = true → is_Some content.
Proof. destruct content; [by eexists | done]. Qed.

Lemma colspanBack_safe (contentMap : list (list (list Z)))
    (tokenMap : list (list nat)) (i : nat) :
  mapsAgree contentMap tokenMap = true →
  ∀ col factor ts,
    (∀ c, (c < col)%nat → is_Some (contentAt contentMap i c)) →
    ∃ ts', colspanBack contentMap tokenMap i col factor ts = Ret ts'.
Proof.
  intros Hshape. induction col as [|col IH]; intros factor ts Hdef; simpl.
  { by eexists. }
  destruct (mapsAgree_tokenAt contentMap tokenMap i col Hshape
              (Hdef col ltac:(lia))) as [ref ->]. simpl.
  destruct (isSymbol (contentAt contentMap i col) COLSPAN_SYMBOL).
  - apply IH. intros c Hc. apply Hdef. lia.
  - destruct (isSymbol (contentAt contentMap i col) ROWSPAN_SYMBOL); by eexists.
Qed.

Lemma rowspanUp_safe (contentMap : list (list (list Z)))
    (tokenMap : list (list nat)) (j : nat) :
  mapsAgree contentMap tokenMap = true →
  ∀ row factor ts,
    (∀ r, (r < row)%nat → is_Some (contentAt contentMap r j)) →
    ∃ ts', rowspanUp contentMap tokenMap row j factor ts = Ret ts'.
Proof.
  intros Hshape. induction row as [|row IH]; intros factor ts Hdef; simpl.
  { by eexists. }
  destruct (mapsAgree_tokenAt contentMap tokenMap row j Hshape
              (Hdef row ltac:(lia))) as [ref ->]. simpl.
  destruct (isSymbol (contentAt contentMap row j) ROWSPAN_SYMBOL).
  - apply IH. intros r Hr. apply Hdef. lia.
  - destruct (isSymbol (contentAt contentMap row j) COLSPAN_SYMBOL); by eexists.
Qed.

Lemma applySpansAt_safe (contentMap : list (list (list Z)))
    (tokenMap : list (list nat)) (i j : nat) (ts : list Token) :
  mapsAgree contentMap tokenMap = true →
  rowsFull contentMap = true →
  (i < length contentMap)%nat →
  (j < length (default [] (contentMap !! 0%nat)))%nat →
  ∃ ts', applySpansAt contentMap tokenMap i j ts = Ret ts'.
Proof.
  intros Hshape Hfull Hi Hj.
  pose proof (rowsFull_contentAt contentMap i j Hfull Hi Hj) as Hij.
  destruct (mapsAgree_tokenAt contentMap tokenMap i j Hshape Hij) as [ref Href].
  unfold applySpansAt. rewrite Href. simpl.
  destruct (isSymbol (contentAt contentMap i j) COLSPAN_SYMBOL && (j =? 0)%nat).
  { by eexists. }
  assert (∃ ts2,
    (if isSymbol (contentAt contentMap i j) COLSPAN_SYMBOL
     then colspanBack contentMap tokenMap i j 2 (alter withMark ref ts)
     else Ret ts) = Ret ts2) as [ts2 ->].
  { destruct (isSymbol (contentAt contentMap i j) COLSPAN_SYMBOL);
      [|by eexists].
    apply colspanBack_safe; [done|]. intros c Hc.
    apply rowsFull_contentAt; [done | lia | lia]. }
  simpl.
  destruct (isSymbol (contentAt contentMap i j) ROWSPAN_SYMBOL); [|by eexists].
  destruct (i =? 0)%nat; [by eexists|].
  apply rowspanUp_safe; [done|]. intros r Hr.
  apply rowsFull_contentAt; [done | lia | lia].
Qed.

(** X16. The span resolver never throws on maps of one shape whose rows
    are all at least as long as the first: every cell it reads then
    exists, and it returns a token list. *)
Theorem applySpans_safe (contentMap : list (list (list Z)))
    (tokenMap : list (list nat)) (tokens : list Token) :
  mapsAgree contentMap tokenMap = true →
  rowsFull contentMap = true →
  ∃ tokens', applySpans contentMap tokenMap tokens = Ret tokens'.
Proof.
  intros Hshape Hfull. unfold applySpans.
  apply forRes_safe. intros i ts Hi%elem_of_seq.
  apply forRes_safe. intros j ts1 Hj%elem_of_seq.
  apply applySpansAt_safe; [done | done | lia | lia].
Qed.

Lemma applySpans_safe_witness :
  ∃ tokens', applySpans spanContent spanRefs spanTokens = Ret tokens'.
Proof.
  apply (applySpans_safe spanContent spanRefs spanTokens);
    vm_compute; reflexivity.
Defined.

(** ** Tree compactor, without assumptions on the marks *)

Lemma applySplice_sublist (l : list Token) (sp : nat * option nat) :
  applySplice l sp `sublist_of` l.
Proof.
  destruct sp as [start [e|]]; simpl; [|done].
  destruct (negb (start =? 0)%nat && negb (e =? 0)%nat); [|done].
  unfold splice. rewrite <- (take_drop start l) at 3.
  apply sublist_app; [done|].
  rewrite <- drop_drop. apply sublist_drop.
Qed.

Lemma applySplice_take (l : list Token) (sp : nat * option nat) (m : nat) :
  (m ≤ sp.1)%nat → take m (applySplice l sp) = take m l.
Proof.
  destruct sp as [start [e|]]; simpl; [|done]. intros Hm.
  destruct (negb (start =? 0)%nat && negb (e =? 0)%nat); [|done].
  unfold splice.
  destruct (decide (m ≤ length l)%nat) as [Hle|Hgt].
  - rewrite take_app_le by (rewrite length_take; lia).
    rewrite take_take. f_equal. lia.
  - rewrite (take_ge l start) by lia. rewrite drop_ge by lia.
    by rewrite app_nil_r.
Qed.

Lemma spliceItems_marked (rest : list Token) :
  ∀ i sp, sp ∈ spliceItems rest i →
    ∃ t, rest !! (sp.1 - i)%nat = Some t ∧ tok_markForDeletion t = true
         ∧ (i ≤ sp.1)%nat.
Proof.
  induction rest as [|t rest IH]; intros i sp; simpl; [by intros ?%elem_of_nil|].
  rewrite elem_of_app. intros [Hhead | Htail].
  - destruct (tok_markForDeletion t) eqn:Hmark; [|by apply elem_of_nil in Hhead].
    apply list_elem_of_singleton in Hhead as ->. simpl.
    exists t. rewrite Nat.sub_diag. done.
  - apply IH in Htail as (t' & Hlook & Hmark & Hle).
    exists t'. split; [|split; [done|lia]].
    replace (sp.1 - i)%nat with (S (sp.1 - S i)) by lia. done.
Qed.

Lemma applySplices_sublist (sps : list (nat * option nat)) :
  ∀ l : list Token, foldl applySplice l sps `sublist_of` l.
Proof.
  induction sps as [|sp sps IH]; intros l; simpl; [done|].
  etrans; [apply IH | apply applySplice_sublist].
Qed.

Lemma applySplices_take (sps : list (nat * option nat)) (m : nat) :
  ∀ l : list Token, (∀ sp, sp ∈ sps → (m ≤ sp.1)%nat) →
    take m (foldl applySplice l sps) = take m l.
Proof.
  induction sps as [|sp sps IH]; intros l Hstarts; simpl; [done|].
  rewrite IH.
  - apply applySplice_take, Hstarts. by left.
  - intros sp' Hsp'. apply Hstarts. by right.
Qed.

(** Every deletion starts at a marked token, so at or after [m] when no
    token from [tableStart] up to [m] is marked. *)
Lemma splices_start_late (tableStart m : nat) (tokens : list Token) :
  (∀ i, (tableStart ≤ i < m)%nat → marked tokens i = false) →
  ∀ sp, sp ∈ reverse (spliceItems (drop tableStart tokens) tableStart) →
        (m ≤ sp.1)%nat.
Proof.
  intros Hunmarked sp Hsp. rewrite elem_of_reverse in Hsp.
  apply spliceItems_marked in Hsp as (t & Hlook & Hmark & Hle).
  rewrite lookup_drop in Hlook.
  replace (tableStart + (sp.1 - tableStart))%nat with sp.1 in Hlook by lia.
  destruct (decide (m ≤ sp.1)%nat) as [|Hlt]; [done|].
  specialize (Hunmarked sp.1 ltac:(lia)).
  unfold marked in Hunmarked. rewrite Hlook in Hunmarked. simpl in Hunmarked.
  congruence.
Qed.

(** X17. The compactor only deletes: what it returns is the token list it
    was given with some tokens left out, in the same order and unchanged.
    It leaves out nothing that stands before [tableStart], and nothing
    that stands before the first marked token from [tableStart] on. *)
Theorem clearTokens_only_deletes (tableStart : nat) (tokens : list Token) :
  clearTokens tableStart tokens `sublist_of` tokens
  ∧ ∀ m, (tableStart ≤ m)%nat →
         (∀ i, (tableStart ≤ i < m)%nat → marked tokens i = false) →
         take m (clearTokens tableStart tokens) = take m tokens.
Proof.
  unfold clearTokens. rewrite collectSplices_items, app_nil_r.
  split.
  - apply applySplices_sublist.
  - intros m Hm Hunmarked.
    apply applySplices_take.
    by apply splices_start_late.
Qed.

Lemma clearTokens_only_deletes_witness :
  take 4 (clearTokens 0 compactExample) = take 4 compactExample.
Proof.
  apply (proj2 (clearTokens_only_deletes 0 compactExample) 4%nat); [lia|].
  intros [|[|[|[|i]]]] Hi; try reflexivity. lia.
Defined.

(** ** The tokens of a table *)

Lemma tokenAt_Forall (Q : nat → Prop) (tokenMap : list (list nat)) (i j ref : nat) :
  Forall (Forall Q) tokenMap → tokenAt tokenMap i j = Ret ref → Q ref.
Proof.
  unfold tokenAt. intros Hall.
  destruct (tokenMap !! i) as [row|] eqn:Hrow; [|done]. simpl.
  destruct (row !! j) as [r|] eqn:Hr; [|done]. simpl. intros [= <-].
  rewrite Forall_forall in Hall.
  specialize (Hall row ltac:(by eapply list_elem_of_lookup_2)).
  rewrite Forall_forall in Hall. apply Hall.
  by eapply list_elem_of_lookup_2.
Qed.

Lemma applySpans_prefix (contentMap : list (list (list Z)))
    (tokenMap : list (list nat)) (n : nat) (ts ts' : list Token) :
  Forall (Forall (λ r, n < r)%nat) tokenMap →
  applySpans contentMap tokenMap ts = Ret ts' →
  take n ts' = take n ts.
Proof.
  intros Hrefs.
  apply (applySpans_writes (λ l, take n l = take n ts)); [|done].
  intros l ref i j f Hl Href _.
  apply (tokenAt_Forall _ _ _ _ _ Hrefs) in Href.
  rewrite take_alter_ge by lia. done.
Qed.

Lemma applyAttrs_mark (attrs : list (string * list string)) (t : Token) :
  tok_markForDeletion (applyAttrs attrs t) = tok_markForDeletion t.
Proof.
  unfold applyAttrs.
  assert (∀ (l : list string) t0,
            tok_markForDeletion (foldl (λ t1 attr, attrJoin attr "true" t1) t0 l)
            = tok_markForDeletion t0) as H1.
  { induction l as [|a l IH]; intros t0; simpl; [done|]. by rewrite IH. }
  assert (∀ (l : list (string * list string)) t0,
            tok_markForDeletion
              (foldl (λ t1 kv, attrJoin kv.1 (joinBlank kv.2) t1) t0 l)
            = tok_markForDeletion t0) as H2.
  { induction l as [|a l IH]; intros t0; simpl; [done|]. by rewrite IH. }
  by rewrite H1, H2.
Qed.

(** The token list after a table has been built. *)
Lemma rule_tokens
    (tokenize : StateBlock → Z → Z → StateBlock)
    (parseAttrs : list Z → list (string * list string))
    (extractClass : list Z → option (string * list Z))
    (opts : YfmTablePluginOptions) (state : StateBlock) (startLine endLine : Z)
    (state' : StateBlock) :
  tokenizerAppends tokenize →
  yfmTable tokenize parseAttrs extractClass opts state startLine endLine false
  = Ret (state', true) →
  ∃ r endOfTable mid,
    getTableRowPositions state
      (nplus (bMarks state !! startLine) (tShift state !! startLine))
      (eMarks state !! endLine) startLine opts = Some r
    ∧ rp_endOfTable r = Some endOfTable
    ∧ stateLine state' = endOfTable
    ∧ tokens state'
      = tokens state
        ++ [withMap (startLine, endOfTable)
              (applyAttrs (extractAttributes parseAttrs state (rp_pos r))
                 (newToken "yfm_table_open" "table" 1 (level state)));
            withMap (startLine + 1, endOfTable - 1)
              (newToken "yfm_tbody_open" "tbody" 1 (level state + 1))]
        ++ mid
        ++ [newToken "yfm_tbody_close" "tbody" (-1) (level state' + 1);
            withMap (endOfTable, endOfTable + 1)
              (newToken "yfm_table_close" "table" (-1) (level state'))].
Proof.
  intros Happ. unfold yfmTable.
  destruct (nlt _ _); [by intros [= <-]|].
  destruct (negb _); [by intros [= <-]|].
  destruct (getTableRowPositions _ _ _ _ _) as [[rws e p]|] eqn:Hscan; [|done].
  destruct e as [eot|]; [|done].
  cbn [truthy]. destruct (negb (eot =? 0)); [|done].
  simpl.
  destruct (buildRows _ _ _ _ _ _ _) as [[[st cellsMap] contentMap]| |] eqn:Hrows;
    [|done|done].
  simpl.
  destruct (applySpans contentMap cellsMap (tokens st)) as [ts| |] eqn:Hspans;
    [|done|done].
  simpl. intros [= <-]. simpl.
  set (attrs := extractAttributes parseAttrs state p) in *.
  set (head2 :=
         [withMap (startLine, eot)
            (applyAttrs attrs (newToken "yfm_table_open" "table" 1 (level state)));
          withMap (startLine + 1, eot - 1)
            (newToken "yfm_tbody_open" "tbody" 1 (level state + 1))]).
  match type of Hrows with
  | buildRows _ _ _ ?st0 _ _ _ = _ => set (stA := st0) in *
  end.
  assert (tokens stA = tokens state ++ head2) as Hstart.
  { unfold stA, head2. simpl. rewrite !alter_last. by rewrite <- app_assoc. }
  assert (length (tokens stA) = length (tokens state) + 2)%nat as HlenA.
  { rewrite Hstart, length_app. done. }
  set (n := length (tokens state)) in *.
  apply (buildRows_prefix _ _ _ _ (n + 2)%nat Happ) in Hrows
    as (Htake & Hlen & Hrefs); [|lia|done].
  rewrite (take_ge (tokens stA)) in Htake by lia.
  apply (applySpans_prefix _ _ (n + 2)%nat) in Hspans as Htake2; [|done].
  rewrite Htake in Htake2.
  assert (take (n + 2) (clearTokens n ts) = tokens stA) as Hhead.
  { rewrite <- Htake2. unfold clearTokens.
    rewrite collectSplices_items, app_nil_r.
    apply applySplices_take, splices_start_late.
    intros i Hi. unfold marked.
    rewrite <- (lookup_take_lt ts (n + 2) i) by lia. rewrite Htake2, Hstart.
    destruct (decide (i = n)) as [->|Hne].
    - rewrite lookup_app_r by (unfold n; lia).
      unfold n. rewrite Nat.sub_diag. simpl. by rewrite applyAttrs_mark.
    - replace i with (S n) by lia.
      rewrite lookup_app_r by (unfold n; lia).
      replace (S n - length (tokens state))%nat with 1%nat by (unfold n; lia).
      done. }
  exists {| rp_rows := rws; rp_endOfTable := Some eot; rp_pos := p |}, eot,
    (drop (n + 2) (clearTokens n ts)).
  split; [done|]. split; [done|]. split; [done|].
  rewrite length_app. simpl.
  replace (length (clearTokens n ts ++
                   [newToken "yfm_tbody_close" "tbody" (-1) (level st - 1)]) + 1 - 1)%nat
    with (length (clearTokens n ts ++
                   [newToken "yfm_tbody_close" "tbody" (-1) (level st - 1)]))
    by lia.
  rewrite alter_last.
  rewrite <- (take_drop (n + 2) (clearTokens n ts)) at 1.
  rewrite Hhead, Hstart. unfold head2.
  rewrite <- !app_assoc. simpl. do 4 f_equal.
  replace (level st - 1 - 1 + 1) with (level st - 1) by lia. done.
Qed.

(** X18. On a host whose tokenizer only appends, the rule only appends:
    the tokens the state held when the rule was called are all still
    there afterwards, unchanged and in their places, whether the rule
    builds a table, emits the lint token or declines. *)
Theorem yfmTable_keeps_tokens
    (tokenize : StateBlock → Z → Z → StateBlock)
    (parseAttrs : list Z → list (string * list string))
    (extractClass : list Z → option (string * list Z))
    (opts : YfmTablePluginOptions) (state : StateBlock) (startLine endLine : Z)
    (silent : bool) (state' : StateBlock) (result : bool) :
  tokenizerAppends tokenize →
  yfmTable tokenize parseAttrs extractClass opts state startLine endLine silent
  = Ret (state', result) →
  ∃ new, tokens state' = tokens state ++ new.
Proof.
  intros Happ Hrule.
  destruct silent; [|destruct result].
  - exists []. rewrite app_nil_r. revert Hrule. unfold yfmTable.
    destruct (nlt _ _); [by intros [= <- _]|].
    destruct (negb _); by intros [= <- _].
  - destruct (rule_tokens _ _ _ _ _ _ _ _ Happ Hrule)
      as (r & eot & mid & _ & _ & _ & ->).
    by eexists.
  - revert Hrule. unfold yfmTable.
    destruct (nlt _ _); [intros [= <-]; exists []; by rewrite app_nil_r|].
    destruct (negb _); [intros [= <-]; exists []; by rewrite app_nil_r|].
    destruct (getTableRowPositions _ _ _ _ _) as [[rws e p]|]; [|done].
    destruct (if truthy e then e else None) as [eot|].
    + simpl.
      destruct (buildRows _ _ _ _ _ _ _) as [[[st cellsMap] contentMap]| |];
        [|done|done].
      simpl.
      destruct (applySpans contentMap cellsMap (tokens st)) as [ts| |];
        [|done|done].
      simpl. intros [= _ Hfalse].
    + intros [= <-]. simpl. rewrite !alter_last. by eexists.
Qed.

Lemma plainTokenizer_appends : tokenizerAppends plainTokenizer.
Proof.
  intros st a b. unfold plainTokenizer. simpl.
  rewrite alter_last. eexists. rewrite <- !app_assoc. reflexivity.
Qed.

Lemma yfmTable_keeps_tokens_witness :
  match yfmTable plainTokenizer noAttrs noClass defaultOpts busyDoc 0
          (lineMax busyDoc) false with
  | Ret (st, _) => ∃ new, tokens st = tokens busyDoc ++ new
  | _ => False
  end.
Proof.
  destruct (yfmTable plainTokenizer noAttrs noClass defaultOpts busyDoc 0
              (lineMax busyDoc) false) as [[st b]| |] eqn:H.
  - exact (yfmTable_keeps_tokens plainTokenizer noAttrs noClass defaultOpts
             busyDoc 0 (lineMax busyDoc) false st b plainTokenizer_appends H).
  - vm_compute in H. discriminate.
  - vm_compute in H. discriminate.
Defined.

Lemma rule_level_built
    (tokenize : StateBlock → Z → Z → StateBlock)
    (parseAttrs : list Z → list (string * list string))
    (extractClass : list Z → option (string * list Z))
    (opts : YfmTablePluginOptions) (state : StateBlock) (startLine endLine : Z)
    (state' : StateBlock) :
  tokenizerLevel tokenize →
  yfmTable tokenize parseAttrs extractClass opts state startLine endLine false
  = Ret (state', true) →
  level state' = level state.
Proof.
  intros Hlevel. unfold yfmTable.
  destruct (nlt _ _); [done|]. destruct (negb _); [done|].
  destruct (getTableRowPositions _ _ _ _ _) as [[rws e p]|]; [|done].
  destruct (if truthy e then e else None) as [eot|]; [|done].
  simpl.
  destruct (buildRows _ _ _ _ _ _ _) as [[[st cellsMap] contentMap]| |] eqn:Hrows;
    [|done|done].
  apply (buildRows_level _ _ _ _ Hlevel) in Hrows. simpl in Hrows. simpl.
  destruct (applySpans contentMap cellsMap (tokens st)) as [ts| |]; [|done|done].
  simpl. intros [= <-]. simpl. lia.
Qed.

(** X19. The tokens of a built table.  On a host whose tokenizer only
    appends and keeps the nesting level, a non-silent match means that
    the scan of the region from the start position to the end position
    returned a result [r] whose [endOfTable] is present; the rule then
    leaves the state on line [endOfTable] and has appended to the token
    stream: a [yfm_table_open] at the level of the state, carrying the
    attributes that [extractAttributes] parses at the position [rp_pos r]
    where the scan stopped, with the line range from the start line to
    [endOfTable]; a [yfm_tbody_open] one level deeper, whose range is one
    line shorter at either end; the tokens of the rows (left open here);
    and last a [yfm_tbody_close] and a [yfm_table_close] at the levels of
    their open tokens, the latter with the range from [endOfTable] to
    the line after it. *)
Theorem yfmTable_emits_table
    (tokenize : StateBlock → Z → Z → StateBlock)
    (parseAttrs : list Z → list (string * list string))
    (extractClass : list Z → option (string * list Z))
    (opts : YfmTablePluginOptions) (state : StateBlock) (startLine endLine : Z)
    (state' : StateBlock) :
  tokenizerAppends tokenize → tokenizerLevel tokenize →
  yfmTable tokenize parseAttrs extractClass opts state startLine endLine false
  = Ret (state', true) →
  ∃ r endOfTable mid,
    getTableRowPositions state
      (nplus (bMarks state !! startLine) (tShift state !! startLine))
      (eMarks state !! endLine) startLine opts = Some r
    ∧ rp_endOfTable r = Some endOfTable
    ∧ stateLine state' = endOfTable
    ∧ tokens state'
      = tokens state
        ++ [withMap (startLine, endOfTable)
              (applyAttrs (extractAttributes parseAttrs state (rp_pos r))
                 (newToken "yfm_table_open" "table" 1 (level state)));
            withMap (startLine + 1, endOfTable - 1)
              (newToken "yfm_tbody_open" "tbody" 1 (level state + 1))]
        ++ mid
        ++ [newToken "yfm_tbody_close" "tbody" (-1) (level state + 1);
            withMap (endOfTable, endOfTable + 1)
              (newToken "yfm_table_close" "table" (-1) (level state))].
Proof.
  intros Happ Hlevel Hrule.
  destruct (rule_tokens _ _ _ _ _ _ _ _ Happ Hrule)
    as (r & eot & mid & Hscan & Hend & Hline & Htokens).
  rewrite (rule_level_built _ _ _ _ _ _ _ _ Hlevel Hrule) in Htokens.
  exists r, eot, mid. exact (conj Hscan (conj Hend (conj Hline Htokens))).
Qed.

Lemma yfmTable_emits_table_witness :
  match yfmTable plainTokenizer noAttrs noClass defaultOpts busyDoc 0
          (lineMax busyDoc) false with
  | Ret (st, true) =>
      ∃ r endOfTable mid,
        getTableRowPositions busyDoc
          (nplus (bMarks busyDoc !! 0) (tShift busyDoc !! 0))
          (eMarks busyDoc !! lineMax busyDoc) 0 defaultOpts = Some r
        ∧ rp_endOfTable r = Some endOfTable
        ∧ stateLine st = endOfTable
        ∧ tokens st
          = tokens busyDoc
            ++ [withMap (0, endOfTable)
                  (applyAttrs (extractAttributes noAttrs busyDoc (rp_pos r))
                     (newToken "yfm_table_open" "table" 1 (level busyDoc)));
                withMap (0 + 1, endOfTable - 1)
                  (newToken "yfm_tbody_open" "tbody" 1 (level busyDoc + 1))]
            ++ mid
            ++ [newToken "yfm_tbody_close" "tbody" (-1) (level busyDoc + 1);
                withMap (endOfTable, endOfTable + 1)
                  (newToken "yfm_table_close" "table" (-1) (level busyDoc))]
  | _ => False
  end.
Proof.
  destruct (yfmTable plainTokenizer noAttrs noClass defaultOpts busyDoc 0
              (lineMax busyDoc) false) as [[st [|]]| |] eqn:H.
  - exact (yfmTable_emits_table plainTokenizer noAttrs noClass defaultOpts
             busyDoc 0 (lineMax busyDoc) st plainTokenizer_appends
             plainTokenizer_level H).
  - vm_compute in H. discriminate.
  - vm_compute in H. discriminate.
  - vm_compute in H. discriminate.
Defined.

(** ** Where the cursor lands after an inline span *)

Lemma skipInlineCode_distance (src : list Z) (pos : Z) (max : num)
    (r : SkipInlineResult) :
  skipInlineCode src (Some pos) max = Some r → steps r = end_ r - pos.
Proof.
  unfold skipInlineCode, skipInlineCodeAt.
  destruct (negb _); [done|]. destruct (_ && _); [done|].
  generalize (S (length src)). intros fuel.
  generalize (scanMarker (length src) src pos max). intros matchEnd.
  generalize (len (slice src pos matchEnd)). intros openerLength.
  revert matchEnd. induction fuel as [|fuel IH]; intros matchEnd; [done|].
  cbn [findCloser].
  destruct (_ =? -1); [done|]. destruct (_ =? openerLength).
  - by intros [= <-].
  - apply IH.
Qed.

(** X20. When [skipInlineCode] reports a span from the cursor that ends
    within the cursor's line, moving the cursor by the reported steps
    leaves it on the same line at the end of the span: on the first
    character after the closing backticks. *)
Theorem code_span_landing (state : StateBlock) (it : StateIterator) (p e : Z)
    (r : SkipInlineResult) :
  _pos it = Some p → _lineEnds it = Some e →
  skipInlineCode (src state) (_pos it) (_lineEnds it) = Some r →
  end_ r <= e →
  next state (steps r) it
  = {| _pos := Some (end_ r); _line := _line it; _lineEnds := Some e |}.
Proof.
  intros Hp He Hskip Hend. rewrite Hp in Hskip.
  pose proof (skipInlineCode_steps _ _ _ _ Hskip) as Hpos.
  apply skipInlineCode_distance in Hskip as Hsteps.
  unfold next.
  rewrite (next_within state it p e (Z.to_nat (steps r)) Hp He) by lia.
  do 2 f_equal. lia.
Qed.

Lemma code_span_landing_witness :
  next inlineDoc 5 atBacktick
  = {| _pos := Some 11; _line := 1; _lineEnds := Some 22 |}.
Proof.
  apply (code_span_landing inlineDoc atBacktick 6 22 {| end_ := 11; steps := 5 |});
    [reflexivity | reflexivity | vm_compute; reflexivity | simpl; lia].
Defined.

(** X21. When [skipInlineMath] reports a span from the cursor that does
    not open with two dollar signs, moving the cursor by the reported
    steps leaves it on the same line on the closing dollar sign itself,
    one character before the reported end: the closing dollar sign is the
    next character the scan looks at. *)
Theorem math_span_landing (state : StateBlock) (it : StateIterator) (p e : Z)
    (r : SkipInlineResult) :
  _pos it = Some p → _lineEnds it = Some e →
  skipInlineMath (src state) (_pos it) (_lineEnds it) = Some r →
  charCodeAt (src state) (p + 1) ≠ Some dollarChar →
  next state (steps r) it
  = {| _pos := Some (end_ r - 1); _line := _line it; _lineEnds := Some e |}
  ∧ symbol state (next state (steps r) it) = Some dollarChar.
Proof.
  intros Hp He Hskip Hsingle. rewrite Hp, He in Hskip.
  assert (end_ r - 1 >= p + 1 ∧ validMathCloser (src state) (Some e) (end_ r - 1) = true
          ∧ steps r = end_ r - (p + 1)) as (Hge & Hvalid & Hsteps).
  { revert Hskip. unfold skipInlineMath, skipInlineMathAt.
    destruct (charCodeAt (src state) p) as [c0|] eqn:Hc0; cbn [codeIs negb];
      [|done].
    apply charCodeAt_Some_range in Hc0.
    destruct (negb _); [done|]. destruct (_ && _); [done|].
    destruct (_ || _); [done|].
    destruct (codeIs (nextCharWithin (src state) p (Some e)) dollarChar) eqn:Hnext.
    - exfalso. apply Hsingle. unfold nextCharWithin in Hnext.
      destruct (nle (Some (p + 1)) (Some e)); [|done].
      destruct (charCodeAt (src state) (p + 1)) as [d|]; [|done].
      simpl in Hnext. apply Z.eqb_eq in Hnext. by subst d.
    - intros Hfind. apply findMathCloser_shape in Hfind; [|lia].
      destruct Hfind as (H1 & H2 & H3). split; [lia|done]. }
  unfold validMathCloser, acceptedMathCloser in Hvalid.
  apply andb_true_iff in Hvalid as [Hvalid Hacc].
  apply andb_true_iff in Hvalid as [Hvalid _].
  apply andb_true_iff in Hacc as [Hacc _].
  apply andb_true_iff in Hacc as [Hacc _].
  assert (end_ r - 1 <= e) as Hmax.
  { apply negb_true_iff in Hacc. unfold ngt, nlt in Hacc.
    by apply Z.ltb_ge in Hacc. }
  assert (next state (steps r) it
          = {| _pos := Some (end_ r - 1); _line := _line it;
               _lineEnds := Some e |}) as Hnext.
  { unfold next.
    rewrite (next_within state it p e (Z.to_nat (steps r)) Hp He) by lia.
    do 2 f_equal. lia. }
  split; [done|]. rewrite Hnext. unfold symbol. simpl.
  destruct (charCodeAt (src state) (end_ r - 1)) as [c|]; [|done].
  simpl in Hvalid. apply Z.eqb_eq in Hvalid. by subst c.
Qed.

Lemma math_span_landing_witness :
  next inlineDoc 4 atDollar
  = {| _pos := Some 18; _line := 1; _lineEnds := Some 22 |}
  ∧ symbol inlineDoc (next inlineDoc 4 atDollar) = Some dollarChar.
Proof.
  apply (math_span_landing inlineDoc atDollar 14 22 {| end_ := 19; steps := 4 |});
    [reflexivity | reflexivity | vm_compute; reflexivity | vm_compute; discriminate].
Defined.

(** ** What a run of span sentinels amounts to *)

Lemma alter_mark_attr (n v : string) (r r0 : nat) (l : list Token) :
  alter withMark r (alter (attrSet n v) r0 l)
  = alter (attrSet n v) r0 (alter withMark r l).
Proof.
  destruct (decide (r = r0)) as [->|Hne].
  - rewrite !list_alter_alter_eq. apply list_alter_ext; [|done..].
    by intros t _.
  - by apply list_alter_alter_ne.
Qed.

Lemma alter_attr_attr (n v v' : string) (r0 : nat) (l : list Token) :
  alter (attrSet n v') r0 (alter (attrSet n v) r0 l) = alter (attrSet n v') r0 l.
Proof.
  rewrite list_alter_alter_eq. apply list_alter_ext; [|done..].
  intros t _. unfold attrSet, withAttrs. simpl. f_equal.
  induction (tok_attrs t) as [|[n1 v1] a IH]; simpl.
  - by rewrite String.eqb_refl.
  - destruct (String.eqb n1 n) eqn:Hn; simpl; rewrite Hn; [done|by rewrite IH].
Qed.

Lemma alter_mark_mark (r r' : nat) (l : list Token) :
  alter withMark r (alter withMark r' l) = alter withMark r' (alter withMark r l).
Proof.
  destruct (decide (r = r')) as [->|Hne]; [done|].
  by apply list_alter_alter_ne.
Qed.

Lemma markAll_attr (n v : string) (r0 : nat) (rs : list nat) (l : list Token) :
  markAll rs (alter (attrSet n v) r0 l) = alter (attrSet n v) r0 (markAll rs l).
Proof.
  induction rs as [|r rs IH]; simpl; [done|].
  by rewrite IH, alter_mark_attr.
Qed.

Lemma markAll_mark (r : nat) (rs : list nat) (l : list Token) :
  markAll rs (alter withMark r l) = alter withMark r (markAll rs l).
Proof.
  induction rs as [|r' rs IH]; simpl; [done|].
  by rewrite IH, alter_mark_mark.
Qed.

Lemma markAll_absorbs_one (r : nat) (rs : list nat) (l : list Token) :
  r ∈ rs → alter withMark r (markAll rs l) = markAll rs l.
Proof.
  induction rs as [|r' rs IH]; simpl; [by intros ?%elem_of_nil|].
  intros [->|Hin]%elem_of_cons.
  - rewrite list_alter_alter_eq. apply list_alter_ext; [|done..]. by intros t _.
  - rewrite alter_mark_mark. by rewrite IH.
Qed.

Lemma markAll_absorbs (rs rs' : list nat) (l : list Token) :
  rs ⊆ rs' → markAll rs' (markAll rs l) = markAll rs' l.
Proof.
  induction rs as [|r rs IH]; intros Hsub; simpl; [done|].
  rewrite markAll_mark, IH.
  - apply markAll_absorbs_one, Hsub. by left.
  - intros x Hx. apply Hsub. by right.
Qed.

Lemma markAll_snoc (rs : list nat) (r : nat) (l : list Token) :
  markAll (rs ++ [r]) l = markAll rs (alter withMark r l).
Proof. unfold markAll. by rewrite foldr_app. Qed.

Lemma colspanBack_step (contentMap : list (list (list Z)))
    (tokenMap : list (list nat)) (i col : nat) (factor : Z) (ts : list Token) :
  colspanBack contentMap tokenMap i (S col) factor ts
  = if isSymbol (contentAt contentMap i col) COLSPAN_SYMBOL then
      ref ←r tokenAt tokenMap i col;
      colspanBack contentMap tokenMap i col (factor + 1) (alter withMark ref ts)
    else if isSymbol (contentAt contentMap i col) ROWSPAN_SYMBOL then Ret ts
    else
      ref ←r tokenAt tokenMap i col;
      Ret (alter (attrSet "colspan" (pretty factor)) ref ts).
Proof. done. Qed.

#[local] Arguments colspanBack : simpl never.
#[local] Arguments applySpansAt : simpl never.

Section ColspanRun.

Variable c : list Z.
Variable k : nat.
Variable r0 : nat.
Variable rs : list nat.

Hypothesis Hc1 : c ≠ COLSPAN_SYMBOL.
Hypothesis Hc2 : c ≠ ROWSPAN_SYMBOL.
Hypothesis Hrs : length rs = k.

Lemma colspanRun_content (col : nat) :
  (1 ≤ col ≤ k)%nat →
  contentAt [c :: replicate k COLSPAN_SYMBOL] 0 col = Some COLSPAN_SYMBOL.
Proof.
  intros Hcol. unfold contentAt. simpl.
  destruct col as [|col]; [lia|]. simpl.
  apply lookup_replicate_2. lia.
Qed.

Lemma colspanRun_token (col : nat) (r : nat) :
  rs !! col = Some r → tokenAt [r0 :: rs] 0 (S col) = Ret r.
Proof. intros Hr. unfold tokenAt. simpl. by rewrite Hr. Qed.

Lemma colspanRun_back (col : nat) :
  (col ≤ k)%nat →
  ∀ factor l,
    colspanBack [c :: replicate k COLSPAN_SYMBOL] [r0 :: rs] 0 (S col) factor l
    = Ret (alter (attrSet "colspan" (pretty (factor + Z.of_nat col))) r0
             (markAll (take col rs) l)).
Proof.
  induction col as [|col IH]; intros Hcol factor l.
  - rewrite colspanBack_step. unfold isSymbol, contentAt, tokenAt. simpl.
    rewrite !bool_decide_eq_false_2 by done. simpl.
    by rewrite Z.add_0_r.
  - rewrite (colspanBack_step _ _ _ (S col)).
    rewrite colspanRun_content by lia.
    unfold isSymbol at 1. rewrite bool_decide_eq_true_2 by done.
    destruct (lookup_lt_is_Some_2 rs col ltac:(lia)) as [r Hr].
    rewrite (colspanRun_token col r Hr). unfold bindRes at 1.
    rewrite IH by lia.
    rewrite (take_S_r rs col r Hr), markAll_snoc.
    by replace (factor + 1 + Z.of_nat col) with (factor + Z.of_nat (S col)) by lia.
Qed.

Lemma colspanRun_at (j : nat) (r : nat) (l : list Token) :
  (j < k)%nat → rs !! j = Some r →
  applySpansAt [c :: replicate k COLSPAN_SYMBOL] [r0 :: rs] 0 (S j) l
  = Ret (alter (attrSet "colspan" (pretty (Z.of_nat (S j) + 1))) r0
           (markAll (take (S j) rs) l)).
Proof.
  intros Hj Hr. unfold applySpansAt.
  rewrite colspanRun_content by lia.
  unfold isSymbol. rewrite bool_decide_eq_true_2 by done.
  rewrite (bool_decide_eq_false_2 (COLSPAN_SYMBOL = ROWSPAN_SYMBOL)) by done.
  simpl andb. cbn iota.
  rewrite (colspanRun_token j r Hr). simpl bindRes.
  rewrite colspanRun_back by lia. simpl bindRes.
  rewrite (take_S_r rs j r Hr), markAll_snoc.
  by replace (2 + Z.of_nat j) with (Z.of_nat (S j) + 1) by lia.
Qed.

Lemma colspanRun_loop (j : nat) (l : list Token) :
  (j ≤ k)%nat →
  forRes (seq 1 j)
    (λ j', applySpansAt [c :: replicate k COLSPAN_SYMBOL] [r0 :: rs] 0 j') l
  = Ret (if (j =? 0)%nat then l
         else alter (attrSet "colspan" (pretty (Z.of_nat j + 1))) r0
                (markAll (take j rs) l)).
Proof.
  induction j as [|j IH]; intros Hj; [done|].
  rewrite seq_S, forRes_app, IH by lia. simpl bindRes. simpl forRes.
  destruct (lookup_lt_is_Some_2 rs j ltac:(lia)) as [r Hr].
  rewrite (colspanRun_at j r _ ltac:(lia) Hr). simpl.
  f_equal. destruct j as [|j]; [done|].
  simpl Nat.eqb. cbn iota.
  rewrite markAll_attr, alter_attr_attr. f_equal.
  apply markAll_absorbs. intros x Hx.
  apply elem_of_take in Hx as (i & Hi & Hlt).
  apply elem_of_take. exists i. split; [done|lia].
Qed.

End ColspanRun.

(** X22. A run of colspan sentinels.  In a table of one row whose first
    cell, an ordinary one, is followed by [k >= 1] cells [>], the span
    resolver marks exactly those [k] cells for deletion and sets the
    [colspan] attribute of the first cell to [k + 1]; it changes nothing
    else and does not throw. *)
Theorem colspan_run (c : list Z) (k r0 : nat) (rs : list nat)
    (tokens : list Token) :
  c ≠ COLSPAN_SYMBOL → c ≠ ROWSPAN_SYMBOL → length rs = k → (1 ≤ k)%nat →
  applySpans [c :: replicate k COLSPAN_SYMBOL] [r0 :: rs] tokens
  = Ret (alter (attrSet "colspan" (pretty (Z.of_nat k + 1))) r0
           (markAll rs tokens)).
Proof.
  intros Hc1 Hc2 Hrs Hk. unfold applySpans. simpl length.
  rewrite length_replicate. simpl seq. simpl forRes.
  assert (applySpansAt [c :: replicate k COLSPAN_SYMBOL] [r0 :: rs] 0 0 tokens
          = Ret tokens) as ->.
  { unfold applySpansAt, isSymbol, contentAt. simpl.
    by rewrite !bool_decide_eq_false_2 by done. }
  simpl bindRes.
  rewrite (colspanRun_loop c k r0 rs Hc1 Hc2 Hrs k tokens) by lia.
  simpl bindRes. destruct k as [|k']; [lia|]. simpl Nat.eqb. cbn iota.
  by rewrite take_ge by lia.
Qed.

Lemma colspan_run_witness :
  applySpans [[codes "a"; codes ">"; codes ">"]] [[0; 1; 2]%nat]
    [newToken "yfm_td_open" "td" 1 3; newToken "yfm_td_open" "td" 1 3;
     newToken "yfm_td_open" "td" 1 3]
  = Ret [attrSet "colspan" "3" (newToken "yfm_td_open" "td" 1 3);
         withMark (newToken "yfm_td_open" "td" 1 3);
         withMark (newToken "yfm_td_open" "td" 1 3)].
Proof.
  apply (colspan_run (codes "a") 2 0 [1; 2]%nat
           [newToken "yfm_td_open" "td" 1 3; newToken "yfm_td_open" "td" 1 3;
            newToken "yfm_td_open" "td" 1 3]);
    [vm_compute; discriminate | vm_compute; discriminate | reflexivity | lia].
Defined.

Lemma rowspanUp_step (contentMap : list (list (list Z)))
    (tokenMap : list (list nat)) (row j : nat) (factor : Z) (ts : list Token) :
  rowspanUp contentMap tokenMap (S row) j factor ts
  = if isSymbol (contentAt contentMap row j) ROWSPAN_SYMBOL then
      ref ←r tokenAt tokenMap row j;
      rowspanUp contentMap tokenMap row j (factor + 1) (alter withMark ref ts)
    else if isSymbol (contentAt contentMap row j) COLSPAN_SYMBOL then Ret ts
    else
      ref ←r tokenAt tokenMap row j;
      Ret (alter (attrSet "rowspan" (pretty factor)) ref ts).
Proof. done. Qed.

#[local] Arguments rowspanUp : simpl never.

Section RowspanRun.

Variable c : list Z.
Variable k : nat.
Variable r0 : nat.
Variable rs : list nat.

Hypothesis Hc1 : c ≠ COLSPAN_SYMBOL.
Hypothesis Hc2 : c ≠ ROWSPAN_SYMBOL.
Hypothesis Hrs : length rs = k.

Lemma rowspanRun_content (row : nat) :
  (1 ≤ row ≤ k)%nat →
  contentAt ([c] :: replicate k [ROWSPAN_SYMBOL]) row 0 = Some ROWSPAN_SYMBOL.
Proof.
  intros Hrow. unfold contentAt.
  destruct row as [|row]; [lia|]. simpl.
  rewrite lookup_replicate_2 by lia. done.
Qed.

Lemma rowspanRun_token (row : nat) (r : nat) :
  rs !! row = Some r →
  tokenAt ([r0] :: ((λ r, [r]) <$> rs)) (S row) 0 = Ret r.
Proof.
  intros Hr. unfold tokenAt. simpl. rewrite list_lookup_fmap, Hr. done.
Qed.

Lemma rowspanRun_up (row : nat) :
  (row ≤ k)%nat →
  ∀ factor l,
    rowspanUp ([c] :: replicate k [ROWSPAN_SYMBOL])
      ([r0] :: ((λ r, [r]) <$> rs)) (S row) 0 factor l
    = Ret (alter (attrSet "rowspan" (pretty (factor + Z.of_nat row))) r0
             (markAll (take row rs) l)).
Proof.
  induction row as [|row IH]; intros Hrow factor l.
  - rewrite rowspanUp_step. unfold isSymbol, contentAt, tokenAt. simpl.
    rewrite !bool_decide_eq_false_2 by done. simpl.
    by rewrite Z.add_0_r.
  - rewrite (rowspanUp_step _ _ (S row)).
    rewrite rowspanRun_content by lia.
    unfold isSymbol at 1. rewrite bool_decide_eq_true_2 by done.
    destruct (lookup_lt_is_Some_2 rs row ltac:(lia)) as [r Hr].
    rewrite (rowspanRun_token row r Hr). unfold bindRes at 1.
    rewrite IH by lia.
    rewrite (take_S_r rs row r Hr), markAll_snoc.
    by replace (factor + 1 + Z.of_nat row) with (factor + Z.of_nat (S row)) by lia.
Qed.

Lemma rowspanRun_at (i : nat) (r : nat) (l : list Token) :
  (i < k)%nat → rs !! i = Some r →
  applySpansAt ([c] :: replicate k [ROWSPAN_SYMBOL])
    ([r0] :: ((λ r, [r]) <$> rs)) (S i) 0 l
  = Ret (alter (attrSet "rowspan" (pretty (Z.of_nat (S i) + 1))) r0
           (markAll (take (S i) rs) l)).
Proof.
  intros Hi Hr. unfold applySpansAt.
  rewrite rowspanRun_content by lia.
  unfold isSymbol.
  rewrite (bool_decide_eq_false_2 (ROWSPAN_SYMBOL = COLSPAN_SYMBOL)) by done.
  rewrite (bool_decide_eq_true_2 (ROWSPAN_SYMBOL = ROWSPAN_SYMBOL)) by done.
  simpl andb. cbn iota. simpl bindRes. simpl Nat.eqb. cbn iota.
  rewrite (rowspanRun_token i r Hr). simpl bindRes.
  rewrite rowspanRun_up by lia.
  rewrite (take_S_r rs i r Hr), markAll_snoc.
  by replace (2 + Z.of_nat i) with (Z.of_nat (S i) + 1) by lia.
Qed.

Lemma rowspanRun_loop (i : nat) (l : list Token) :
  (i ≤ k)%nat →
  forRes (seq 1 i)
    (λ i', forRes [0%nat]
             (λ j, applySpansAt ([c] :: replicate k [ROWSPAN_SYMBOL])
                     ([r0] :: ((λ r, [r]) <$> rs)) i' j)) l
  = Ret (if (i =? 0)%nat then l
         else alter (attrSet "rowspan" (pretty (Z.of_nat i + 1))) r0
                (markAll (take i rs) l)).
Proof.
  induction i as [|i IH]; intros Hi; [done|].
  rewrite seq_S, forRes_app, IH by lia. simpl bindRes. simpl forRes.
  destruct (lookup_lt_is_Some_2 rs i ltac:(lia)) as [r Hr].
  rewrite (rowspanRun_at i r _ ltac:(lia) Hr). simpl.
  f_equal. destruct i as [|i]; [done|].
  simpl Nat.eqb. cbn iota.
  rewrite markAll_attr, alter_attr_attr. f_equal.
  apply markAll_absorbs. intros x Hx.
  apply elem_of_take in Hx as (j & Hj & Hlt).
  apply elem_of_take. exists j. split; [done|lia].
Qed.

End RowspanRun.

(** X23. A run of rowspan sentinels.  In a table of one column whose
    first cell, an ordinary one, has [k >= 1] cells [^] below it, the
    span resolver marks exactly those [k] cells for deletion and sets the
    [rowspan] attribute of the first cell to [k + 1]; it changes nothing
    else and does not throw. *)
Theorem rowspan_run (c : list Z) (k r0 : nat) (rs : list nat)
    (tokens : list Token) :
  c ≠ COLSPAN_SYMBOL → c ≠ ROWSPAN_SYMBOL → length rs = k → (1 ≤ k)%nat →
  applySpans ([c] :: replicate k [ROWSPAN_SYMBOL])
    ([r0] :: ((λ r, [r]) <$> rs)) tokens
  = Ret (alter (attrSet "rowspan" (pretty (Z.of_nat k + 1))) r0
           (markAll rs tokens)).
Proof.
  intros Hc1 Hc2 Hrs Hk. unfold applySpans. simpl length.
  rewrite length_replicate.
  change (seq 0 (S k)) with (0%nat :: seq 1 k). simpl seq.
  cbn [forRes].
  assert (applySpansAt ([c] :: replicate k [ROWSPAN_SYMBOL])
            ([r0] :: ((λ r, [r]) <$> rs)) 0 0 tokens
          = Ret tokens) as ->.
  { unfold applySpansAt, isSymbol, contentAt. simpl.
    by rewrite !bool_decide_eq_false_2 by done. }
  simpl bindRes.
  pose proof (rowspanRun_loop c k r0 rs Hc1 Hc2 Hrs k tokens ltac:(lia)) as Hloop.
  cbn [forRes] in Hloop. rewrite Hloop.
  destruct k as [|k']; [lia|]. simpl Nat.eqb. cbn iota.
  by rewrite take_ge by lia.
Qed.

Lemma rowspan_run_witness :
  applySpans [[codes "a"]; [codes "^"]; [codes "^"]] [[0]; [1]; [2]]%nat
    [newToken "yfm_td_open" "td" 1 3; newToken "yfm_td_open" "td" 1 3;
     newToken "yfm_td_open" "td" 1 3]
  = Ret [attrSet "rowspan" "3" (newToken "yfm_td_open" "td" 1 3);
         withMark (newToken "yfm_td_open" "td" 1 3);
         withMark (newToken "yfm_td_open" "td" 1 3)].
Proof.
  apply (rowspan_run (codes "a") 2 0 [1; 2]%nat
           [newToken "yfm_td_open" "td" 1 3; newToken "yfm_td_open" "td" 1 3;
            newToken "yfm_td_open" "td" 1 3]);
    [vm_compute; discriminate | vm_compute; discriminate | reflexivity | lia].
Defined.

(** ** Padding and the shape of the maps *)

Lemma push_pair (state : StateBlock) :
  (push (push state "yfm_td_open" "td" 1).1 "yfm_td_close" "td" (-1)).1
  = setTokens
      (tokens state
       ++ [newToken "yfm_td_open" "td" 1 (level state);
           newToken "yfm_td_close" "td" (-1) (level state)])
      state.
Proof.
  destruct state. unfold push, setTokens, setLevel. simpl.
  rewrite <- app_assoc. simpl.
  by replace (level0 + 1 - 1) with level0 by lia.
Qed.

(** X24. The padding loop appends to the token stream, for each missing
    cell, one [yfm_td_open] and one [yfm_td_close] at the nesting level of
    the state, without line range, attributes or content and with
    nothing between them, and changes nothing else in the state, the
    nesting level included. *)
Theorem padCells_appends (n : nat) (state : StateBlock) :
  padCells n state
  = setTokens
      (tokens state
       ++ mjoin (replicate n [newToken "yfm_td_open" "td" 1 (level state);
                              newToken "yfm_td_close" "td" (-1) (level state)]))
      state.
Proof.
  revert state. induction n as [|n IH]; intros state.
  - simpl. rewrite app_nil_r. by destruct state.
  - change (padCells (S n) state)
      with (padCells n
              (push (push state "yfm_td_open" "td" 1).1 "yfm_td_close" "td" (-1)).1).
    rewrite push_pair, IH. simpl.
    destruct state. unfold setTokens. simpl. by rewrite <- app_assoc.
Qed.

Lemma buildCell_safe
    (tokenize : StateBlock → Z → Z → StateBlock)
    (extractClass : list Z → option (string * list Z))
    (state : StateBlock) (cell : CellSpan) :
  tokenizerAppends tokenize → (1 ≤ length (tokens state))%nat →
  ∃ state' ref content,
    buildCell tokenize extractClass state cell = Ret (state', ref, content).
Proof.
  intros Happ Hlen. destruct cell as [begin end_]. unfold buildCell. simpl.
  set (st1 := setLineMax _ (setEMark _ _ (setBMark _ _ (setTShift _ _ _)))).
  destruct (Happ st1 (line begin) (line end_ + 1)) as [new Hnew].
  set (st2 := tokenize st1 (line begin) (line end_ + 1)) in *.
  assert (length (tokens state) + 1 ≤ length (tokens st2))%nat as Hlen2.
  { rewrite Hnew. unfold st1. simpl.
    rewrite length_app, length_alter, length_app. simpl. lia. }
  destruct (Nat.ltb_spec (length (tokens st2)) 2) as [Hlt|_]; [lia|].
  destruct (lookup_lt_is_Some_2 (tokens st2) (length (tokens st2) - 2) ltac:(lia))
    as [ct Hct].
  rewrite Hct. simpl.
  match goal with
  | |- context [extractAndApplyClassFromToken _ _ _ ?st] => set (st3 := st)
  end.
  assert (is_Some (tokens st3 !! (length (tokens st2) - 2)%nat)) as [ct3 Hct3].
  { apply lookup_lt_is_Some_2. unfold st3. simpl.
    rewrite length_alter, length_app. simpl. lia. }
  unfold extractAndApplyClassFromToken. rewrite Hct3. simpl.
  destruct (extractClass (tok_content ct3)) as [[cls content]|]; simpl;
    by do 3 eexists.
Qed.

Lemma buildCells_safe
    (tokenize : StateBlock → Z → Z → StateBlock)
    (extractClass : list Z → option (string * list Z)) (cols : list CellSpan) :
  tokenizerAppends tokenize →
  ∀ state cells contents, (1 ≤ length (tokens state))%nat →
    ∃ state' cells' contents',
      buildCells tokenize extractClass state cols cells contents
      = Ret (state', cells', contents').
Proof.
  intros Happ. induction cols as [|cell cols IH];
    intros state cells contents Hlen; simpl.
  - by do 3 eexists.
  - destruct (buildCell_safe tokenize extractClass state cell Happ Hlen)
      as (st & ref & content & Hcell).
    rewrite Hcell. simpl. apply IH.
    assert (0 < length (tokens state))%nat as Hpos by lia.
    apply (buildCell_prefix _ _ _ _ _ _ _ 0 Happ Hpos) in Hcell
      as (_ & Hgrow & _).
    lia.
Qed.

Lemma buildRows_safe
    (tokenize : StateBlock → Z → Z → StateBlock)
    (extractClass : list Z → option (string * list Z)) (maxRowLength : Z)
    (rws : list Row) :
  tokenizerAppends tokenize →
  ∀ state cellsMap contentMap,
    ∃ state' cellsMap' contentMap',
      buildRows tokenize extractClass maxRowLength state rws cellsMap contentMap
      = Ret (state', cellsMap', contentMap').
Proof.
  intros Happ.
  induction rws as [|[[rowLineStarts rowLineEnds] cols] rws IH];
    intros state cellsMap contentMap; simpl.
  - by do 3 eexists.
  - match goal with
    | |- context [buildCells _ _ ?st0 _ _ _] =>
        destruct (buildCells_safe tokenize extractClass cols Happ st0 [] [])
          as (st & cells & contents & Hcells)
    end.
    { simpl. rewrite length_alter, length_app. simpl. lia. }
    rewrite Hcells. simpl. destruct (_ <? maxRowLength); apply IH.
Qed.

Lemma buildRows_cell_widths
    (tokenize : StateBlock → Z → Z → StateBlock)
    (extractClass : list Z → option (string * list Z)) (maxRowLength : Z)
    (rws : list Row) :
  ∀ state cellsMap contentMap state' cellsMap' contentMap',
    buildRows tokenize extractClass maxRowLength state rws cellsMap contentMap
    = Ret (state', cellsMap', contentMap') →
    length <$> cellsMap'
    = (length <$> cellsMap) ++ ((λ r : Row, length r.2) <$> rws).
Proof.
  induction rws as [|[[rowLineStarts rowLineEnds] cols] rws IH];
    intros state cellsMap contentMap state' cellsMap' contentMap'; simpl.
  - intros [= _ <- _]. by rewrite app_nil_r.
  - destruct (buildCells tokenize extractClass _ cols [] [])
      as [[[st cells] contents]| |] eqn:Hcells; [|done|done]. simpl.
    apply buildCells_widths in Hcells as [Hw _]. simpl in Hw.
    destruct (_ <? maxRowLength).
    + intros H%IH. rewrite H, fmap_app. simpl. rewrite Hw.
      by rewrite <- app_assoc.
    + intros H%IH. rewrite H, fmap_app. simpl. rewrite Hw.
      by rewrite <- app_assoc.
Qed.

Lemma rowsFull_lengths (contentMap : list (list (list Z))) :
  rowsFull contentMap = fullLengths (length <$> contentMap).
Proof.
  unfold rowsFull, fullLengths.
  assert (default 0%nat ((length <$> contentMap) !! 0%nat)
          = length (default [] (contentMap !! 0%nat))) as ->.
  { rewrite list_lookup_fmap. by destruct (contentMap !! 0%nat). }
  generalize (length (default [] (contentMap !! 0%nat))). intros w.
  induction contentMap as [|row cm IH]; simpl; [done|]. by rewrite IH.
Qed.

(** X25. The rule does not throw on a table none of whose rows has fewer
    cells than the first.  On a host whose tokenizer only appends, when
    the scan of the region returns such rows, the rule returns a state and
    a result: it builds the table, emits the lint token or declines. *)
Theorem yfmTable_safe
    (tokenize : StateBlock → Z → Z → StateBlock)
    (parseAttrs : list Z → list (string * list string))
    (extractClass : list Z → option (string * list Z))
    (opts : YfmTablePluginOptions) (state : StateBlock) (startLine endLine : Z)
    (silent : bool) :
  tokenizerAppends tokenize →
  (λ r, rowsAtLeastFirst (rp_rows r))
    <$> getTableRowPositions state
          (nplus (bMarks state !! startLine) (tShift state !! startLine))
          (eMarks state !! endLine) startLine opts
  = Some true →
  ∃ state' result,
    yfmTable tokenize parseAttrs extractClass opts state startLine endLine silent
    = Ret (state', result).
Proof.
  intros Happ Hrows. unfold yfmTable.
  destruct (nlt _ _); [by do 2 eexists|].
  destruct (negb _); [by do 2 eexists|].
  destruct silent; [by do 2 eexists|].
  destruct (getTableRowPositions _ _ _ _ _) as [[rws e p]|]; [|done].
  simpl in Hrows. injection Hrows as Hrows.
  destruct (if truthy e then e else None) as [eot|]; [|by do 2 eexists].
  simpl.
  match goal with
  | |- context [buildRows _ _ ?m ?st0 _ _ _] =>
      destruct (buildRows_safe tokenize extractClass m rws Happ st0 [] [])
        as (st & cellsMap & contentMap & Hbuild)
  end.
  rewrite Hbuild. simpl.
  pose proof (buildRows_widths _ _ _ _ _ _ _ _ _ _ Hbuild) as Hcontent.
  pose proof (buildRows_cell_widths _ _ _ _ _ _ _ _ _ _ Hbuild) as Hcells.
  simpl in Hcontent, Hcells.
  assert (∃ ts, applySpans contentMap cellsMap (tokens st) = Ret ts)
    as [ts Hspans].
  { unfold applySpans.
    apply forRes_safe. intros i ts Hi%elem_of_seq.
    apply forRes_safe. intros j ts1 Hj%elem_of_seq.
    apply applySpansAt_safe; [| | lia | lia].
    - unfold mapsAgree. apply bool_decide_eq_true. congruence.
    - rewrite rowsFull_lengths, Hcontent. exact Hrows. }
  rewrite Hspans. simpl. by do 2 eexists.
Qed.

Lemma yfmTable_safe_witness :
  ∃ state' result,
    yfmTable plainTokenizer noAttrs noClass defaultOpts squareDoc 0
      (lineMax squareDoc) false
    = Ret (state', result).
Proof.
  apply (yfmTable_safe plainTokenizer noAttrs noClass defaultOpts squareDoc 0
           (lineMax squareDoc) false plainTokenizer_appends).
  vm_compute. reflexivity.
Defined.

(** ** Compaction inside the rule *)

Lemma shapeOf_alter (f : Token → Token) (i : nat) (l : list Token) :
  (∀ t, shapeOf (f t) = shapeOf t) →
  shapeOf <$> alter f i l = shapeOf <$> l.
Proof.
  intros Hf. revert i. induction l as [|t l IH]; intros [|i]; simpl; [done..| |].
  - by rewrite Hf.
  - f_equal. apply IH.
Qed.

Lemma cellsClosed_app (n : nat) (sh more : list (string * Z * bool))
    (refs : list nat) :
  cellsClosed n sh refs → Forall (λ s, s.2 = false) more →
  cellsClosed n (sh ++ more) refs.
Proof.
  intros [HU HR] Hmore. split.
  - intros k s Hk Hl. apply lookup_app_Some in Hl as [Hl|[_ Hl]].
    + by apply (HU k).
    + by apply (Forall_lookup_1 _ _ _ _ Hmore Hl).
  - intros i Hi. destruct (HR i Hi) as (Hn & c & ty & lvl & Hic & Hli & Hlc & Hrs).
    split; [done|]. exists c, ty, lvl.
    split; [done|]. split; [by apply lookup_app_l_Some|].
    split; [by apply lookup_app_l_Some|done].
Qed.

Lemma cellsClosed_cell (n : nat) (sh new : list (string * Z * bool))
    (lvl : Z) (refs : list nat) :
  cellsClosed n sh refs → (n < length sh)%nat →
  Forall (λ s, s.2 = false) new →
  cellsClosed n
    (sh ++ [("yfm_td_open", lvl, false)] ++ new ++ [("yfm_td_close", lvl, false)])
    (refs ++ [length sh]).
Proof.
  intros Hcl Hn Hnew.
  assert (Forall (λ s : string * Z * bool, s.2 = false)
            ([("yfm_td_open", lvl, false)] ++ new ++ [("yfm_td_close", lvl, false)]))
    as Hmore.
  { apply Forall_app. split; [by constructor|].
    apply Forall_app. split; [done|by constructor]. }
  split; [by apply (cellsClosed_app n sh _ refs Hcl Hmore)|].
  destruct Hcl as [_ HR].
  intros i [Hi| ->%list_elem_of_singleton]%elem_of_app.
  - destruct (HR i Hi) as (Hni & c & ty & l & Hic & Hli & Hlc & Hrs).
    split; [done|]. exists c, ty, l.
    split; [done|]. split; [by apply lookup_app_l_Some|].
    split; [by apply lookup_app_l_Some|].
    intros r [Hr| ->%list_elem_of_singleton]%elem_of_app; [by apply Hrs|].
    right. by apply lookup_lt_Some in Hlc.
  - split; [done|].
    exists (length sh + 1 + length new)%nat, "yfm_td_open", lvl.
    split; [lia|]. split.
    { rewrite lookup_app_r by lia. by rewrite Nat.sub_diag. }
    split.
    { rewrite lookup_app_r by lia.
      replace (length sh + 1 + length new - length sh)%nat
        with (1 + length new)%nat by lia.
      simpl. rewrite lookup_app_r by lia. by rewrite Nat.sub_diag. }
    intros r [Hr| ->%list_elem_of_singleton]%elem_of_app; [|left; lia].
    left. destruct (HR r Hr) as (_ & c & ty & l & Hic & _ & Hlc & _).
    apply lookup_lt_Some in Hlc. lia.
Qed.

Lemma push_shape (state : StateBlock) (type tag : string) (nesting : Z) :
  tokens (push state type tag nesting).1
  = tokens state
    ++ [newToken type tag nesting
          (if nesting <? 0 then level state - 1 else level state)].
Proof. done. Qed.

Lemma buildCell_shape
    (tokenize : StateBlock → Z → Z → StateBlock)
    (extractClass : list Z → option (string * list Z))
    (state : StateBlock) (cell : CellSpan)
    (state' : StateBlock) (ref : nat) (content : list Z) :
  tokenizerUnmarked tokenize → tokenizerLevel tokenize →
  buildCell tokenize extractClass state cell = Ret (state', ref, content) →
  ref = length (tokens state)
  ∧ ∃ new,
      Forall (λ s : string * Z * bool, s.2 = false) new
      ∧ shapeOf <$> tokens state'
        = (shapeOf <$> tokens state)
          ++ [("yfm_td_open", level state, false)] ++ new
          ++ [("yfm_td_close", level state, false)].
Proof.
  intros Hun Hlevel Hcell.
  destruct (buildCell_steps _ _ _ _ _ _ _ Hcell)
    as (st1 & Hst1 & Hl1 & Href & _ & _ & Htokens).
  split; [done|].
  destruct (Hun st1 (line cell.1) (line cell.2 + 1)) as (new & Hnew & Hmarks).
  exists (shapeOf <$> new). split.
  { apply Forall_fmap. eapply Forall_impl; [exact Hmarks|]. by intros t. }
  assert (shapeOf <$>
            tokens (tokenize st1 (line cell.1) (line cell.2 + 1))
            ++ [withMap (line cell.2, line cell.2 + 1)
                  (newToken "yfm_td_close" "td" (-1)
                     (level (tokenize st1 (line cell.1) (line cell.2 + 1)) - 1))]
          = (shapeOf <$> tokens state)
            ++ [("yfm_td_open", level state, false)] ++ (shapeOf <$> new)
            ++ [("yfm_td_close", level state, false)]) as Hshape.
  { rewrite Hnew, Hst1, Hlevel, Hl1. rewrite !fmap_app. simpl.
    rewrite <- !app_assoc. simpl. unfold shapeOf at 4. simpl.
    by replace (level state + 1 - 1) with (level state) by lia. }
  destruct Htokens as [->|(cls & c & ->)]; [done|].
  rewrite !shapeOf_alter; done.
Qed.

Lemma buildCells_shape
    (tokenize : StateBlock → Z → Z → StateBlock)
    (extractClass : list Z → option (string * list Z)) (cols : list CellSpan)
    (n : nat) (outer : list nat) :
  tokenizerUnmarked tokenize → tokenizerLevel tokenize →
  ∀ state cells contents state' cells' contents',
    (n < length (tokens state))%nat →
    cellsClosed n (shapeOf <$> tokens state) (outer ++ cells) →
    buildCells tokenize extractClass state cols cells contents
    = Ret (state', cells', contents') →
    (n < length (tokens state'))%nat
    ∧ cellsClosed n (shapeOf <$> tokens state') (outer ++ cells').
Proof.
  intros Hun Hlevel.
  induction cols as [|cell cols IH];
    intros state cells contents state' cells' contents' Hn Hcl; simpl.
  - by intros [= <- <- <-].
  - destruct (buildCell _ _ _ _) as [[[st ref] content]| |] eqn:Hcell; [|done..].
    simpl. intros Hrest.
    destruct (buildCell_shape _ _ _ _ _ _ _ Hun Hlevel Hcell)
      as (-> & new & Hnew & Hshape).
    apply (IH _ _ _ _ _ _) in Hrest; [done| |].
    + apply (f_equal length) in Hshape.
      rewrite !length_app, !length_fmap in Hshape. lia.
    + rewrite Hshape.
      replace (outer ++ cells ++ [length (tokens state)])
        with ((outer ++ cells) ++ [length (shapeOf <$> tokens state)])
        by (by rewrite length_fmap, <- app_assoc).
      apply cellsClosed_cell; [done| by rewrite length_fmap |done].
Qed.

Lemma padCells_shape (k n : nat) (refs : list nat) :
  ∀ state, (n < length (tokens state))%nat →
    cellsClosed n (shapeOf <$> tokens state) refs →
    (n < length (tokens (padCells k state)))%nat
    ∧ cellsClosed n (shapeOf <$> tokens (padCells k state)) refs.
Proof.
  induction k as [|k IH]; intros state Hn Hcl; [done|].
  simpl. apply IH; simpl.
  - rewrite !length_app. lia.
  - rewrite !fmap_app. rewrite <- app_assoc.
    apply cellsClosed_app; [done|]. by repeat constructor.
Qed.

Lemma buildRows_shape
    (tokenize : StateBlock → Z → Z → StateBlock)
    (extractClass : list Z → option (string * list Z)) (maxRowLength : Z)
    (rws : list Row) (n : nat) :
  tokenizerUnmarked tokenize → tokenizerLevel tokenize →
  ∀ state cellsMap contentMap state' cellsMap' contentMap',
    (n < length (tokens state))%nat →
    cellsClosed n (shapeOf <$> tokens state) (concat cellsMap) →
    buildRows tokenize extractClass maxRowLength state rws cellsMap contentMap
    = Ret (state', cellsMap', contentMap') →
    (n < length (tokens state'))%nat
    ∧ cellsClosed n (shapeOf <$> tokens state') (concat cellsMap').
Proof.
  intros Hun Hlevel.
  induction rws as [|[[rowLineStarts rowLineEnds] cols] rws IH];
    intros state cellsMap contentMap state' cellsMap' contentMap' Hn Hcl; simpl.
  - by intros [= <- <- <-].
  - destruct (buildCells _ _ _ _ _ _) as [[[st cells] contents]| |] eqn:Hcells;
      [|done..].
    simpl. intros Hrest.
    apply (buildCells_shape _ _ _ n (concat cellsMap) Hun Hlevel) in Hcells
      as [Hn1 Hcl1].
    2:{ simpl. rewrite length_alter, length_app. lia. }
    2:{ simpl. rewrite app_nil_r. rewrite shapeOf_alter by done.
        rewrite fmap_app. apply cellsClosed_app; [done|]. by repeat constructor. }
    apply (IH _ _ _ _ _ _) in Hrest; [done| |].
    + destruct (_ <? _); simpl; rewrite length_app; [|lia].
      destruct (padCells_shape (Z.to_nat (maxRowLength - Z.of_nat (length cols)))
                  n (concat cellsMap ++ cells) st Hn1 Hcl1) as [Hn2 _]. lia.
    + rewrite concat_app. simpl. rewrite app_nil_r.
      destruct (_ <? _); simpl; rewrite fmap_app.
      * apply cellsClosed_app; [|by repeat constructor].
        by apply padCells_shape.
      * apply cellsClosed_app; [done|by repeat constructor].
Qed.

Lemma tokenAt_concat (tokenMap : list (list nat)) (i j ref : nat) :
  tokenAt tokenMap i j = Ret ref → ref ∈ concat tokenMap.
Proof.
  unfold tokenAt. destruct (tokenMap !! i) as [row|] eqn:Hrow; [|done]. simpl.
  destruct (row !! j) as [r|] eqn:Hr; [|done]. simpl. intros [= <-].
  apply list_elem_of_In, in_concat. exists row.
  split; apply list_elem_of_In; by eapply list_elem_of_lookup_2.
Qed.

(** The span resolver leaves type and depth of every token as they are,
    and marks cells of the token map only. *)
Lemma applySpans_marks (contentMap : list (list (list Z)))
    (tokenMap : list (list nat)) (ts0 ts : list Token) :
  applySpans contentMap tokenMap ts0 = Ret ts →
  (λ t, (tok_type t, tok_level t)) <$> ts = (λ t, (tok_type t, tok_level t)) <$> ts0
  ∧ ∀ k, marked ts k = true → marked ts0 k = true ∨ k ∈ concat tokenMap.
Proof.
  intros Hspans.
  apply (applySpans_writes
           (λ ts, (λ t, (tok_type t, tok_level t)) <$> ts
                  = (λ t, (tok_type t, tok_level t)) <$> ts0
                  ∧ ∀ k, marked ts k = true
                         → marked ts0 k = true ∨ k ∈ concat tokenMap)
           contentMap tokenMap) with (ts := ts0);
    [|split; [done|by left]|done].
  intros ts1 ref i j f [Hshape Hmarks] Href Hf. split.
  - rewrite <- Hshape. clear -Hf.
    revert ref. induction ts1 as [|t ts1 IH]; intros [|ref]; simpl.
    + done.
    + done.
    + by destruct Hf as [->|[[v ->]|[v ->]]].
    + f_equal. apply IH.
  - intros k. destruct (decide (k = ref)) as [->|Hne].
    + intros _. right. by eapply tokenAt_concat.
    + unfold marked. rewrite list_lookup_alter_ne by done. apply Hmarks.
Qed.

(** The first close element after [i] at the depth of [i] is found, and
    it does not lie beyond any such element. *)
Lemma closeOf_before (tokens : list Token) (i c : nat) (t tc : Token) :
  tokens !! i = Some t → tokens !! c = Some tc → (i < c)%nat →
  isCloseAt (tok_level t) tc →
  ∃ j, closeOf tokens i = Some j ∧ (i < j ≤ c)%nat.
Proof.
  intros Hi Hc Hic Hclose. unfold closeOf. rewrite Hi. simpl.
  assert (drop (S i) tokens !! (c - S i)%nat = Some tc) as Hdrop.
  { rewrite lookup_drop. by replace (S i + (c - S i))%nat with c by lia. }
  destruct (list_find (isCloseAt (tok_level t)) (drop (S i) tokens))
    as [[r x]|] eqn:Hfind.
  - simpl. eexists. split; [done|].
    apply list_find_Some in Hfind as (_ & _ & Hmin).
    destruct (decide (r ≤ c - S i)%nat) as [Hle|Hgt]; [lia|].
    destruct (Hmin (c - S i)%nat tc Hdrop ltac:(lia) Hclose).
  - apply list_find_None in Hfind.
    destruct (Forall_lookup_1 _ _ _ _ Hfind Hdrop Hclose).
Qed.

(** The matching close is the nearest close element at the same depth. *)
Lemma closeOf_nearest (tokens : list Token) (i j : nat) :
  closeOf tokens i = Some j
  ↔ ∃ t tj, tokens !! i = Some t ∧ tokens !! j = Some tj ∧ (i < j)%nat
            ∧ isCloseAt (tok_level t) tj
            ∧ ∀ k tk, (i < k < j)%nat → tokens !! k = Some tk
                      → ¬ isCloseAt (tok_level t) tk.
Proof.
  unfold closeOf. split.
  - destruct (tokens !! i) as [t|] eqn:Hi; [|done]. simpl.
    destruct (list_find _ _) as [[r x]|] eqn:Hfind; [|done]. simpl.
    intros [= <-]. apply list_find_Some in Hfind as (Hr & Hx & Hmin).
    rewrite lookup_drop in Hr.
    exists t, x. split; [done|]. split; [done|]. split; [lia|]. split; [done|].
    intros k tk Hk Hlk. apply (Hmin (k - S i)%nat); [|lia].
    rewrite lookup_drop. by replace (S i + (k - S i))%nat with k by lia.
  - intros (t & tj & Hi & Hj & Hij & Hclose & Hmin). rewrite Hi. simpl.
    destruct (closeOf_before tokens i j t tj Hi Hj Hij Hclose) as (j' & Hc & Hj').
    unfold closeOf in Hc. rewrite Hi in Hc. simpl in Hc. rewrite Hc. f_equal.
    destruct (decide (j' = j)) as [->|Hne]; [done|].
    destruct (list_find _ _) as [[r x]|] eqn:Hfind; [|done]. simpl in Hc.
    injection Hc as <-. apply list_find_Some in Hfind as (Hr & Hx & _).
    rewrite lookup_drop in Hr.
    destruct (Hmin (S i + r)%nat x ltac:(lia) Hr Hx).
Qed.

Lemma cells_compactable (n : nat) (ts0 ts : list Token) (refs : list nat) :
  cellsClosed n (shapeOf <$> ts0) refs →
  (λ t, (tok_type t, tok_level t)) <$> ts = (λ t, (tok_type t, tok_level t)) <$> ts0 →
  (∀ k, marked ts k = true → marked ts0 k = true ∨ k ∈ refs) →
  firstKept n ts = true
  ∧ noMarkedInside n ts = true
  ∧ ∀ i, (n ≤ i)%nat → marked ts i = true → is_Some (closeOf ts i).
Proof.
  intros [HU HR] Hshape Hmarks.
  assert (∀ k, (n ≤ k)%nat → marked ts k = true → k ∈ refs) as Href.
  { intros k Hk Hm. destruct (Hmarks k Hm) as [Hm0|]; [|done].
    unfold marked in Hm0. destruct (ts0 !! k) as [t|] eqn:Hl; [|done].
    simpl in Hm0. specialize (HU k (shapeOf t) Hk).
    rewrite list_lookup_fmap, Hl in HU. simpl in HU.
    rewrite HU in Hm0 by done. done. }
  assert (∀ k ty lvl mk, (shapeOf <$> ts0) !! k = Some (ty, lvl, mk) →
            ∃ t, ts !! k = Some t ∧ tok_type t = ty ∧ tok_level t = lvl) as Hlook.
  { intros k ty lvl mk Hl. rewrite list_lookup_fmap in Hl.
    destruct (ts0 !! k) as [t0|] eqn:Hl0; [|done]. injection Hl as <- <- <-.
    pose proof (f_equal (λ l, l !! k) Hshape) as Hk. simpl in Hk.
    rewrite !list_lookup_fmap, Hl0 in Hk.
    destruct (ts !! k) as [t|]; [|done]. injection Hk as Hty Hlvl.
    by exists t. }
  assert (∀ i, (n ≤ i)%nat → marked ts i = true →
            ∃ j c, closeOf ts i = Some j ∧ (i < j ≤ c)%nat
                   ∧ ∀ r, r ∈ refs → (r ≤ i)%nat ∨ (c < r)%nat) as Hclose.
  { intros i Hi Hm.
    destruct (HR i (Href i Hi Hm)) as (_ & c & ty & lvl & Hic & Hli & Hlc & Hrs).
    destruct (Hlook _ _ _ _ Hli) as (t & Ht & _ & Hlvl).
    destruct (Hlook _ _ _ _ Hlc) as (tc & Htc & Hty & Hlvlc).
    destruct (closeOf_before ts i c t tc Ht Htc Hic) as (j & Hj & Hij).
    { split; [done|congruence]. }
    by exists j, c. }
  split; [|split].
  - unfold firstKept. destruct n as [|n]; [|done]. simpl.
    destruct (marked ts 0) eqn:Hm; [|done].
    destruct (HR 0%nat (Href 0%nat ltac:(lia) Hm)) as [Hlt _]. lia.
  - unfold noMarkedInside. apply forallb_forall. intros i Hi%in_seq.
    destruct (marked ts i) eqn:Hm; [|done]. simpl.
    destruct (Hclose i ltac:(lia) Hm) as (j & c & -> & Hij & Hrs).
    apply forallb_forall. intros k Hk%in_seq.
    destruct (marked ts k) eqn:Hmk; [|done].
    destruct (Hrs k (Href k ltac:(lia) Hmk)); lia.
  - intros i Hi Hm. destruct (Hclose i Hi Hm) as (j & _ & -> & _). by eexists.
Qed.

Lemma plainTokenizer_unmarked : tokenizerUnmarked plainTokenizer.
Proof.
  intros st a b. unfold plainTokenizer. simpl.
  rewrite alter_last. eexists. rewrite <- !app_assoc. split; [reflexivity|].
  by repeat constructor.
Qed.

Lemma tokenizerUnmarked_appends (tokenize : StateBlock → Z → Z → StateBlock) :
  tokenizerUnmarked tokenize → tokenizerAppends tokenize.
Proof. intros Hun st a b. destruct (Hun st a b) as (new & Hnew & _). by exists new. Qed.

(** Without a marked cell at index [0] and without a marked cell inside
    the range of another, the compactor keeps exactly the tokens that lie
    in no range from a marked cell to its matching close. *)
Lemma clearTokens_filter (tableStart : nat) (tokens : list Token) :
  firstKept tableStart tokens = true →
  noMarkedInside tableStart tokens = true →
  clearTokens tableStart tokens
  = filterIdx (λ k, negb (removedAt tableStart tokens k)) 0 tokens.
Proof.
  intros Hfirst Hinside. unfold clearTokens.
  rewrite collectSplices_items, app_nil_r, foldl_reverse.
  destruct (decide (tableStart ≤ length tokens)%nat) as [Hle|Hgt].
  - pose proof (clear_suffix tableStart tokens Hfirst Hinside
                  (drop tableStart tokens) (take tableStart tokens)) as Hc.
    rewrite length_take, Nat.min_l in Hc by done.
    rewrite Hc by (by rewrite ?take_drop).
    rewrite (filterIdx_kept _ tableStart tokens 0 Hle); [done|].
    intros k Hk. apply negb_true_iff, not_true_is_false.
    rewrite removedAt_spec. intros (i & j & Hi & _ & _ & Hik). lia.
  - rewrite drop_ge by lia. simpl.
    rewrite (filterIdx_kept _ (length tokens) tokens 0); [|done|].
    + rewrite take_ge, drop_ge by lia. simpl. by rewrite app_nil_r.
    + intros k Hk. apply negb_true_iff, not_true_is_false.
      rewrite removedAt_spec. intros (i & j & Hi & _). lia.
Qed.

(** The tokens the rule hands to the compactor, and what it makes of
    them. *)
Lemma rule_compaction
    (tokenize : StateBlock → Z → Z → StateBlock)
    (parseAttrs : list Z → list (string * list string))
    (extractClass : list Z → option (string * list Z))
    (opts : YfmTablePluginOptions) (state : StateBlock) (startLine endLine : Z)
    (state' : StateBlock) :
  tokenizerUnmarked tokenize → tokenizerLevel tokenize →
  yfmTable tokenize parseAttrs extractClass opts state startLine endLine false
  = Ret (state', true) →
  ∃ r endOfTable st cellsMap contentMap ts,
    getTableRowPositions state
      (nplus (bMarks state !! startLine) (tShift state !! startLine))
      (eMarks state !! endLine) startLine opts = Some r
    ∧ rp_endOfTable r = Some endOfTable
    ∧ buildRows tokenize extractClass (maxRowLengthOf (rp_rows r))
        (tableHead state startLine endOfTable
           (extractAttributes parseAttrs state (rp_pos r)))
        (rp_rows r) [] []
      = Ret (st, cellsMap, contentMap)
    ∧ applySpans contentMap cellsMap (tokens st) = Ret ts
    ∧ firstKept (length (tokens state)) ts = true
    ∧ noMarkedInside (length (tokens state)) ts = true
    ∧ (∀ i, (length (tokens state) ≤ i)%nat → marked ts i = true →
            is_Some (closeOf ts i))
    ∧ (length (tokens state) < length ts)%nat
    ∧ tokens state'
      = clearTokens (length (tokens state)) ts
        ++ [newToken "yfm_tbody_close" "tbody" (-1) (level state' + 1);
            withMap (endOfTable, endOfTable + 1)
              (newToken "yfm_table_close" "table" (-1) (level state'))].
Proof.

  intros Hun Hlevel. unfold yfmTable.
  destruct (nlt _ _); [by intros [= <-]|].
  destruct (negb _); [by intros [= <-]|].
  destruct (getTableRowPositions _ _ _ _ _) as [[rws e p]|] eqn:Hscan; [|done].
  destruct e as [eot|]; [|done].
  cbn [truthy]. destruct (negb (eot =? 0)); [|done].
  simpl.
  match goal with
  | |- context [buildRows _ _ _ ?st0 _ _ _] =>
      change st0
        with (tableHead state startLine eot (extractAttributes parseAttrs state p))
  end.
  destruct (buildRows _ _ _ _ _ _ _) as [[[st cellsMap] contentMap]| |] eqn:Hrows;
    [|done|done].
  simpl.
  destruct (applySpans contentMap cellsMap (tokens st)) as [ts| |] eqn:Hspans;
    [|done|done].
  simpl. intros [= <-]. simpl.
  exists {| rp_rows := rws; rp_endOfTable := Some eot; rp_pos := p |}, eot,
    st, cellsMap, contentMap, ts.
  split; [done|]. split; [done|]. split; [done|]. split; [done|].
  set (n := length (tokens state)).
  assert (cellsClosed n
            (shapeOf <$> tokens (tableHead state startLine eot
                                   (extractAttributes parseAttrs state p))) [])
    as Hhead.
  { split; [|by intros i Hi%elem_of_nil].
    unfold tableHead. simpl. rewrite !alter_last, <- app_assoc. simpl.
    intros k s Hk. rewrite list_lookup_fmap.
    rewrite lookup_app_r by (unfold n; lia).
    destruct (k - length (tokens state))%nat as [|[|k']]; simpl.
    - intros [= <-]. simpl. by rewrite applyAttrs_mark.
    - by intros [= <-].
    - done. }
  apply (buildRows_shape _ _ _ _ n Hun Hlevel) in Hrows as [Hlen Hcl];
    [|unfold tableHead, n; simpl; rewrite !alter_last, !length_app; simpl; lia
     |done].
  destruct (applySpans_marks _ _ _ _ Hspans) as [Hshape Hmarks].
  destruct (cells_compactable n (tokens st) ts (concat cellsMap) Hcl Hshape Hmarks)
    as (Hfirst & Hinside & Hclose).
  split; [done|]. split; [done|]. split; [done|].
  split.
  { apply (f_equal length) in Hshape. rewrite !length_fmap in Hshape. lia. }
  rewrite length_app. simpl.
  replace (length (clearTokens n ts ++
                   [newToken "yfm_tbody_close" "tbody" (-1) (level st - 1)]) + 1 - 1)%nat
    with (length (clearTokens n ts ++
                   [newToken "yfm_tbody_close" "tbody" (-1) (level st - 1)]))
    by lia.
  rewrite alter_last. rewrite <- !app_assoc. simpl. do 3 f_equal.
  replace (level st - 1 - 1 + 1) with (level st - 1) by lia. done.
Qed.

(** C8. Compaction.  Whatever the token list, the deletions are
    collected as splices in strictly descending order of their start
    index, and they are applied in that order.  When no marked cell sits
    at token index [0] or inside the range of another marked cell, the
    result is the token list without the tokens that lie between a marked
    cell and its matching close (the first [yfm_td_close] after it at its
    depth), ends included: such a cell goes with its close and all that
    is between them, while a marked cell without a matching close is part
    of no deletion and stays whole, as does every token outside the
    deleted ranges.  The rule meets both conditions: on a host whose
    tokenizer only appends tokens, none of them marked, and keeps the
    nesting level, the tokens [ts] that [yfmTable] hands to the compactor
    (the rows built from [tableHead], the spans applied) hold no marked
    cell at index [0] and none inside another marked cell's range, every
    marked cell among them has its matching close, and the rule leaves in
    the state exactly [ts] without those ranges, followed by the two
    closing tokens. *)
Theorem compaction_removes_marked_cells
    (tokenize : StateBlock → Z → Z → StateBlock)
    (parseAttrs : list Z → list (string * list string))
    (extractClass : list Z → option (string * list Z))
    (opts : YfmTablePluginOptions) (state : StateBlock) (startLine endLine : Z)
    (state' : StateBlock) (tableStart : nat) (toks : list Token) :
  StronglySorted (λ a b : nat * option nat, (b.1 < a.1)%nat)
    (collectSplices (drop tableStart toks) tableStart [])
  ∧ (firstKept tableStart toks = true →
     noMarkedInside tableStart toks = true →
     clearTokens tableStart toks
     = filterIdx (λ k, negb (removedAt tableStart toks k)) 0 toks)
  ∧ (tokenizerUnmarked tokenize → tokenizerLevel tokenize →
     yfmTable tokenize parseAttrs extractClass opts state startLine endLine false
     = Ret (state', true) →
     ∃ r endOfTable st cellsMap contentMap ts,
       getTableRowPositions state
         (nplus (bMarks state !! startLine) (tShift state !! startLine))
         (eMarks state !! endLine) startLine opts = Some r
       ∧ rp_endOfTable r = Some endOfTable
       ∧ buildRows tokenize extractClass (maxRowLengthOf (rp_rows r))
           (tableHead state startLine endOfTable
              (extractAttributes parseAttrs state (rp_pos r)))
           (rp_rows r) [] []
         = Ret (st, cellsMap, contentMap)
       ∧ applySpans contentMap cellsMap (tokens st) = Ret ts
       ∧ firstKept (length (tokens state)) ts = true
       ∧ noMarkedInside (length (tokens state)) ts = true
       ∧ (∀ i, (length (tokens state) ≤ i)%nat → marked ts i = true →
               is_Some (closeOf ts i))
       ∧ tokens state'
         = filterIdx (λ k, negb (removedAt (length (tokens state)) ts k)) 0 ts
           ++ [newToken "yfm_tbody_close" "tbody" (-1) (level state' + 1);
               withMap (endOfTable, endOfTable + 1)
                 (newToken "yfm_table_close" "table" (-1) (level state'))]).
Proof.
  split.
  { rewrite collectSplices_items, app_nil_r.
    apply StronglySorted_reverse, spliceItems_sorted. }
  split; [apply clearTokens_filter|].
  intros Hun Hlevel Hrule.
  destruct (rule_compaction _ _ _ _ _ _ _ _ Hun Hlevel Hrule)
    as (r & eot & st & cellsMap & contentMap & ts & Hscan & Hend & Hrows & Hspans
        & Hfirst & Hinside & Hclose & _ & Htokens).
  exists r, eot, st, cellsMap, contentMap, ts.
  rewrite (clearTokens_filter _ _ Hfirst Hinside) in Htokens.
  exact (conj Hscan (conj Hend (conj Hrows (conj Hspans
           (conj Hfirst (conj Hinside (conj Hclose Htokens))))))).
Qed.

Lemma compaction_removes_marked_cells_witness :
  clearTokens 0 compactExample
  = filterIdx (λ k, negb (removedAt 0 compactExample k)) 0 compactExample
  ∧ match yfmTable plainTokenizer noAttrs noClass defaultOpts busyDoc 0
            (lineMax busyDoc) false with
    | Ret (state', true) =>
        ∃ r endOfTable st cellsMap contentMap ts,
          getTableRowPositions busyDoc
            (nplus (bMarks busyDoc !! 0) (tShift busyDoc !! 0))
            (eMarks busyDoc !! lineMax busyDoc) 0 defaultOpts = Some r
          ∧ rp_endOfTable r = Some endOfTable
          ∧ buildRows plainTokenizer noClass (maxRowLengthOf (rp_rows r))
              (tableHead busyDoc 0 endOfTable
                 (extractAttributes noAttrs busyDoc (rp_pos r)))
              (rp_rows r) [] []
            = Ret (st, cellsMap, contentMap)
          ∧ applySpans contentMap cellsMap (tokens st) = Ret ts
          ∧ firstKept (length (tokens busyDoc)) ts = true
          ∧ noMarkedInside (length (tokens busyDoc)) ts = true
          ∧ (∀ i, (length (tokens busyDoc) ≤ i)%nat → marked ts i = true →
                  is_Some (closeOf ts i))
          ∧ tokens state'
            = filterIdx (λ k, negb (removedAt (length (tokens busyDoc)) ts k)) 0 ts
              ++ [newToken "yfm_tbody_close" "tbody" (-1) (level state' + 1);
                  withMap (endOfTable, endOfTable + 1)
                    (newToken "yfm_table_close" "table" (-1) (level state'))]
    | _ => False
    end.
Proof.
  destruct (yfmTable plainTokenizer noAttrs noClass defaultOpts busyDoc 0
              (lineMax busyDoc) false) as [[st [|]]| |] eqn:H.
  - destruct (compaction_removes_marked_cells plainTokenizer noAttrs noClass
                defaultOpts busyDoc 0 (lineMax busyDoc) st 0 compactExample)
      as (_ & Hclear & Hrule).
    exact (conj (Hclear eq_refl eq_refl)
             (Hrule plainTokenizer_unmarked plainTokenizer_level H)).
  - vm_compute in H. discriminate.
  - vm_compute in H. discriminate.
  - vm_compute in H. discriminate.
Defined.

(** The elements a filter by index keeps. *)
Lemma filterIdx_Forall {A : Type} (P : A → Prop) (keep : nat → bool) (l : list A) :
  ∀ i, (∀ k x, l !! k = Some x → keep (i + k)%nat = true → P x) →
       Forall P (filterIdx keep i l).
Proof.
  induction l as [|x l IH]; intros i Hkeep; simpl; [constructor|].
  assert (Forall P (filterIdx keep (S i) l)) as Hrest.
  { apply IH. intros k y Hk Hy. apply (Hkeep (S k) y Hk).
    by replace (i + S k)%nat with (S i + k)%nat by lia. }
  destruct (keep i) eqn:Hi; [|done].
  constructor; [|done]. apply (Hkeep 0%nat x eq_refl). by rewrite Nat.add_0_r.
Qed.

(** The rule itself is a tokenizer of the kind it asks its host for: on
    such a host it only appends tokens, and none of the tokens it appends
    is marked for deletion, whether it builds a table, emits the lint
    token or declines. *)
Lemma rule_leaves_no_mark
    (tokenize : StateBlock → Z → Z → StateBlock)
    (parseAttrs : list Z → list (string * list string))
    (extractClass : list Z → option (string * list Z))
    (opts : YfmTablePluginOptions) (state : StateBlock) (startLine endLine : Z)
    (silent : bool) (state' : StateBlock) (result : bool) :
  tokenizerUnmarked tokenize → tokenizerLevel tokenize →
  yfmTable tokenize parseAttrs extractClass opts state startLine endLine silent
  = Ret (state', result) →
  ∃ new, tokens state' = tokens state ++ new
         ∧ Forall (λ t, tok_markForDeletion t = false) new.
Proof.
  intros Hun Hlevel Hrule.
  destruct silent; [|destruct result].
  - exists []. rewrite app_nil_r. split; [|constructor]. revert Hrule.
    unfold yfmTable.
    destruct (nlt _ _); [by intros [= <- _]|].
    destruct (negb _); by intros [= <- _].
  - destruct (rule_compaction _ _ _ _ _ _ _ _ Hun Hlevel Hrule)
      as (r & eot & st & cellsMap & contentMap & ts & _ & _ & Hrows & Hspans
          & Hfirst & Hinside & Hclose & Hlen & ->).
    set (n := length (tokens state)) in *.
    pose proof (tokenizerUnmarked_appends _ Hun) as Happ.
    apply (buildRows_prefix _ _ _ _ n Happ) in Hrows as (Htake & _ & Hrefs);
      [| |done].
    2:{ unfold tableHead, n. simpl. rewrite !alter_last, !length_app. simpl. lia. }
    apply (applySpans_prefix _ _ n) in Hspans as Htake2; [|done].
    assert (take n ts = tokens state) as Hpre.
    { rewrite Htake2, Htake. unfold tableHead. simpl.
      rewrite !alter_last, <- app_assoc. unfold n. by rewrite take_app_length. }
    rewrite (clearTokens_filter _ _ Hfirst Hinside).
    rewrite (filterIdx_kept _ n ts 0) by
      (try lia; intros k Hk; apply negb_true_iff, not_true_is_false;
       rewrite removedAt_spec; intros (i & j & Hi & _ & _ & Hik); lia).
    rewrite Hpre, <- app_assoc. eexists. split; [reflexivity|].
    apply Forall_app. split; [|by repeat constructor].
    apply filterIdx_Forall. intros k x Hk Hkeep.
    apply negb_true_iff in Hkeep. apply not_true_is_false. intros Hm.
    apply not_true_iff_false in Hkeep. apply Hkeep.
    rewrite lookup_drop in Hk.
    assert (marked ts (n + k) = true) as Hmk.
    { unfold marked. by rewrite Hk. }
    destruct (Hclose (n + k)%nat ltac:(lia) Hmk) as [j Hj].
    apply removedAt_spec. exists (n + k)%nat, j.
    split; [split; [lia|by eapply lookup_lt_Some]|].
    split; [done|]. split; [done|].
    apply closeOf_nearest in Hj as (_ & _ & _ & _ & Hij & _). simpl. lia.
  - revert Hrule. unfold yfmTable.
    destruct (nlt _ _);
      [intros [= <-]; exists []; rewrite app_nil_r; split; [done|constructor]|].
    destruct (negb _);
      [intros [= <-]; exists []; rewrite app_nil_r; split; [done|constructor]|].
    destruct (getTableRowPositions _ _ _ _ _) as [[rws e p]|]; [|done].
    destruct (if truthy e then e else None) as [eot|].
    + simpl.
      destruct (buildRows _ _ _ _ _ _ _) as [[[st cellsMap] contentMap]| |];
        [|done|done].
      simpl.
      destruct (applySpans contentMap cellsMap (tokens st)) as [ts| |];
        [|done|done].
      simpl. intros [= _ Hfalse].
    + intros [= <-]. simpl. rewrite !alter_last. eexists. split; [reflexivity|].
      by repeat constructor.
Qed.


(** ** Balanced fences *)

(** C2, counterexample.  Counted on the text alone, every [#|] and every
    [|#] in it, the fences of [codeFenceDoc] are balanced, with the close
    fence at offset 13 on line 2; but the row holds a code fence marker
    that is never closed: the scan stays in code mode to the end of the
    text and reports no end of table. *)
Lemma balanced_fences_hidden_by_code_fence :
  balancedFences (src codeFenceDoc) 0 13
  ∧ onLine codeFenceDoc 0 2 13 = true
  ∧ getTableRowPositions codeFenceDoc (Some 0) (Some 15) 0 defaultOpts
    = Some {| rp_rows := []; rp_endOfTable := None; rp_pos := Some 15 |}.
Proof. repeat split; vm_compute; reflexivity. Qed.

(** *** The fences that count *)

Lemma isMarkerChar_false (code : num) :
  isMarkerChar code = false →
  codeIs code hashChar = false ∧ codeIs code pipeChar = false
  ∧ codeIs code apostropheChar = false ∧ codeIs code dollarChar = false
  ∧ codeIs code curlyBraceOpen = false ∧ codeIs code curlyBraceClose = false.
Proof.
  unfold isMarkerChar. intros H.
  repeat (apply orb_false_iff in H as [H ?]). done.
Qed.

Lemma isMarkerChar_true (code : num) (ch : Z) :
  codeIs code ch = true →
  ch = hashChar ∨ ch = pipeChar ∨ ch = apostropheChar ∨ ch = dollarChar
  ∨ ch = curlyBraceOpen ∨ ch = curlyBraceClose →
  isMarkerChar code = true.
Proof.
  unfold isMarkerChar. intros Hc H.
  destruct H as [->|[->|[->|[->|[->| ->]]]]]; rewrite Hc;
    by rewrite ?orb_true_r.
Qed.

Lemma lineFrom_range (state : StateBlock) (p : Z) (n : nat) :
  ∀ l0 l, lineFrom state l0 n p = Some l → l0 <= l < l0 + Z.of_nat n.
Proof.
  induction n as [|n IH]; intros l0 l; simpl; [done|].
  destruct (eMarks state !! l0) as [e0|]; [|done].
  destruct (p <=? e0).
  - intros [= <-]. lia.
  - intros H%IH. lia.
Qed.

Lemma lineFrom_within (state : StateBlock) (p q e : Z) (n : nat) :
  ∀ l0 l, lineFrom state l0 n p = Some l → eMarks state !! l = Some e →
    p <= q <= e → lineFrom state l0 n q = Some l.
Proof.
  induction n as [|n IH]; intros l0 l; simpl; [done|].
  destruct (eMarks state !! l0) as [e0|] eqn:He0; [|done].
  destruct (Z.leb_spec p e0).
  - intros [= <-] He Hq. assert (e0 = e) as -> by congruence.
    destruct (Z.leb_spec q e); [done|lia].
  - intros Hl He Hq. destruct (Z.leb_spec q e0); [lia|]. by apply IH.
Qed.

Lemma lineFrom_next (state : StateBlock) (p q e e' : Z) (n : nat) :
  ∀ l0 l, lineFrom state l0 n p = Some l → eMarks state !! l = Some e →
    eMarks state !! (l + 1) = Some e' → l + 1 < l0 + Z.of_nat n →
    p <= q → e < q <= e' → lineFrom state l0 n q = Some (l + 1).
Proof.
  induction n as [|n IH]; intros l0 l; simpl; [done|].
  destruct (eMarks state !! l0) as [e0|] eqn:He0; [|done].
  destruct (Z.leb_spec p e0).
  - intros [= <-] He He' Hn Hpq Hq. assert (e0 = e) as -> by congruence.
    destruct (Z.leb_spec q e); [lia|].
    destruct n as [|n]; [lia|]. simpl. rewrite He'.
    destruct (Z.leb_spec q e'); [done|lia].
  - intros Hl He He' Hn Hpq Hq. destruct (Z.leb_spec q e0); [lia|].
    apply IH; [done..|lia|done|done].
Qed.

Lemma skipInlineCode_lands (text : list Z) (p : Z) (max : num)
    (r : SkipInlineResult) :
  0 <= p → skipInlineCode text (Some p) max = Some r →
  p < end_ r ∧ steps r = end_ r - p
  ∧ charCodeAt text p = Some apostropheChar.
Proof.
  intros Hp Hskip. pose proof (skipInlineCode_distance _ _ _ _ Hskip) as Hsteps.
  unfold skipInlineCode, skipInlineCodeAt in Hskip.
  destruct (charCodeAt text p) as [ch|] eqn:Hch; cbn [codeIs negb] in Hskip; [|done].
  destruct (Z.eqb_spec ch apostropheChar) as [->|]; cbn [negb] in Hskip; [|done].
  destruct (_ && _); [done|].
  pose proof (scanMarker_ge (length text) text max p) as Hge.
  apply findCloser_shape in Hskip as (Hn & Hme & _); [|lia].
  split; [lia|done].
Qed.

Lemma skipInlineMath_lands (text : list Z) (p : Z) (max : num)
    (r : SkipInlineResult) :
  0 <= p → skipInlineMath text (Some p) max = Some r →
  charCodeAt text p = Some dollarChar
  ∧ ((steps r = 2 ∧ end_ r = p + 2 ∧ charCodeAt text (p + 1) = Some dollarChar)
     ∨ (p < p + steps r ∧ p + steps r = end_ r - 1
        ∧ ngt (Some (p + steps r)) max = false)).
Proof.
  intros Hp. unfold skipInlineMath, skipInlineMathAt, notEscaped.
  destruct (charCodeAt text p) as [ch|] eqn:Hch; cbn [codeIs negb]; [|done].
  destruct (Z.eqb_spec ch dollarChar) as [->|]; cbn [negb]; [|done].
  destruct (_ && _); [done|].
  destruct (codeIs (nextCharWithin text p max) 32
            || codeIs (nextCharWithin text p max) 9); [done|].
  destruct (codeIs (nextCharWithin text p max) dollarChar) eqn:Hnext.
  - intros [= <-]. cbn [end_ steps]. split; [done|]. left.
    split; [done|]. split; [done|].
    unfold nextCharWithin in Hnext. destruct (nle _ _); [|done].
    unfold codeIs in Hnext. destruct (charCodeAt text (p + 1)); [|done].
    apply Z.eqb_eq in Hnext. by subst.
  - intros H. apply findMathCloser_shape in H as (Hcur & Hvalid & Hsteps); [|lia].
    split; [done|]. right.
    unfold validMathCloser, acceptedMathCloser in Hvalid.
    apply andb_true_iff in Hvalid as [_ Hacc].
    apply andb_true_iff in Hacc as [Hacc _].
    apply andb_true_iff in Hacc as [Hmax _].
    apply negb_true_iff in Hmax.
    replace (p + steps r) with (end_ r - 1) by lia.
    split; [lia|]. split; [done|done].
Qed.

Lemma fenceModes_forward (opts : YfmTablePluginOptions) (text : list Z)
    (code math code' math' : bool) (p p' : Z) :
  fenceModes opts text code math p = (code', math', p') → p <= p'.
Proof.
  unfold fenceModes.
  destruct (_ && _ && isCodeBlockOrder _ _); destruct (_ && _ && isMathBlockOrder _ _);
    intros [= <- <- <-]; lia.
Qed.

Lemma liquidMode_forward (text : list Z) (liquid liquid' : bool) (p p' : Z) :
  liquidMode text liquid p = (liquid', p') → p <= p'.
Proof.
  unfold liquidMode.
  destruct (_ && isLiquidVariableStart _ _); destruct (_ && isLiquidVariableEnd _ _);
    intros [= <- <-]; lia.
Qed.

Lemma inlineSpan_forward (opts : YfmTablePluginOptions) (text : list Z) (p q : Z)
    (lineEnd : num) :
  0 <= p → inlineSpan opts text p lineEnd = SpanTo q → p < q.
Proof.
  intros Hp. unfold inlineSpan.
  destruct (if truthyFlag (table_ignoreSplittersInInlineCode opts) then _ else _)
    as [r|] eqn:Hcode.
  - destruct (truthyFlag _); [|done].
    apply skipInlineCode_lands in Hcode as (Hlt & _); [|done].
    destruct (nle _ _); [|done]. by intros [= <-].
  - destruct (if truthyFlag (table_ignoreSplittersInInlineMath opts) then _ else _)
      as [r|] eqn:Hmath; [|done].
    destruct (truthyFlag (table_ignoreSplittersInInlineMath opts)); [|done].
    apply skipInlineMath_lands in Hmath as (_ & Hland); [|done].
    destruct (_ || _); [|done]. intros [= <-].
    destruct Hland as [(-> & _)|(Hlt & _)]; lia.
Qed.

Lemma markerStep_forward (text : list Z) (code math liquid : bool) (d p : Z) :
  match markerStep text code math liquid d p with
  | Found c => c = p ∧ isCloseTableOrder text (Some p) = true
  | Goto _ _ _ _ q => p < q
  | LeftOut => True
  end.
Proof.
  unfold markerStep.
  destruct (isOpenTableOrder _ _); [lia|].
  destruct (isCloseTableOrder _ _); [destruct (d =? 0); [done|lia]|].
  destruct (0 <? d); [lia|]. destruct (isRowOrder _ _); lia.
Qed.

Lemma walkStep_forward (state : StateBlock) (opts : YfmTablePluginOptions)
    (startLine L : Z) (code math liquid : bool) (d p : Z) :
  0 <= p →
  match walkStep state opts startLine L code math liquid d p with
  | Found c => p <= c ∧ isCloseTableOrder (src state) (Some c) = true
  | Goto _ _ _ _ q => p < q
  | LeftOut => True
  end.
Proof.
  intros Hp. unfold walkStep.
  destruct (fenceModes _ _ _ _ _) as [[code1 math1] p1] eqn:Hf.
  apply fenceModes_forward in Hf.
  destruct (code1 || math1); [lia|].
  destruct (liquidMode _ _ _) as [liquid1 p2] eqn:Hl.
  apply liquidMode_forward in Hl.
  destruct liquid1; [lia|].
  destruct (inlineSpan _ _ _ _) as [|q|] eqn:Hspan; [| |done].
  - pose proof (markerStep_forward (src state) code1 math1 false d p2) as Hm.
    destruct (markerStep _ _ _ _ _ _); [|lia|done].
    destruct Hm as [-> Hm]. split; [lia|done].
  - apply inlineSpan_forward in Hspan; lia.
Qed.

Lemma activeClose_ge (state : StateBlock) (opts : YfmTablePluginOptions)
    (startLine L c : Z) (fuel : nat) :
  ∀ code math liquid d p, 0 <= p →
    activeClose fuel state opts startLine L code math liquid d p = Some c →
    p <= c ∧ isCloseTableOrder (src state) (Some c) = true.
Proof.
  induction fuel as [|fuel IH]; intros code math liquid d p Hp; simpl; [done|].
  pose proof (walkStep_forward state opts startLine L code math liquid d p Hp) as Hw.
  destruct (walkStep _ _ _ _ _ _ _ _ _) as [c'|code' math' liquid' d' q|]; [| |done].
  - by intros [= <-].
  - destruct (q <=? len (src state)); [|done].
    intros H%IH; [|lia]. destruct H. split; [lia|done].
Qed.

Lemma fenceModes_none (opts : YfmTablePluginOptions) (text : list Z)
    (code math : bool) (p : Z) :
  0 <= p →
  codeIs (charCodeAt text p) apostropheChar = false →
  codeIs (charCodeAt text p) dollarChar = false →
  fenceModes opts text code math p = (code, math, p).
Proof.
  intros Hp Ha Hd. unfold fenceModes.
  unfold isCodeBlockOrder, codeBlockOrder. rewrite checkChars3 by lia.
  rewrite Ha, !andb_false_r.
  unfold isMathBlockOrder, mathBlockOrder. rewrite checkChars2 by lia.
  by rewrite Hd, !andb_false_r.
Qed.

Lemma liquidMode_none (text : list Z) (liquid : bool) (p : Z) :
  0 <= p →
  codeIs (charCodeAt text p) curlyBraceOpen = false →
  codeIs (charCodeAt text p) curlyBraceClose = false →
  liquidMode text liquid p = (liquid, p).
Proof.
  intros Hp Ho Hc. unfold liquidMode.
  unfold isLiquidVariableStart, liquidVariableStartOrder. rewrite checkChars2 by lia.
  rewrite Ho, !andb_false_r.
  unfold isLiquidVariableEnd, liquidVariableEndOrder. rewrite checkChars2 by lia.
  by rewrite Hc, !andb_false_r.
Qed.

Lemma inlineSpan_none (opts : YfmTablePluginOptions) (text : list Z) (p : Z)
    (lineEnd : num) :
  codeIs (charCodeAt text p) apostropheChar = false →
  codeIs (charCodeAt text p) dollarChar = false →
  inlineSpan opts text p lineEnd = NoSpan.
Proof.
  intros Ha Hd. unfold inlineSpan.
  assert (skipInlineCode text (Some p) lineEnd = None) as ->.
  { unfold skipInlineCode, skipInlineCodeAt. by rewrite Ha. }
  assert (skipInlineMath text (Some p) lineEnd = None) as ->.
  { unfold skipInlineMath, skipInlineMathAt. by rewrite Hd. }
  by destruct (truthyFlag _); destruct (truthyFlag _).
Qed.

Lemma markerStep_none (text : list Z) (code math liquid : bool) (d p : Z) :
  0 <= p →
  codeIs (charCodeAt text p) hashChar = false →
  codeIs (charCodeAt text p) pipeChar = false →
  markerStep text code math liquid d p = Goto code math liquid d (p + 1).
Proof.
  intros Hp Hh Hpi. unfold markerStep.
  unfold isOpenTableOrder, openTableOrder, isCloseTableOrder, closeTableOrder,
    isRowOrder, rowStartOrder.
  rewrite !checkChars2 by lia. rewrite Hh, Hpi. cbn [andb].
  by destruct (0 <? d).
Qed.

(** A character that starts no marker is passed in every mode. *)
Lemma walkStep_plain (state : StateBlock) (opts : YfmTablePluginOptions)
    (startLine L : Z) (code math liquid : bool) (d p : Z) :
  0 <= p → isMarkerChar (charCodeAt (src state) p) = false →
  walkStep state opts startLine L code math liquid d p
  = Goto code math liquid d (p + 1).
Proof.
  intros Hp (Hh & Hpi & Ha & Hd & Ho & Hc)%isMarkerChar_false.
  unfold walkStep.
  rewrite fenceModes_none by done.
  destruct (code || math); [done|].
  rewrite liquidMode_none by done.
  destruct liquid; [done|].
  rewrite inlineSpan_none by done.
  by apply markerStep_none.
Qed.

Lemma activeClose_skip (state : StateBlock) (opts : YfmTablePluginOptions)
    (startLine L c : Z) (code math liquid : bool) (d : Z) (n : nat) :
  ∀ p fuel, 0 <= p →
    (∀ i, p <= i < p + Z.of_nat n → isMarkerChar (charCodeAt (src state) i) = false) →
    activeClose fuel state opts startLine L code math liquid d p = Some c →
    ∃ fuel', activeClose fuel' state opts startLine L code math liquid d
               (p + Z.of_nat n) = Some c.
Proof.
  induction n as [|n IH]; intros p fuel Hp Hgap Hm.
  - exists fuel. by rewrite Z.add_0_r.
  - destruct fuel as [|fuel]; [done|]. simpl in Hm.
    rewrite walkStep_plain in Hm by (try lia; apply Hgap; lia).
    destruct (p + 1 <=? len (src state)); [|done].
    destruct (IH (p + 1) fuel ltac:(lia)) as [fuel' Hf']; [|done|].
    + intros i Hi. apply Hgap. lia.
    + exists fuel'. by replace (p + Z.of_nat (S n)) with (p + 1 + Z.of_nat n) by lia.
Qed.

Lemma charCodeAt_in_range (text : list Z) (p : Z) :
  0 <= p < len text → is_Some (charCodeAt text p).
Proof.
  intros Hp. unfold charCodeAt. destruct (Z.ltb_spec p 0); [lia|].
  apply lookup_lt_is_Some. unfold len in Hp. lia.
Qed.

Ltac marker_char :=
  match goal with
  | H : codeIs (charCodeAt _ ?i) _ = true
    |- isMarkerChar (charCodeAt _ ?i) = true =>
      apply (isMarkerChar_true _ _ H); auto 10
  end.

Section ActiveFences.

Variable state : StateBlock.
Variable opts : YfmTablePluginOptions.
Variables startLine L c eL : Z.

Hypothesis Hlines : linesOk state startLine L = true.
Hypothesis HcL : lineAt state startLine L c = Some L.
Hypothesis HeL : eMarks state !! L = Some eL.
Hypothesis Hfit : c + 2 <= eL.

(** What [lineGapOk] says, unpacked. *)
Lemma gap_facts (l : Z) :
  startLine <= l < L →
  ∃ e b t e',
    eMarks state !! l = Some e ∧ bMarks state !! (l + 1) = Some b
    ∧ tShift state !! (l + 1) = Some t ∧ eMarks state !! (l + 1) = Some e'
    ∧ e < b + t <= e'
    ∧ ∀ i, e <= i < b + t → isMarkerChar (charCodeAt (src state) i) = false.
Proof.
  intros Hl. unfold linesOk in Hlines. rewrite forallb_forall in Hlines.
  pose proof (Hlines l) as Hg. unfold lineGapOk in Hg.
  destruct (eMarks state !! l) as [e|];
    [|by discriminate Hg; apply list_elem_of_In, elem_of_seqZ; lia].
  destruct (bMarks state !! (l + 1)) as [b|];
    [|by discriminate Hg; apply list_elem_of_In, elem_of_seqZ; lia].
  destruct (tShift state !! (l + 1)) as [t|];
    [|by discriminate Hg; apply list_elem_of_In, elem_of_seqZ; lia].
  destruct (eMarks state !! (l + 1)) as [e'|];
    [|by discriminate Hg; apply list_elem_of_In, elem_of_seqZ; lia].
  specialize (Hg ltac:(apply list_elem_of_In, elem_of_seqZ; lia)).
  apply andb_true_iff in Hg as [Hg Hall]. apply andb_true_iff in Hg as [H1 H2].
  apply Z.ltb_lt in H1. apply Z.leb_le in H2.
  exists e, b, t, e'. repeat split; [lia | lia |].
  intros i Hi. rewrite forallb_forall in Hall. apply negb_true_iff.
  apply Hall. apply list_elem_of_In, elem_of_seqZ. lia.
Qed.

Lemma lineAt_range (p l : Z) :
  lineAt state startLine L p = Some l → startLine <= l <= L.
Proof. unfold lineAt. intros H%lineFrom_range. lia. Qed.

(** Marker characters from the cursor on, with the close fence not before
    their end, lie within the cursor's line. *)
Lemma cursor_within_line (it : StateIterator) (p e k : Z) :
  cursorAt state startLine L it p e → 0 <= k →
  (∀ i, p <= i < p + k → isMarkerChar (charCodeAt (src state) i) = true) →
  p + k <= c → p + k <= e.
Proof.
  intros (Hp & He & HeM & Hline & Hpe) Hk Hchars Hc.
  pose proof (lineAt_range _ _ Hline) as Hl.
  destruct (decide (_line it = L)) as [HL|Hne].
  - rewrite HL in HeM. assert (e = eL) by congruence. lia.
  - destruct (gap_facts (_line it) ltac:(lia))
      as (e0 & b & t & e1 & He0 & _ & _ & _ & Hle & Hgap).
    assert (e0 = e) as -> by congruence.
    destruct (decide (p + k <= e)); [done|].
    pose proof (Hgap e ltac:(lia)) as Hno. rewrite Hchars in Hno by lia. done.
Qed.

Lemma cursor_move (it : StateIterator) (p e k : Z) :
  cursorAt state startLine L it p e → 0 <= k → p + k <= e →
  cursorAt state startLine L (next state k it) (p + k) e
  ∧ _line (next state k it) = _line it.
Proof.
  intros (Hp & He & HeM & Hline & Hpe) Hk Hin.
  unfold next. rewrite (next_within state it p e (Z.to_nat k) Hp He) by lia.
  rewrite Z2Nat.id by lia. split; [|done].
  unfold cursorAt. simpl. repeat split; try done; try lia.
  unfold lineAt in *. eapply lineFrom_within; [done|done|lia].
Qed.

(** One step of the cursor, within the line or over the gap to the next
    line, which the reading passes character by character. *)
Lemma cursor_step (it : StateIterator) (p e : Z) (code math liquid : bool)
    (d : Z) (fuel : nat) :
  cursorAt state startLine L it p e →
  activeClose fuel state opts startLine L code math liquid d (p + 1) = Some c →
  ∃ p' e', cursorAt state startLine L (next state 1 it) p' e' ∧ p < p'
    ∧ ∃ fuel', activeClose fuel' state opts startLine L code math liquid d p'
               = Some c.
Proof.
  intros Hcur Hm. pose proof Hcur as (Hp & He & HeM & Hline & Hpe).
  assert (0 <= p + 1) as Hp1 by lia.
  destruct (activeClose_ge _ _ _ _ _ _ _ _ _ _ _ Hp1 Hm) as [Hpc _].
  destruct (decide (p + 1 <= e)) as [Hin|Hout].
  - destruct (cursor_move it p e 1 Hcur) as [Hcur' _]; [lia|lia|].
    exists (p + 1), e. split; [done|]. split; [lia|]. by exists fuel.
  - assert (p = e) as -> by lia.
    pose proof (lineAt_range _ _ Hline) as Hl.
    assert (_line it ≠ L) as Hne.
    { intros HL. rewrite HL in HeM. assert (e = eL) by congruence. lia. }
    destruct (gap_facts (_line it) ltac:(lia))
      as (e0 & b & t & e1 & He0 & Hb & Ht & He1 & Hle & Hgap).
    assert (e0 = e) as -> by congruence.
    unfold next. simpl. rewrite (nextStep_cross state it e Hp He).
    rewrite Hb, Ht, He1. simpl.
    destruct (activeClose_skip state opts startLine L c code math liquid d
                (Z.to_nat (b + t - (e + 1))) (e + 1) fuel ltac:(lia))
      as [fuel' Hf']; [|done|].
    { intros i Hi. apply Hgap. lia. }
    replace (e + 1 + Z.of_nat (Z.to_nat (b + t - (e + 1)))) with (b + t) in Hf'
      by lia.
    exists (b + t), e1. split.
    { unfold cursorAt. simpl. repeat split; try done; try lia.
      unfold lineAt in *. eapply lineFrom_next; [exact Hline|done|done|lia..]. }
    split; [lia|]. by exists fuel'.
Qed.

(** The first part of a round follows steps 1 and 2 of the reading. *)
Lemma fenceToggles_walk (s : Scan) (p e : Z) (code1 math1 : bool) (p1 : Z) :
  cursorAt state startLine L (iter s) p e →
  fenceModes opts (src state) (isInsideCode s) (isInsideMath s) p
  = (code1, math1, p1) →
  p1 <= c →
  isInsideCode (fenceToggles state opts s) = code1
  ∧ isInsideMath (fenceToggles state opts s) = math1
  ∧ isInsideLiquidVariable (fenceToggles state opts s) = isInsideLiquidVariable s
  ∧ tableLevel (fenceToggles state opts s) = tableLevel s
  ∧ cursorAt state startLine L (iter (fenceToggles state opts s)) p1 e.
Proof.
  intros Hcur Hmodes Hc1. pose proof Hcur as (Hp & _ & _ & _ & Hpe).
  unfold fenceToggles, fenceModes in *. rewrite Hp.
  set (codeOn := negb (bool_decide (table_ignoreSplittersInBlockCode opts = Some false)))
    in *.
  set (mathOn := truthyFlag (table_ignoreSplittersInBlockMath opts)) in *.
  destruct (codeOn && negb (isInsideMath s) && isCodeBlockOrder (src state) (Some p))
    eqn:Hcode.
  - apply andb_true_iff in Hcode as [_ Hcode].
    unfold isCodeBlockOrder, codeBlockOrder in Hcode.
    rewrite checkChars3 in Hcode by lia.
    apply andb_true_iff in Hcode as [Hcode H2].
    apply andb_true_iff in Hcode as [H0 H1].
    assert (p + 3 <= p1) as Hp1.
    { destruct (_ && _ && isMathBlockOrder _ _); injection Hmodes as <- <- <-; lia. }
    assert (p + 3 <= e) as Hin.
    { apply (cursor_within_line (iter s) p e 3 Hcur); [lia| |lia].
      intros i Hi.
      assert (i = p ∨ i = p + 1 ∨ i = p + 2) as [->|[->| ->]] by lia;
        marker_char. }
    destruct (cursor_move (iter s) p e 3 Hcur ltac:(lia) Hin) as [Hcur3 _].
    cbn [advance setModes setIter iter isInsideCode isInsideMath
           isInsideLiquidVariable tableLevel].
    change (len codeBlockOrder) with 3.
    pose proof Hcur3 as (Hp3 & _). rewrite Hp3.
    destruct (mathOn && negb (negb (isInsideCode s))
              && isMathBlockOrder (src state) (Some (p + 3))) eqn:Hmath.
    + injection Hmodes as <- <- <-.
      apply andb_true_iff in Hmath as [_ Hmath].
      unfold isMathBlockOrder, mathBlockOrder in Hmath.
      rewrite checkChars2 in Hmath by lia.
      apply andb_true_iff in Hmath as [H3 H4].
      assert (p + 3 + 2 <= e) as Hin2.
      { apply (cursor_within_line _ (p + 3) e 2 Hcur3); [lia| |lia].
        intros i Hi. assert (i = p + 3 ∨ i = p + 3 + 1) as [->| ->] by lia;
          marker_char. }
      destruct (cursor_move _ (p + 3) e 2 Hcur3 ltac:(lia) Hin2) as [Hcur5 _].
      change (len mathBlockOrder) with 2.
      cbn [advance setModes setIter iter isInsideCode isInsideMath
             isInsideLiquidVariable tableLevel].
      do 4 (split; [reflexivity|]). exact Hcur5.
    + injection Hmodes as <- <- <-.
      cbn [advance setModes setIter iter isInsideCode isInsideMath
             isInsideLiquidVariable tableLevel].
      do 4 (split; [reflexivity|]). exact Hcur3.
  - rewrite Hp.
    destruct (mathOn && negb (isInsideCode s)
              && isMathBlockOrder (src state) (Some p)) eqn:Hmath.
    + injection Hmodes as <- <- <-.
      apply andb_true_iff in Hmath as [_ Hmath].
      unfold isMathBlockOrder, mathBlockOrder in Hmath.
      rewrite checkChars2 in Hmath by lia.
      apply andb_true_iff in Hmath as [H3 H4].
      assert (p + 2 <= e) as Hin2.
      { apply (cursor_within_line _ p e 2 Hcur); [lia| |lia].
        intros i Hi. assert (i = p ∨ i = p + 1) as [->| ->] by lia;
          marker_char. }
      destruct (cursor_move _ p e 2 Hcur ltac:(lia) Hin2) as [Hcur2 _].
      change (len mathBlockOrder) with 2.
      cbn [advance setModes setIter iter isInsideCode isInsideMath
             isInsideLiquidVariable tableLevel].
      do 4 (split; [reflexivity|]). exact Hcur2.
    + injection Hmodes as <- <- <-.
      do 4 (split; [reflexivity|]). exact Hcur.
Qed.

(** The second part of a round follows step 4 of the reading. *)
Lemma liquidToggles_walk (s : Scan) (p e : Z) (liquid1 : bool) (p1 : Z) :
  cursorAt state startLine L (iter s) p e →
  liquidMode (src state) (isInsideLiquidVariable s) p = (liquid1, p1) →
  p1 <= c →
  isInsideCode (liquidToggles state s) = isInsideCode s
  ∧ isInsideMath (liquidToggles state s) = isInsideMath s
  ∧ isInsideLiquidVariable (liquidToggles state s) = liquid1
  ∧ tableLevel (liquidToggles state s) = tableLevel s
  ∧ cursorAt state startLine L (iter (liquidToggles state s)) p1 e.
Proof.
  intros Hcur Hmodes Hc1. pose proof Hcur as (Hp & _ & _ & _ & Hpe).
  unfold liquidToggles, liquidMode in *. rewrite Hp.
  destruct (negb (isInsideLiquidVariable s)
            && isLiquidVariableStart (src state) (Some p)) eqn:Hstart.
  - apply andb_true_iff in Hstart as [_ Hstart].
    unfold isLiquidVariableStart, liquidVariableStartOrder in Hstart.
    rewrite checkChars2 in Hstart by lia.
    apply andb_true_iff in Hstart as [H0 H1].
    assert (p + 2 <= p1) as Hp1.
    { destruct (_ && isLiquidVariableEnd _ _); injection Hmodes as <- <-; lia. }
    assert (p + 2 <= e) as Hin.
    { apply (cursor_within_line (iter s) p e 2 Hcur); [lia| |lia].
      intros i Hi. assert (i = p ∨ i = p + 1) as [->| ->] by lia;
        marker_char. }
    destruct (cursor_move (iter s) p e 2 Hcur ltac:(lia) Hin) as [Hcur2 _].
    cbn [advance setModes setIter iter isInsideCode isInsideMath
           isInsideLiquidVariable tableLevel].
    change (len liquidVariableStartOrder) with 2.
    pose proof Hcur2 as (Hp2 & _). rewrite Hp2.
    rewrite andb_true_l in Hmodes |- *.
    destruct (isLiquidVariableEnd (src state) (Some (p + 2))) eqn:Hend.
    + injection Hmodes as <- <-.
      unfold isLiquidVariableEnd, liquidVariableEndOrder in Hend.
      rewrite checkChars2 in Hend by lia.
      apply andb_true_iff in Hend as [H3 H4].
      assert (p + 2 + 2 <= e) as Hin2.
      { apply (cursor_within_line _ (p + 2) e 2 Hcur2); [lia| |lia].
        intros i Hi. assert (i = p + 2 ∨ i = p + 2 + 1) as [->| ->] by lia;
          marker_char. }
      destruct (cursor_move _ (p + 2) e 2 Hcur2 ltac:(lia) Hin2) as [Hcur4 _].
      change (len liquidVariableEndOrder) with 2.
      cbn [advance setModes setIter iter isInsideCode isInsideMath
             isInsideLiquidVariable tableLevel].
      do 4 (split; [reflexivity|]). exact Hcur4.
    + injection Hmodes as <- <-.
      cbn [advance setModes setIter iter isInsideCode isInsideMath
             isInsideLiquidVariable tableLevel].
      do 4 (split; [reflexivity|]). exact Hcur2.
  - rewrite Hp.
    destruct (isInsideLiquidVariable s && isLiquidVariableEnd (src state) (Some p))
      eqn:Hend.
    + injection Hmodes as <- <-.
      apply andb_true_iff in Hend as [_ Hend].
      unfold isLiquidVariableEnd, liquidVariableEndOrder in Hend.
      rewrite checkChars2 in Hend by lia.
      apply andb_true_iff in Hend as [H3 H4].
      assert (p + 2 <= e) as Hin2.
      { apply (cursor_within_line _ p e 2 Hcur); [lia| |lia].
        intros i Hi. assert (i = p ∨ i = p + 1) as [->| ->] by lia;
          marker_char. }
      destruct (cursor_move _ p e 2 Hcur ltac:(lia) Hin2) as [Hcur2 _].
      change (len liquidVariableEndOrder) with 2.
      cbn [advance setModes setIter iter isInsideCode isInsideMath
             isInsideLiquidVariable tableLevel].
      do 4 (split; [reflexivity|]). exact Hcur2.
    + injection Hmodes as <- <-.
      do 4 (split; [reflexivity|]). exact Hcur.
Qed.

Lemma cursor_lineEnd (it : StateIterator) (p e : Z) :
  cursorAt state startLine L it p e → lineEndAt state startLine L p = Some e.
Proof. intros (_ & _ & HeM & Hline & _). unfold lineEndAt. by rewrite Hline. Qed.

(** The inline skips of a round are the spans of steps 5 and 6. *)
Lemma inlineSkip_walk (s : Scan) (p e : Z) :
  cursorAt state startLine L (iter s) p e →
  match inlineSpan opts (src state) p (lineEndAt state startLine L p) with
  | NoSpan => inlineSkip state opts s = None
  | SpanTo q =>
      q <= c →
      ∃ r, inlineSkip state opts s = Some r ∧ steps r = q - p ∧ p < q <= e
  | SpanLeftOut => True
  end.
Proof.
  intros Hcur. rewrite (cursor_lineEnd _ _ _ Hcur).
  pose proof Hcur as (Hp & He & _ & _ & Hpe).
  unfold inlineSpan, inlineSkip. rewrite Hp, He.
  destruct (if truthyFlag (table_ignoreSplittersInInlineCode opts) then _ else _)
    as [r|] eqn:Hcode.
  - destruct (truthyFlag (table_ignoreSplittersInInlineCode opts)); [|done].
    apply skipInlineCode_lands in Hcode as (Hlt & Hsteps & _); [|lia].
    unfold nle. destruct (Z.leb_spec (end_ r) e); [|done].
    intros _. exists r. split; [done|]. split; [done|lia].
  - destruct (if truthyFlag (table_ignoreSplittersInInlineMath opts) then _ else _)
      as [r|] eqn:Hmath; [|done].
    destruct (truthyFlag (table_ignoreSplittersInInlineMath opts)); [|done].
    apply skipInlineMath_lands in Hmath as (H0 & Hland); [|lia].
    destruct (_ || _); [|done].
    intros Hqc. exists r. split; [done|]. split; [lia|].
    destruct Hland as [(Hst & _ & H1)|(Hlt & _ & Hmax)].
    + rewrite Hst in *. split; [lia|].
      apply (cursor_within_line (iter s) p e 2 Hcur); [lia| |lia].
      intros i Hi. assert (i = p ∨ i = p + 1) as [->| ->] by lia.
      * apply (isMarkerChar_true _ dollarChar); [|auto 10].
        rewrite H0. apply Z.eqb_refl.
      * apply (isMarkerChar_true _ dollarChar); [|auto 10].
        rewrite H1. apply Z.eqb_refl.
    + unfold ngt, nlt in Hmax. apply Z.ltb_ge in Hmax. lia.
Qed.

Lemma walkInv_of (s : Scan) (p e : Z) (fuel : nat) :
  0 <= tableLevel s →
  cursorAt state startLine L (iter s) p e →
  activeClose fuel state opts startLine L (isInsideCode s) (isInsideMath s)
    (isInsideLiquidVariable s) (tableLevel s) p = Some c →
  walkInv state opts startLine L c s.
Proof. intros Hlev Hcur Hm. split; [done|]. exists p, e. split; [done|]. by exists fuel. Qed.

(** Two marker characters are passed within the line. *)
Lemma cursor_two (it : StateIterator) (p e ch0 ch1 : Z) (code math liquid : bool)
    (d : Z) (fuel : nat) :
  cursorAt state startLine L it p e →
  codeIs (charCodeAt (src state) p) ch0 = true →
  codeIs (charCodeAt (src state) (p + 1)) ch1 = true →
  isMarkerChar (Some ch0) = true → isMarkerChar (Some ch1) = true →
  activeClose fuel state opts startLine L code math liquid d (p + 2) = Some c →
  cursorAt state startLine L (next state 2 it) (p + 2) e.
Proof.
  intros Hcur H0 H1 Hm0 Hm1 Hm. pose proof Hcur as (_ & _ & _ & _ & Hpe).
  assert (0 <= p + 2) as Hp2 by lia.
  destruct (activeClose_ge _ _ _ _ _ _ _ _ _ _ _ Hp2 Hm) as [Hpc _].
  apply (cursor_move it p e 2 Hcur); [lia|].
  apply (cursor_within_line it p e 2 Hcur); [lia| |lia].
  intros i Hi. assert (i = p ∨ i = p + 1) as [->| ->] by lia.
  - unfold codeIs in H0. destruct (charCodeAt (src state) p); [|done].
    apply Z.eqb_eq in H0. by subst.
  - unfold codeIs in H1. destruct (charCodeAt (src state) (p + 1)); [|done].
    apply Z.eqb_eq in H1. by subst.
Qed.

(** The last part of a round follows steps 7 to 12 of the reading. *)
Lemma scanMarkers_walk (s : Scan) (p e : Z) :
  cursorAt state startLine L (iter s) p e → 0 <= tableLevel s →
  match markerStep (src state) (isInsideCode s) (isInsideMath s)
          (isInsideLiquidVariable s) (tableLevel s) p with
  | Found c' =>
      c' = c →
      (scanMarkers state s).2 = false
      ∧ endOfTable (scanMarkers state s).1 = Some (L + 2)
  | Goto code math liquid d q =>
      (∃ fuel, activeClose fuel state opts startLine L code math liquid d q
               = Some c) →
      (scanMarkers state s).2 = true
      ∧ walkInv state opts startLine L c (scanMarkers state s).1
      ∧ ∃ p', _pos (iter (scanMarkers state s).1) = Some p' ∧ p < p'
  | LeftOut => True
  end.
Proof.
  intros Hcur Hlev. pose proof Hcur as (Hp & He & HeM & Hline & Hpe).
  unfold markerStep, scanMarkers. rewrite Hp.
  destruct (isOpenTableOrder (src state) (Some p)) eqn:Hopen.
  { (* an inner open fence *)
    intros [fuel Hm]. cbn [fst snd]. split; [done|].
    unfold isOpenTableOrder, openTableOrder in Hopen.
    rewrite checkChars2 in Hopen by lia. apply andb_true_iff in Hopen as [H0 H1].
    pose proof (cursor_two (iter s) p e _ _ _ _ _ _ fuel Hcur H0 H1 eq_refl eq_refl Hm)
      as Hcur2.
    split.
    - apply (walkInv_of _ (p + 2) e fuel); [simpl; lia|exact Hcur2|exact Hm].
    - exists (p + 2). split; [apply Hcur2|lia]. }
  destruct (isCloseTableOrder (src state) (Some p)) eqn:Hcl.
  { unfold isCloseTableOrder, closeTableOrder in Hcl.
    rewrite checkChars2 in Hcl by lia. apply andb_true_iff in Hcl as [H0 H1].
    destruct (Z.eqb_spec (tableLevel s) 0) as [Hzero|Hnz].
    - (* the matching close fence *)
      intros ->. cbn [fst snd]. split; [done|].
      assert (_line (iter s) = L) as HL by congruence.
      rewrite HL in HeM. assert (e = eL) as -> by congruence.
      destruct (cursor_move (iter s) c eL 2 Hcur ltac:(lia) ltac:(lia))
        as [_ Hsame].
      cbn [endOfTable setEndOfTable]. f_equal.
      change (len closeTableOrder) with 2.
      cbn [advance addRow setCells setIter iter]. rewrite Hsame. lia.
    - (* the close fence of a nested table *)
      intros [fuel Hm]. cbn [fst snd]. split; [done|].
      pose proof (cursor_two (iter s) p e _ _ _ _ _ _ fuel Hcur H0 H1 eq_refl eq_refl Hm)
        as Hcur2.
      split.
      + apply (walkInv_of _ (p + 2) e fuel); [simpl; lia|exact Hcur2|exact Hm].
      + exists (p + 2). split; [apply Hcur2|lia]. }
  destruct (Z.ltb_spec 0 (tableLevel s)) as [Hnested|Htop].
  { (* inside a nested table *)
    intros [fuel Hm]. cbn [fst snd]. split; [done|].
    destruct (cursor_step (iter s) p e _ _ _ _ fuel Hcur Hm)
      as (p' & e' & Hcur' & Hlt & fuel' & Hm').
    split.
    - apply (walkInv_of _ p' e' fuel'); [done|exact Hcur'|exact Hm'].
    - exists p'. split; [apply Hcur'|done]. }
  destruct (isRowOrder (src state) (Some p)) eqn:Hrow.
  { (* a row marker *)
    intros [fuel Hm]. split; [done|].
    unfold isRowOrder, rowStartOrder in Hrow.
    apply andb_true_iff in Hrow as [Hrow _].
    rewrite checkChars2 in Hrow by lia. apply andb_true_iff in Hrow as [H0 H1].
    pose proof (cursor_two (iter s) p e _ _ _ _ _ _ fuel Hcur H0 H1 eq_refl eq_refl Hm)
      as Hcur2.
    destruct (default false (rowMap s !! tableLevel s)); cbn [fst snd]; split.
    - apply (walkInv_of _ (p + 2) e fuel); [done|exact Hcur2|exact Hm].
    - exists (p + 2). split; [apply Hcur2|lia].
    - apply (walkInv_of _ (p + 2) e fuel); [done|exact Hcur2|exact Hm].
    - exists (p + 2). split; [apply Hcur2|lia]. }
  destruct (isCellOrder (src state) (Some p)).
  { intros [fuel Hm]. cbn [fst snd]. split; [done|].
    destruct (cursor_step (iter s) p e _ _ _ _ fuel Hcur Hm)
      as (p' & e' & Hcur' & Hlt & fuel' & Hm').
    split.
    - apply (walkInv_of _ p' e' fuel'); [done|exact Hcur'|exact Hm'].
    - exists p'. split; [apply Hcur'|done]. }
  intros [fuel Hm]. cbn [fst snd]. split; [done|].
  destruct (cursor_step (iter s) p e _ _ _ _ fuel Hcur Hm)
    as (p' & e' & Hcur' & Hlt & fuel' & Hm').
  split.
  - apply (walkInv_of _ p' e' fuel'); [done|exact Hcur'|exact Hm'].
  - exists p'. split; [apply Hcur'|done].
Qed.

(** One round of the loop under [walkInv]: either the round goes on,
    the invariant holds again and the cursor has moved right, or the
    round ends the scan with the end of table two lines past [L]. *)
Lemma walk_round (s : Scan) :
  walkInv state opts startLine L c s →
  ∃ p, _pos (iter s) = Some p ∧ 0 <= p <= c ∧ p < len (src state)
       ∧ (((scanBody state opts s).2 = true
           ∧ walkInv state opts startLine L c (scanBody state opts s).1
           ∧ ∃ p', _pos (iter (scanBody state opts s).1) = Some p' ∧ p < p')
          ∨ ((scanBody state opts s).2 = false
             ∧ endOfTable (scanBody state opts s).1 = Some (L + 2))).
Proof.
  intros (Hlev & p & e & Hcur & fuel & Hm).
  pose proof Hcur as (Hp & He & HeM & Hline & Hpe).
  assert (0 <= p) as Hp0 by lia.
  destruct (activeClose_ge _ _ _ _ _ _ _ _ _ _ _ Hp0 Hm) as [Hpc Hcc].
  unfold isCloseTableOrder, closeTableOrder in Hcc.
  rewrite checkChars2 in Hcc by lia. apply andb_true_iff in Hcc as [Hcc _].
  unfold codeIs in Hcc. destruct (charCodeAt (src state) c) eqn:Hcchar; [|done].
  apply charCodeAt_Some_range in Hcchar. clear Hcc.
  exists p. split; [done|]. split; [lia|]. split; [lia|].
  destruct fuel as [|fuel]; [done|]. cbn [activeClose] in Hm.
  unfold walkStep in Hm. unfold scanBody.
  destruct (fenceModes opts (src state) (isInsideCode s) (isInsideMath s) p)
    as [[code1 math1] p1] eqn:Hfence.
  pose proof (fenceModes_forward _ _ _ _ _ _ _ _ Hfence) as Hpp1.
  assert (p1 <= c) as Hp1c.
  { destruct (code1 || math1).
    - destruct (p1 + 1 <=? len (src state)); [|done].
      apply activeClose_ge in Hm as [Hm _]; lia.
    - destruct (liquidMode _ _ _) as [liquid1 p2] eqn:Hl.
      apply liquidMode_forward in Hl.
      assert (0 <= p2) as Hp2 by lia.
      pose proof (walkStep_forward state opts startLine L false false false 0 p2 Hp2)
        as _.
      destruct liquid1.
      + destruct (p2 + 1 <=? len (src state)); [|done].
        apply activeClose_ge in Hm as [Hm _]; lia.
      + destruct (inlineSpan _ _ _ _) as [|q|] eqn:Hspan; [| |done].
        * pose proof (markerStep_forward (src state) code1 math1 false
                        (tableLevel s) p2) as Hfw.
          destruct (markerStep _ _ _ _ _ _) as [c'|? ? ? ? q|]; [| |done].
          -- injection Hm as <-. lia.
          -- destruct (q <=? len (src state)); [|done].
             apply activeClose_ge in Hm as [Hm _]; lia.
        * apply inlineSpan_forward in Hspan; [|lia].
          destruct (q <=? len (src state)); [|done].
          apply activeClose_ge in Hm as [Hm _]; lia. }
  destruct (fenceToggles_walk s p e code1 math1 p1 Hcur Hfence Hp1c)
    as (Hc1 & Hm1 & Hl1 & Hd1 & Hcur1).
  set (s1 := fenceToggles state opts s) in *.
  rewrite Hc1, Hm1.
  destruct (code1 || math1).
  { (* inside a fenced block *)
    left. cbn [fst snd]. split; [done|].
    destruct (p1 + 1 <=? len (src state)); [|done].
    destruct (cursor_step (iter s1) p1 e _ _ _ _ fuel Hcur1 Hm)
      as (p' & e' & Hcur' & Hlt & fuel' & Hm').
    split.
    - apply (walkInv_of _ p' e' fuel'); [simpl; lia|exact Hcur'|].
      cbn [advance setIter isInsideCode isInsideMath isInsideLiquidVariable
             tableLevel].
      by rewrite Hc1, Hm1, Hl1, Hd1.
    - exists p'. split; [apply Hcur'|lia]. }
  rewrite <- Hl1 in Hm.
  destruct (liquidMode (src state) (isInsideLiquidVariable s1) p1)
    as [liquid1 p2] eqn:Hliquid.
  pose proof (liquidMode_forward _ _ _ _ _ Hliquid) as Hp1p2.
  assert (p2 <= c) as Hp2c.
  { destruct liquid1.
    - destruct (p2 + 1 <=? len (src state)); [|done].
      apply activeClose_ge in Hm as [Hm _]; lia.
    - destruct (inlineSpan _ _ _ _) as [|q|] eqn:Hspan; [| |done].
      + pose proof (markerStep_forward (src state) code1 math1 false
                      (tableLevel s) p2) as Hfw.
        destruct (markerStep _ _ _ _ _ _) as [c'|? ? ? ? q|]; [| |done].
        * injection Hm as <-. lia.
        * destruct (q <=? len (src state)); [|done].
          apply activeClose_ge in Hm as [Hm _]; lia.
      + apply inlineSpan_forward in Hspan; [|lia].
        destruct (q <=? len (src state)); [|done].
        apply activeClose_ge in Hm as [Hm _]; lia. }
  destruct (liquidToggles_walk s1 p1 e liquid1 p2 Hcur1 Hliquid Hp2c)
    as (Hc2 & Hm2 & Hl2 & Hd2 & Hcur2).
  set (s2 := liquidToggles state s1) in *.
  rewrite Hl2.
  destruct liquid1.
  { (* inside a template variable *)
    left. cbn [fst snd]. split; [done|].
    destruct (p2 + 1 <=? len (src state)); [|done].
    destruct (cursor_step (iter s2) p2 e _ _ _ _ fuel Hcur2 Hm)
      as (p' & e' & Hcur' & Hlt & fuel' & Hm').
    split.
    - apply (walkInv_of _ p' e' fuel'); [simpl; lia|exact Hcur'|].
      cbn [advance setIter isInsideCode isInsideMath isInsideLiquidVariable
             tableLevel].
      by rewrite Hc2, Hm2, Hl2, Hd2, Hc1, Hm1, Hd1.
    - exists p'. split; [apply Hcur'|lia]. }
  pose proof (inlineSkip_walk s2 p2 e Hcur2) as Hskip.
  destruct (inlineSpan opts (src state) p2 (lineEndAt state startLine L p2))
    as [|q|] eqn:Hspan; [| |done].
  - (* no span: the fences and the markers *)
    rewrite Hskip.
    pose proof (scanMarkers_walk s2 p2 e Hcur2 ltac:(lia)) as Hmark.
    rewrite Hc2, Hm2, Hl2, Hd2, Hc1, Hm1, Hd1 in Hmark.
    destruct (markerStep (src state) code1 math1 false (tableLevel s) p2)
      as [c'|code' math' liquid' d' q|]; [| |done].
    + injection Hm as ->. right. by apply Hmark.
    + destruct (q <=? len (src state)); [|done].
      destruct Hmark as (Hgo & Hinv & p' & Hp' & Hlt); [by exists fuel|].
      left. split; [done|]. split; [done|]. exists p'. split; [done|lia].
  - (* an inline span *)
    destruct (q <=? len (src state)); [|done].
    assert (0 <= q) as Hq0.
    { apply inlineSpan_forward in Hspan; lia. }
    destruct (activeClose_ge _ _ _ _ _ _ _ _ _ _ _ Hq0 Hm) as [Hqc _].
    destruct (Hskip Hqc) as (r & -> & Hsteps & Hq).
    left. cbn [fst snd]. split; [done|].
    destruct (cursor_move (iter s2) p2 e (q - p2) Hcur2 ltac:(lia) ltac:(lia))
      as [Hcurq _].
    replace (p2 + (q - p2)) with q in Hcurq by lia.
    split.
    + apply (walkInv_of _ q e fuel).
      * simpl. lia.
      * cbn [advance setIter iter]. by rewrite Hsteps.
      * cbn [advance setIter isInsideCode isInsideMath isInsideLiquidVariable
               tableLevel].
        by rewrite Hc2, Hm2, Hl2, Hd2, Hc1, Hm1, Hd1.
    + exists q. split; [|lia]. cbn [advance setIter iter]. rewrite Hsteps.
      apply Hcurq.
Qed.

Lemma walkInv_pos_le (s : Scan) (p : Z) :
  walkInv state opts startLine L c s → _pos (iter s) = Some p → p <= c.
Proof.
  intros (_ & p0 & e & (Hp0 & _ & _ & _ & Hpe) & fuel & Hm) Hp.
  assert (p0 = p) as -> by congruence.
  assert (0 <= p) as Hp1 by lia.
  by destruct (activeClose_ge _ _ _ _ _ _ _ _ _ _ _ Hp1 Hm).
Qed.

(** Under [walkInv] the loop reaches the matching close fence. *)
Lemma walk_loop (ep : Z) (fuel : nat) :
  c <= ep →
  ∀ s p, walkInv state opts startLine L c s → _pos (iter s) = Some p →
    (Z.to_nat (c - p) < fuel)%nat →
    ∃ s', scanLoop fuel state opts (Some ep) s = Some s'
          ∧ endOfTable s' = Some (L + 2).
Proof.
  intros Hep. induction fuel as [|fuel IH]; intros s p Hinv Hp Hfuel; [lia|].
  destruct (walk_round s Hinv) as (p0 & Hp0 & Hpc & Hlen & Hround).
  assert (p0 = p) as -> by congruence.
  simpl. rewrite Hp. simpl.
  destruct (Z.leb_spec p ep) as [_|]; [|lia]. simpl.
  rewrite bool_decide_eq_false_2.
  2:{ unfold symbol. rewrite Hp. simpl.
      destruct (charCodeAt_in_range (src state) p ltac:(lia)) as [x ->]. done. }
  destruct (scanBody state opts s) as [s' b]. simpl in Hround.
  destruct Hround as [(-> & Hinv' & p' & Hp' & Hlt) | (-> & Hend)].
  - pose proof (walkInv_pos_le s' p' Hinv' Hp').
    apply (IH s' p' Hinv' Hp'). lia.
  - by exists s'.
Qed.

End ActiveFences.

(** C2, amended.  Count as fences those the scan of the specification
    does not make inert: the reading [activeClose] follows the text from
    the opening fence, toggles the fenced code and math blocks the
    options ask for, enters and leaves template variables, passes the
    inline spans the options ask for, counts nested tables, and passes a
    row marker whole.  When that reading finds the fences balanced, with
    the matching top-level close fence at offset [c] on line [L] and
    within the scanned range, and the line table is well formed from the
    start line to [L], the scan returns with [endOfTable] present and
    equal to [L + 2]. *)
Theorem balanced_fences_end_of_table (state : StateBlock)
    (opts : YfmTablePluginOptions) (startLine L sp ep c : Z) :
  linesOk state startLine L = true →
  0 <= sp →
  onLine state startLine startLine sp = true →
  activeFences state opts startLine L sp c →
  onLine state startLine L c = true →
  c <= ep →
  ∃ r, getTableRowPositions state (Some sp) (Some ep) startLine opts = Some r
       ∧ rp_endOfTable r = Some (L + 2).
Proof.
  intros Hlines Hsp Hopen Hbal Hclose Hep.
  unfold onLine in Hclose. apply andb_true_iff in Hclose as [HcL Hfit].
  apply bool_decide_eq_true in HcL.
  destruct (eMarks state !! L) as [eL|] eqn:HeL; [|done].
  apply Z.leb_le in Hfit.
  assert (startLine <= L) as HL.
  { unfold lineAt in HcL. apply lineFrom_range in HcL. lia. }
  unfold onLine in Hopen. apply andb_true_iff in Hopen as [_ Hopen].
  destruct (eMarks state !! startLine) as [e0|] eqn:He0; [|done].
  apply Z.leb_le in Hopen.
  assert (0 <= sp + 2) as Hsp2 by lia.
  destruct (activeClose_ge _ _ _ _ _ _ _ _ _ _ _ Hsp2 Hbal) as [Hge _].
  assert (Hinv : walkInv state opts startLine L c (scanStart state (Some sp) startLine)).
  { apply (walkInv_of state opts startLine L c _ (sp + 2) e0
             (S (length (src state)))); [done| |exact Hbal].
    unfold cursorAt, scanStart, newStateIterator. simpl.
    split; [done|]. split; [done|]. split; [done|]. split; [|lia].
    unfold lineAt.
    destruct (Z.to_nat (L - startLine + 1)) as [|n] eqn:Hn; [lia|].
    simpl. rewrite He0. by destruct (Z.leb_spec (sp + 2) e0); [|lia]. }
  destruct (walk_loop state opts startLine L c eL Hlines HcL HeL Hfit
              ep (scanFuel state (Some ep)) Hep _ (sp + 2) Hinv eq_refl)
    as (s' & Hloop & Hend).
  { unfold scanFuel. simpl. nia. }
  unfold getTableRowPositions. rewrite Hloop. simpl. by eexists.
Qed.

Lemma balanced_fences_end_of_table_witness :
  activeFences inertDoc allOnOpts 0 10 0 82
  ∧ ∃ r, getTableRowPositions inertDoc (Some 0) (Some 96) 0 allOnOpts = Some r
         ∧ rp_endOfTable r = Some (10 + 2).
Proof.
  assert (Hbal : activeFences inertDoc allOnOpts 0 10 0 82)
    by (vm_compute; reflexivity).
  split; [exact Hbal|].
  apply (balanced_fences_end_of_table inertDoc allOnOpts 0 10 0 96 82);
    first [exact Hbal | vm_compute; reflexivity | lia | vm_compute; congruence].
Defined.
